(** * sysmon: the sampling engine and the interactive session, verified

    A shallow embedding of the Go sources of sysmon

      - [internal/processes.go]  (process snapshots and their ranking),
      - [internal/stats.go]      (system statistics, byte counts and uptime),
      - [internal/network.go]    (interface counters and throughput),
      - [main.go]                (session state, key handling, event loop),

    followed by the properties that the specification states about them.

    Conventions.  Go integers are [Z] with the wrap-around of their width
    written out; [float64] and [float32] values are the IEEE 754 values of
    [SpecFloat], with the binary64 operations at precision 53; Go strings
    are byte strings ([string]); a Go map is a [gmap], wrapped in [option]
    where the code distinguishes the [nil] map; the package-level variables
    of [internal/network.go] are threaded explicitly as a state record; what
    a call reads from the operating system is an explicit argument. *)

From Stdlib Require Import ZArith Lia Bool Ascii Floats.SpecFloat.
From stdpp Require Import base option list sorting strings gmap.

Local Open Scope Z_scope.

(* ===================================================================== *)
(** * The Go side: integers, floats, time, errors, [sort.Slice]          *)
(* ===================================================================== *)

Module Go.

(** ** Fixed-width integers *)

(** [uint64] arithmetic is arithmetic modulo [2^64]. *)
Definition uint64 (x : Z) : Z := x mod 2 ^ 64.

(** [int64] arithmetic wraps around in two's complement. *)
Definition int64 (x : Z) : Z := (x + 2 ^ 63) mod 2 ^ 64 - 2 ^ 63.

Definition maxInt64 : Z := 2 ^ 63 - 1.
Definition minInt64 : Z := - 2 ^ 63.

(** Truncated division and remainder (Go's [/] and [%] on integers). *)
Definition quot (a b : Z) : Z := Z.quot a b.
Definition rem (a b : Z) : Z := Z.rem a b.

(** ** [float64] *)

Definition float64 : Type := spec_float.
Definition float32 : Type := spec_float.

Definition prec64 : Z := 53.
Definition emax64 : Z := 1024.

(** The conversion [float64(x)] of an integer: round to nearest, ties to
    even. *)
Definition float64_of_Z (x : Z) : float64 :=
  binary_normalize prec64 emax64 x 0 false.

Definition fadd (x y : float64) : float64 := SFadd prec64 emax64 x y.
Definition fdiv (x y : float64) : float64 := SFdiv prec64 emax64 x y.

(** [x > y], [x <= y] on floats; both are false when a NaN is involved. *)
Definition fgt (x y : spec_float) : bool := SFltb y x.
Definition fle (x y : spec_float) : bool := SFleb x y.

Definition is_nan (x : spec_float) : bool :=
  match x with S754_nan => true | _ => false end.

(** The constants of the sources, as [float64] values.  An untyped Go
    constant is converted by rounding its exact value to the nearest
    [float64]; for [0.1] that is the correctly rounded quotient 1/10. *)
Definition f0 : float64 := S754_zero false.
Definition f1024 : float64 := float64_of_Z 1024.
Definition f1e9 : float64 := float64_of_Z 1000000000.
Definition f0_1 : float64 := fdiv (float64_of_Z 1) (float64_of_Z 10).

(** A finite number of sign [s], at least [2^(lo-1)] and below [2^hi] in
    absolute value, with a mantissa of at most 53 bits. *)
Definition ranged (s : bool) (lo hi : Z) (f : spec_float) : Prop :=
  match f with
  | S754_finite s' m e =>
      s' = s ∧ lo ≤ Zdigits2 (Zpos m) + e ≤ hi ∧ Zdigits2 (Zpos m) ≤ 53
  | _ => False
  end.

(** [2^k] as a [float64], for [k] in the normal range. *)
Definition pow2 (k : Z) : float64 :=
  S754_finite false 4503599627370496%positive (k - 52).

(** The conversion [int(f)] of a [float64]: the fraction is dropped.  For
    an [f] that is not a number [int] can hold, the language leaves the
    result to the implementation ([None]). *)
Definition int_of_float64 (f : float64) : option Z :=
  match f with
  | S754_zero _ => Some 0
  | S754_finite s m e =>
      let z := cond_Zopp s (if 0 <=? e then Zpos m * 2 ^ e else Zpos m / 2 ^ (- e)) in
      if (minInt64 <=? z) && (z <=? maxInt64) then Some z else None
  | _ => None
  end.

(** ** [time.Time] and [time.Duration] *)

(** A [Duration] is an [int64] count of nanoseconds. *)
Definition Duration : Type := Z.
Definition Nanosecond : Duration := 1.
Definition Second : Duration := 1000000000.

(** Every [time.Time] of the program comes from [time.Now()] and carries a
    monotonic clock reading; it is modelled by that reading, an [int64]
    count of nanoseconds. *)
Definition Time : Type := Z.

(** [t.Sub(u)] on monotonic readings ([subMono]): the difference,
    saturated at the ends of the [Duration] range. *)
Definition Sub (t u : Time) : Duration :=
  let d := int64 (t - u) in
  if (d <? 0) && (u <? t) then maxInt64
  else if (0 <? d) && (t <? u) then minInt64
  else d.

(** [d.Seconds()]: whole seconds plus the fraction, as a [float64]. *)
Definition Seconds (d : Duration) : float64 :=
  let sec := quot d Second in
  let nsec := rem d Second in
  fadd (float64_of_Z sec) (fdiv (float64_of_Z nsec) f1e9).

Definition Minute : Duration := 60 * Second.
Definition Hour : Duration := 60 * Minute.

(** [d.Minutes()] and [d.Hours()]: whole units plus the fraction. *)
Definition Minutes (d : Duration) : float64 :=
  let min := quot d Minute in
  let nsec := rem d Minute in
  fadd (float64_of_Z min) (fdiv (float64_of_Z nsec) (float64_of_Z (60 * 1000000000))).

Definition Hours (d : Duration) : float64 :=
  let hour := quot d Hour in
  let nsec := rem d Hour in
  fadd (float64_of_Z hour)
       (fdiv (float64_of_Z nsec) (float64_of_Z (60 * 60 * 1000000000))).

(** ** Errors *)

(** A Go call returning [(T, error)]. *)
Inductive Result (A : Type) : Type :=
  | Ok (a : A)
  | Err (msg : string).
Arguments Ok {A} a.
Arguments Err {A} msg.

(** ** Slices *)

(** [s[:limit]] for [limit <= len(s)]; slicing with a negative bound is a
    run-time panic ([None]). *)
Definition slice_to {A : Type} (s : list A) (limit : Z) : option (list A) :=
  if limit <? 0 then None else Some (take (Z.to_nat limit) s).

(** ** Strings *)

(** [s[:n]] on a string: a run-time panic ([None]) unless
    [0 <= n <= len(s)]. *)
Definition string_to (s : string) (n : Z) : option string :=
  if (n <? 0) || (Z.of_nat (String.length s) <? n) then None
  else Some (String.substring 0 (Z.to_nat n) s).

(** [s[i]] on a string: the i-th byte, a run-time panic ([None]) out of
    range. *)
Definition index (s : string) (i : Z) : option ascii :=
  if i <? 0 then None else String.get (Z.to_nat i) s.

(** ** [sort.Slice] *)

(** The comparison handed to [sort.Slice] has to be a transitive ordering
    of the elements being sorted: irreflexive, transitive, and with a
    transitive "not less" (a strict weak ordering). *)
Definition StrictWeakOn {A : Type} (less : A → A → bool) (l : list A) : Prop :=
  (∀ x, x ∈ l → less x x = false) ∧
  (∀ x y z, x ∈ l → y ∈ l → z ∈ l →
            less x y = true → less y z = true → less x z = true) ∧
  (∀ x y z, x ∈ l → y ∈ l → z ∈ l →
            less x y = false → less y z = false → less x z = false).

(** [l] is in the order of [less]: no element is less than one before it. *)
Definition SortedBy {A : Type} (less : A → A → bool) (l : list A) : Prop :=
  StronglySorted (λ x y, less y x = false) l.

(** [sort.Slice] is library code.  Its documentation promises a
    rearrangement of the slice that is in the order of [less], and says in
    so many words that the sort is not guaranteed to be stable.  A
    [SliceSorter] is any function that keeps this promise. *)
Record SliceSorter : Type := {
  sortSlice : ∀ {A : Type}, (A → A → bool) → list A → list A;
  sortSlice_perm : ∀ (A : Type) (less : A → A → bool) (l : list A),
      sortSlice less l ≡ₚ l;
  sortSlice_sorted : ∀ (A : Type) (less : A → A → bool) (l : list A),
      StrictWeakOn less l → SortedBy less (sortSlice less l)
}.

(** Two sorters, both insertion sorts.  [insert_by before] puts [x] in
    front of the first element [y] with [before x y]. *)
Fixpoint insert_by {A : Type} (before : A → A → bool) (x : A) (l : list A)
  : list A :=
  match l with
  | [] => [x]
  | y :: l' => if before x y then x :: y :: l' else y :: insert_by before x l'
  end.

Definition isort_by {A : Type} (before : A → A → bool) (l : list A) : list A :=
  foldr (insert_by before) [] l.

(** [x] stops in front of the first element that is not less than it:
    equal elements keep their order. *)
Definition stableSort {A : Type} (less : A → A → bool) : list A → list A :=
  isort_by (λ x y, negb (less y x)).

(** [x] stops only in front of an element it is less than: it passes its
    equals, so equal elements come out in reverse order. *)
Definition passingSort {A : Type} (less : A → A → bool) : list A → list A :=
  isort_by less.

End Go.

(** The package [sort]: [sort.Slice] as the library runs it (Go 1.19 and
    later, [zsortfunc.go]).  The slice is reached through [Less] and
    [Swap] on indices, as through [lessSwap].  A loop over indices is a
    function with a count [n] of rounds to go, set where the loop starts
    to a number of rounds that it cannot exceed. *)
Module sort.
Local Open Scope nat_scope.

Section lessSwap.
Context {A : Type} (less : A → A → bool).

(** [data.Less(i, j)] and [data.Swap(i, j)].  The sort stays inside the
    slice; on an index outside it the model compares nothing and moves
    nothing. *)
Definition Less (data : list A) (i j : nat) : bool :=
  match data !! i, data !! j with
  | Some x, Some y => less x y
  | _, _ => false
  end.

Definition Swap (data : list A) (i j : nat) : list A :=
  match data !! i, data !! j with
  | Some x, Some y => <[i := y]> (<[j := x]> data)
  | _, _ => data
  end.

(** [for j := i; j > a && data.Less(j, j-1); j-- { data.Swap(j, j-1) }] *)
Fixpoint insertionSort_sink (a : nat) (data : list A) (j : nat) : list A :=
  match j with
  | 0 => data
  | S j' =>
      if (a <? j) && Less data j j'
      then insertionSort_sink a (Swap data j j') j'
      else data
  end.

(** [insertionSort_func] sorts [data[a:b]] using insertion sort. *)
Definition insertionSort_func (data : list A) (a b : nat) : list A :=
  foldl (insertionSort_sink a) data (seq (a + 1) (b - (a + 1))).

(** [for i < j { data.Swap(i, j); i++; j-- }], at most [n] rounds. *)
Fixpoint reverseRange_loop (n : nat) (data : list A) (i j : nat) : list A :=
  match n with
  | 0 => data
  | S n' => if i <? j then reverseRange_loop n' (Swap data i j) (i + 1) (j - 1)
            else data
  end.

Definition reverseRange_func (data : list A) (a b : nat) : list A :=
  reverseRange_loop (b - a) data a (b - 1).

(** [order2_func] returns [x, y] where [data[x] <= data[y]], and counts
    the exchange in [swaps]. *)
Definition order2_func (data : list A) (a b swaps : nat) : nat * nat * nat :=
  if Less data b a then (b, a, swaps + 1) else (a, b, swaps).

(** [median_func] returns [x] where [data[x]] is the median of [data[a]],
    [data[b]], [data[c]]. *)
Definition median_func (data : list A) (a b c swaps : nat) : nat * nat :=
  let '(a, b, swaps) := order2_func data a b swaps in
  let '(b, c, swaps) := order2_func data b c swaps in
  let '(a, b, swaps) := order2_func data a b swaps in
  (b, swaps).

(** [medianAdjacent_func] finds the median of [data[a - 1]], [data[a]],
    [data[a + 1]]. *)
Definition medianAdjacent_func (data : list A) (a swaps : nat) : nat * nat :=
  median_func data (a - 1) a (a + 1) swaps.

Inductive sortedHint : Type := unknownHint | increasingHint | decreasingHint.

Definition shortestNinther : nat := 50.
Definition maxSwaps : nat := 4 * 3.

(** [choosePivot_func] chooses a pivot in [data[a:b]]: a static one below
    8 elements, the median of three below [shortestNinther], Tukey's
    ninther from there on. *)
Definition choosePivot_func (data : list A) (a b : nat) : nat * sortedHint :=
  let l := b - a in
  let swaps := 0 in
  let i := a + l / 4 * 1 in
  let j := a + l / 4 * 2 in
  let k := a + l / 4 * 3 in
  let '(j, swaps) :=
    if 8 <=? l then
      let '(i, j, k, swaps) :=
        if shortestNinther <=? l then
          let '(i, swaps) := medianAdjacent_func data i swaps in
          let '(j, swaps) := medianAdjacent_func data j swaps in
          let '(k, swaps) := medianAdjacent_func data k swaps in
          (i, j, k, swaps)
        else (i, j, k, swaps) in
      median_func data i j k swaps
    else (j, swaps) in
  if swaps =? 0 then (j, increasingHint)
  else if swaps =? maxSwaps then (j, decreasingHint)
  else (j, unknownHint).

(** [for i < b && !data.Less(i, i-1) { i++ }], at most [n] rounds. *)
Fixpoint partialInsertionSort_scan (n : nat) (data : list A) (b i : nat) : nat :=
  match n with
  | 0 => i
  | S n' => if (i <? b) && negb (Less data i (i - 1))
            then partialInsertionSort_scan n' data b (i + 1)
            else i
  end.

(** [for j := i - 1; j >= 1; j-- { if !data.Less(j, j-1) { break };
    data.Swap(j, j-1) }] *)
Fixpoint partialInsertionSort_left (data : list A) (j : nat) : list A :=
  match j with
  | 0 => data
  | S j' => if negb (Less data j j') then data
            else partialInsertionSort_left (Swap data j j') j'
  end.

(** [for j := i + 1; j < b; j++ { if !data.Less(j, j-1) { break };
    data.Swap(j, j-1) }], at most [n] rounds. *)
Fixpoint partialInsertionSort_right (n : nat) (data : list A) (b j : nat)
  : list A :=
  match n with
  | 0 => data
  | S n' => if j <? b then
              if negb (Less data j (j - 1)) then data
              else partialInsertionSort_right n' (Swap data j (j - 1)) b (j + 1)
            else data
  end.

Definition maxSteps : nat := 5.
Definition shortestShifting : nat := 50.

(** The steps of [partialInsertionSort_func], [steps] of them left. *)
Fixpoint partialInsertionSort_steps (steps : nat) (data : list A) (a b i : nat)
  : list A * bool :=
  match steps with
  | 0 => (data, false)
  | S steps' =>
      let i := partialInsertionSort_scan (b - i) data b i in
      if i =? b then (data, true)
      else if b - a <? shortestShifting then (data, false)
      else
        let data := Swap data i (i - 1) in
        let data :=
          if 2 <=? i - a then partialInsertionSort_left data (i - 1) else data in
        let data :=
          if 2 <=? b - i
          then partialInsertionSort_right (b - (i + 1)) data b (i + 1)
          else data in
        partialInsertionSort_steps steps' data a b i
  end.

(** [partialInsertionSort_func] partially sorts a slice, and returns true
    if the slice is sorted at the end. *)
Definition partialInsertionSort_func (data : list A) (a b : nat)
  : list A * bool :=
  partialInsertionSort_steps maxSteps data a b (a + 1).

(** [for i <= j && data.Less(i, a) { i++ }], at most [n] rounds. *)
Fixpoint partition_up (n : nat) (data : list A) (a i j : nat) : nat :=
  match n with
  | 0 => i
  | S n' => if (i <=? j) && Less data i a then partition_up n' data a (i + 1) j
            else i
  end.

(** [for i <= j && !data.Less(j, a) { j-- }], at most [n] rounds. *)
Fixpoint partition_down (n : nat) (data : list A) (a i j : nat) : nat :=
  match n with
  | 0 => j
  | S n' => if (i <=? j) && negb (Less data j a)
            then partition_down n' data a i (j - 1)
            else j
  end.

(** The exchanging loop of [partition_func], at most [n] rounds. *)
Fixpoint partition_loop (n : nat) (data : list A) (a i j : nat)
  : list A * nat :=
  match n with
  | 0 => (data, j)
  | S n' =>
      let i := partition_up (j + 1 - i) data a i j in
      let j := partition_down (j + 1 - i) data a i j in
      if j <? i then (data, j)
      else partition_loop n' (Swap data i j) a (i + 1) (j - 1)
  end.

(** [partition_func] does one quicksort partition.  With [p] the pivot
    element, it moves the elements of [data[a:b]] so that those less than
    [p] come before the new place of [p] and the others after it. *)
Definition partition_func (data : list A) (a b pivot : nat)
  : list A * nat * bool :=
  let data := Swap data a pivot in
  let i := a + 1 in
  let j := b - 1 in
  let i := partition_up (j + 1 - i) data a i j in
  let j := partition_down (j + 1 - i) data a i j in
  if j <? i then (Swap data j a, j, true)
  else
    let data := Swap data i j in
    let '(data, j) := partition_loop (b - a) data a (i + 1) (j - 1) in
    (Swap data j a, j, false).

Definition maxInsertion : nat := 12.

(** [pdqsort_func] sorts [data[a:b]]: the loop of the function, with its
    two flags, and [fuel] rounds and calls to go.  A range of at most
    [maxInsertion] elements is sorted by insertion; a longer one is
    partitioned around a pivot, the shorter part is sorted by a call and
    the longer one by the next round of the loop.  Three paths of the
    library are not modelled: the heap sort taken when [limit] is used
    up ([heapSort_func]), the breaking of patterns after an unbalanced
    partition ([breakPatterns_func]), and the partition of a range that
    starts with elements equal to the pivot ([partitionEqual_func]).  A
    run that needs one of them has no result here. *)
Fixpoint pdqsort_func (fuel : nat) (data : list A) (a b limit : nat)
    (wasBalanced wasPartitioned : bool) : option (list A) :=
  let length := b - a in
  if length <=? maxInsertion then Some (insertionSort_func data a b)
  else
    match fuel with
    | 0 => None
    | S fuel' =>
        if limit =? 0 then None (* [heapSort_func] *)
        else if negb wasBalanced then None (* [breakPatterns_func] *)
        else
          let '(pivot, hint) := choosePivot_func data a b in
          let '(data, pivot, hint) :=
            match hint with
            | decreasingHint =>
                (reverseRange_func data a b, (b - 1) - (pivot - a), increasingHint)
            | _ => (data, pivot, hint)
            end in
          let '(data, sorted) :=
            match hint with
            | increasingHint =>
                if wasBalanced && wasPartitioned
                then partialInsertionSort_func data a b
                else (data, false)
            | _ => (data, false)
            end in
          if sorted then Some data
          else if (0 <? a) && negb (Less data (a - 1) pivot)
          then None (* [partitionEqual_func] *)
          else
            let '(data, mid, alreadyPartitioned) := partition_func data a b pivot in
            let leftLen := mid - a in
            let rightLen := b - mid in
            let balanceThreshold := length / 8 in
            if leftLen <? rightLen then
              data ← pdqsort_func fuel' data a mid limit true true;
              pdqsort_func fuel' data (mid + 1) b limit
                           (balanceThreshold <=? leftLen) alreadyPartitioned
            else
              data ← pdqsort_func fuel' data (mid + 1) b limit true true;
              pdqsort_func fuel' data a mid limit
                           (balanceThreshold <=? rightLen) alreadyPartitioned
    end.

End lessSwap.

(** [bits.Len]: the number of bits of [n]. *)
Definition bits_Len (n : nat) : nat :=
  if n =? 0 then 0 else Nat.log2 n + 1.

(** [sort.Slice(x, less)]. *)
Definition Slice {A : Type} (less : A → A → bool) (x : list A)
  : option (list A) :=
  let length := length x in
  let limit := bits_Len length in
  pdqsort_func less length x 0 length limit true true.

End sort.

(** The package [fmt], as far as the program's formatting helpers go.  The
    text that [fmt.Sprintf] makes of a format and its arguments is the
    library's; a formatted string is kept as the call that makes it. *)
Module fmt.

Inductive Arg : Type :=
  | Int (n : Z)
  | Float (f : Go.float64)
  | Char (c : ascii).

Record Formatted : Type := Sprintf { format : string; args : list Arg }.

End fmt.

(* ===================================================================== *)
(** * [internal/processes.go]                                            *)
(* ===================================================================== *)

(** What gopsutil's [process] package answers for one process: every read
    can fail on its own. *)
Module process.

Record MemoryInfoStat : Type := { RSS : Z }.

Record Process : Type := {
  Pid : Z;
  Name : Go.Result string;
  Username : Go.Result string;
  CPUPercent : Go.Result Go.float64;
  MemoryPercent : Go.Result Go.float32;
  MemoryInfo : Go.Result MemoryInfoStat;
  Status : Go.Result (list string);
  CreateTime : Go.Result Z;
  NumThreads : Go.Result Z;
  Cmdline : Go.Result string
}.

End process.

Module Processes.
Import Go.

(** [ProcessInfo] holds information about a single process. *)
Record ProcessInfo : Type := {
  PID : Z;
  Name : string;
  Username : string;
  CPUPercent : float64;
  MemPercent : float32;
  MemoryMB : Z;
  Status : string;
  CreateTime : Z;
  NumThreads : Z;
  CommandLine : string
}.

(** [ProcessStats] holds process statistics and summaries. *)
Record ProcessStats : Type := {
  TotalProcesses : Z;
  RunningProcs : Z;
  SleepingProcs : Z;
  TopCPU : list ProcessInfo;
  TopMemory : list ProcessInfo;
  AllProcesses : list ProcessInfo;
  Timestamp : Time
}.

(** The value a read leaves in its field: the answer, or the zero value
    when the read failed. *)
Definition or_zero {A : Type} (zero : A) (r : Result A) : A :=
  match r with Ok a => a | Err _ => zero end.

(** [getProcessInfo] extracts information from a process. *)
Definition getProcessInfo (proc : process.Process) : Result ProcessInfo :=
  let name := or_zero ""%string (process.Name proc) in
  let username := or_zero "unknown"%string (process.Username proc) in
  let cpuPercent := or_zero f0 (process.CPUPercent proc) in
  let memPercent := or_zero f0 (process.MemoryPercent proc) in
  let memoryMB :=
    match process.MemoryInfo proc with
    | Ok memInfo => process.RSS memInfo / 1024 / 1024
    | Err _ => 0
    end in
  let status :=
    match process.Status proc with
    | Ok status => String.concat "," status
    | Err _ => ""%string
    end in
  let createTime := or_zero 0 (process.CreateTime proc) in
  let numThreads := or_zero 0 (process.NumThreads proc) in
  let commandLine :=
    match process.Cmdline proc with
    | Ok cmdline =>
        if (0 <? String.length cmdline)%nat then
          if (100 <? String.length cmdline)%nat
          then (String.substring 0 100 cmdline +:+ "...")%string
          else cmdline
        else name
    | Err _ => name
    end in
  Ok {| PID := process.Pid proc; Name := name; Username := username;
        CPUPercent := cpuPercent; MemPercent := memPercent;
        MemoryMB := memoryMB; Status := status; CreateTime := createTime;
        NumThreads := numThreads; CommandLine := commandLine |}.

(** The two comparisons handed to [sort.Slice]. *)
Definition byCPU (a b : ProcessInfo) : bool := fgt (CPUPercent a) (CPUPercent b).
Definition byMemory (a b : ProcessInfo) : bool := fgt (MemPercent a) (MemPercent b).

(** [getTopProcesses] returns the top N processes sorted by CPU or Memory
    usage.  It works on a copy; any other [sortBy] leaves the order alone. *)
Definition getTopProcesses (S : SliceSorter) (processes : list ProcessInfo)
    (sortBy : string) (limit : Z) : option (list ProcessInfo) :=
  let sorted :=
    if String.eqb sortBy "cpu" then sortSlice S byCPU processes
    else if String.eqb sortBy "memory" then sortSlice S byMemory processes
    else processes in
  if Z.of_nat (length sorted) <? limit then Some sorted
  else slice_to sorted limit.

(** One round of the collection loop of [GetProcessStats]: a process that
    cannot be opened or read is skipped. *)
Definition collect (newProcess : Z → Result process.Process)
    (acc : list ProcessInfo * Z * Z) (pid : Z) : list ProcessInfo * Z * Z :=
  let '(processes, runningCount, sleepingCount) := acc in
  match newProcess pid with
  | Err _ => acc
  | Ok proc =>
      match getProcessInfo proc with
      | Err _ => acc
      | Ok procInfo =>
          let st := Status procInfo in
          if String.eqb st "R" || String.eqb st "running"
          then (processes ++ [procInfo], runningCount + 1, sleepingCount)
          else if String.eqb st "S" || String.eqb st "sleeping"
          then (processes ++ [procInfo], runningCount, sleepingCount + 1)
          else (processes ++ [procInfo], runningCount, sleepingCount)
      end
  end.

(** [GetProcessStats] collects information about all running processes.
    [now] is [time.Now()], [pids] what [process.Pids()] answers and
    [newProcess] what [process.NewProcess] answers for a pid.  The outer
    [option] is that of the two slicings. *)
Definition GetProcessStats (S : SliceSorter) (now : Time)
    (pids : Result (list Z)) (newProcess : Z → Result process.Process)
  : option (Result ProcessStats) :=
  match pids with
  | Err msg => Some (Err msg)
  | Ok pids =>
      let '(processes, runningCount, sleepingCount) :=
        foldl (collect newProcess) ([], 0, 0) pids in
      topCPU ← getTopProcesses S processes "cpu" 10;
      topMemory ← getTopProcesses S processes "memory" 10;
      Some (Ok {| TotalProcesses := Z.of_nat (length processes);
                  RunningProcs := runningCount;
                  SleepingProcs := sleepingCount;
                  TopCPU := topCPU; TopMemory := topMemory;
                  AllProcesses := processes; Timestamp := now |})
  end.

End Processes.

(* ===================================================================== *)
(** * [internal/stats.go]                                                *)
(* ===================================================================== *)

(** What gopsutil's [cpu], [mem], [disk] and [host] packages answer (the
    fields the program reads). *)
Module cpu.
Record InfoStat : Type := { ModelName : string }.
End cpu.

Module mem.
Record VirtualMemoryStat : Type := {
  Total : Z;
  Available : Z;
  Used : Z;
  UsedPercent : Go.float64;
  Free : Z;
  Buffers : Z;
  Cached : Z
}.
End mem.

Module disk.
Record PartitionStat : Type := {
  Device : string;
  Mountpoint : string;
  Fstype : string
}.
Record UsageStat : Type := {
  Total : Z;
  Used : Z;
  Free : Z;
  UsedPercent : Go.float64
}.
End disk.

Module host.
Record InfoStat : Type := {
  Hostname : string;
  OS : string;
  Platform : string;
  KernelVersion : string;
  Uptime : Z
}.
End host.

Module Stats.
Import Go.

Record CPUInfo : Type := {
  Usage : float64;
  Cores : Z;
  ModelName : string
}.

Record MemoryInfo : Type := {
  Total : Z;
  Available : Z;
  Used : Z;
  UsedPercent : float64;
  Free : Z;
  Buffers : Z;
  Cached : Z
}.

(** [DiskTotal], [DiskUsed], [DiskFree] and [DiskUsedPercent] are the
    fields [Total], [Used], [Free] and [UsedPercent] of the Go struct. *)
Record DiskInfo : Type := {
  Device : string;
  Mountpoint : string;
  Fstype : string;
  DiskTotal : Z;
  DiskUsed : Z;
  DiskFree : Z;
  DiskUsedPercent : float64
}.

Record HostInfo : Type := {
  Hostname : string;
  OS : string;
  Platform : string;
  KernelVersion : string;
  Uptime : Z
}.

(** [SystemStats] holds all system information. *)
Record SystemStats : Type := {
  CPU : CPUInfo;
  Memory : MemoryInfo;
  Disk : list DiskInfo;
  Host : HostInfo;
  Timestamp : Time
}.

(** What one call of [GetSystemStats] reads from outside: [time.Now()],
    the answers of [cpu.Percent(time.Second, false)], [cpu.Counts(true)],
    [cpu.Info()], [mem.VirtualMemory()] and [disk.Partitions(false)], the
    answer of [disk.Usage] for the i-th partition and its mount point, and
    the answer of [host.Info()]. *)
Record SysEnv : Type := {
  sys_Now : Time;
  sys_Percent : Result (list float64);
  sys_Counts : Result Z;
  sys_Info : Result (list cpu.InfoStat);
  sys_VirtualMemory : Result mem.VirtualMemoryStat;
  sys_Partitions : Result (list disk.PartitionStat);
  sys_Usage : nat → string → Result disk.UsageStat;
  sys_HostInfo : Result host.InfoStat
}.

(** [getCPUInfo]: the usage is the first percentage and the model that of
    the first processor, where there is one.  (On an error the Go function
    also hands back the struct as far as it got; its caller drops it.) *)
Definition getCPUInfo (env : SysEnv) : Result CPUInfo :=
  match sys_Percent env with
  | Err err => Err err
  | Ok percentages =>
      let usage := match percentages with p :: _ => p | [] => f0 end in
      match sys_Counts env with
      | Err err => Err err
      | Ok cores =>
          match sys_Info env with
          | Err err => Err err
          | Ok cpuInfos =>
              let modelName :=
                match cpuInfos with
                | info :: _ => cpu.ModelName info
                | [] => ""%string
                end in
              Ok {| Usage := usage; Cores := cores; ModelName := modelName |}
          end
      end
  end.

Definition getMemoryInfo (env : SysEnv) : Result MemoryInfo :=
  match sys_VirtualMemory env with
  | Err err => Err err
  | Ok vmem =>
      Ok {| Total := mem.Total vmem;
            Available := mem.Available vmem;
            Used := mem.Used vmem;
            UsedPercent := mem.UsedPercent vmem;
            Free := mem.Free vmem;
            Buffers := mem.Buffers vmem;
            Cached := mem.Cached vmem |}
  end.

(** The [DiskInfo] of a partition with its usage. *)
Definition mkDiskInfo (partition : disk.PartitionStat) (usage : disk.UsageStat)
  : DiskInfo :=
  {| Device := disk.Device partition;
     Mountpoint := disk.Mountpoint partition;
     Fstype := disk.Fstype partition;
     DiskTotal := disk.Total usage;
     DiskUsed := disk.Used usage;
     DiskFree := disk.Free usage;
     DiskUsedPercent := disk.UsedPercent usage |}.

(** One round of the loop of [getDiskInfo], for the i-th partition: a
    partition whose usage cannot be read is skipped. *)
Definition diskStep (usage : nat → string → Result disk.UsageStat)
    (diskInfos : list DiskInfo) (p : nat * disk.PartitionStat) : list DiskInfo :=
  match usage p.1 (disk.Mountpoint p.2) with
  | Err _ => diskInfos
  | Ok u => diskInfos ++ [mkDiskInfo p.2 u]
  end.

Definition getDiskInfo (env : SysEnv) : Result (list DiskInfo) :=
  match sys_Partitions env with
  | Err err => Err err
  | Ok partitions =>
      Ok (foldl (diskStep (sys_Usage env)) [] (imap pair partitions))
  end.

Definition getHostInfo (env : SysEnv) : Result HostInfo :=
  match sys_HostInfo env with
  | Err err => Err err
  | Ok hostStat =>
      Ok {| Hostname := host.Hostname hostStat;
            OS := host.OS hostStat;
            Platform := host.Platform hostStat;
            KernelVersion := host.KernelVersion hostStat;
            Uptime := host.Uptime hostStat |}
  end.

(** [GetSystemStats] collects all system statistics; the first part that
    fails ends the call, its error wrapped in a message that names the
    part. *)
Definition GetSystemStats (env : SysEnv) : Result SystemStats :=
  match getCPUInfo env with
  | Err err => Err ("failed to get CPU info: " +:+ err)
  | Ok cpuInfo =>
      match getMemoryInfo env with
      | Err err => Err ("failed to get memory info: " +:+ err)
      | Ok memInfo =>
          match getDiskInfo env with
          | Err err => Err ("failed to get disk info: " +:+ err)
          | Ok diskInfo =>
              match getHostInfo env with
              | Err err => Err ("failed to get host info: " +:+ err)
              | Ok hostInfo =>
                  Ok {| CPU := cpuInfo; Memory := memInfo; Disk := diskInfo;
                        Host := hostInfo; Timestamp := sys_Now env |}
              end
          end
      end
  end.

(** ** Helper functions for formatting *)

(** The loop of [FormatBytes]: [n] is divided by [unit] until it is below
    it, [div] and [exp] keep count.  [n] loses ten bits a round, so the
    rounds allowed for are more than a [uint64] can make. *)
Fixpoint scale (rounds : nat) (n div exp : Z) : option (Z * Z) :=
  let unit := 1024 in
  if n <? unit then Some (div, exp)
  else match rounds with
       | O => None
       | S rounds => scale rounds (n / unit) (int64 (div * unit)) (exp + 1)
       end.

(** [FormatBytes]; [None] is the panic of an index out of range. *)
Definition FormatBytes (bytes : Z) : option fmt.Formatted :=
  let unit := 1024 in
  if bytes <? unit then Some (fmt.Sprintf "%d B" [fmt.Int bytes])
  else
    '(div, exp) ← scale 64 (bytes / unit) unit 0;
    c ← index "KMGTPE" exp;
    Some (fmt.Sprintf "%.1f %cB"
            [fmt.Float (fdiv (float64_of_Z bytes) (float64_of_Z div)); fmt.Char c]).

(** [FormatUptime]: the days, hours and minutes of an uptime in seconds.
    [None] stands for a conversion to [int] that the language leaves to
    the implementation. *)
Definition FormatUptime (seconds : Z) : option fmt.Formatted :=
  let duration := int64 (int64 seconds * Second) in
  h ← int_of_float64 (Hours duration);
  m ← int_of_float64 (Minutes duration);
  let days := quot h 24 in
  let hours := rem h 24 in
  let minutes := rem m 60 in
  Some (if 0 <? days
        then fmt.Sprintf "%dd %dh %dm" [fmt.Int days; fmt.Int hours; fmt.Int minutes]
        else if 0 <? hours
             then fmt.Sprintf "%dh %dm" [fmt.Int hours; fmt.Int minutes]
             else fmt.Sprintf "%dm" [fmt.Int minutes]).

End Stats.

(* ===================================================================== *)
(** * [internal/network.go]                                              *)
(* ===================================================================== *)

(** What gopsutil's [net] package answers. *)
Module net.

Record IOCountersStat : Type := {
  Name : string;
  BytesSent : Z;
  BytesRecv : Z;
  PacketsSent : Z;
  PacketsRecv : Z;
  Errin : Z;
  Errout : Z;
  Dropin : Z;
  Dropout : Z
}.

Record ConnectionStat : Type := { Status : string }.

End net.

Module Network.
Import Go.

(** [NetworkInterface] holds information about a network interface; the
    counters are [uint64]. *)
Record NetworkInterface : Type := {
  Name : string;
  BytesSent : Z;
  BytesRecv : Z;
  PacketsSent : Z;
  PacketsRecv : Z;
  Errin : Z;
  Errout : Z;
  Dropin : Z;
  Dropout : Z;
  Speed : Z;
  IsUp : bool;
  HasTraffic : bool;
  LastUpdate : Time
}.

(** [NetworkStats] holds all network statistics. *)
Record NetworkStats : Type := {
  Interfaces : list NetworkInterface;
  TotalSent : Z;
  TotalRecv : Z;
  ActiveIfaces : Z;
  Connections : Z;
  Timestamp : Time
}.

(** [NetworkSpeed] holds speed calculations ([SpeedTimestamp] is the
    field [Timestamp] of the Go struct). *)
Record NetworkSpeed : Type := {
  Interface : string;
  UploadKBps : float64;
  DownloadKBps : float64;
  SpeedTimestamp : Time
}.

(** The package-level variables that track the previous readings.
    [previousNetStats] is [None] while the map is [nil]. *)
Record NetState : Type := {
  previousNetStats : option (gmap string NetworkInterface);
  lastNetworkRead : Time
}.

Definition initialNetState : NetState :=
  {| previousNetStats := None; lastNetworkRead := 0 |}.

(** What one call of [GetNetworkStats] reads from outside: [time.Now()]
    on entry, the answer of [net.IOCounters(true)], [time.Now()] while the
    i-th interface is built, and the answer of [net.Connections("all")]. *)
Record NetEnv : Type := {
  env_Now : Time;
  env_IOCounters : Result (list net.IOCountersStat);
  env_LastUpdate : nat → Time;
  env_Connections : Result (list net.ConnectionStat)
}.

(** [isLoopbackInterface] checks if an interface is a loopback interface. *)
Definition loopbackNames : list string := ["lo"; "lo0"; "Loopback"]%string.

Definition isLoopbackInterface (name : string) : bool :=
  existsb (λ loName, String.eqb name loName) loopbackNames.

(** [getConnectionCount] returns the number of established connections. *)
Definition getConnectionCount (connections : Result (list net.ConnectionStat))
  : Result Z :=
  match connections with
  | Err msg => Err msg
  | Ok connections =>
      Ok (foldl (λ established conn,
                   if String.eqb (net.Status conn) "ESTABLISHED"
                   then established + 1 else established)
                0 connections)
  end.

(** The [NetworkInterface] built from one counter. *)
Definition mkInterface (counter : net.IOCountersStat) (now : Time)
  : NetworkInterface :=
  let hasTraffic := (0 <? net.BytesSent counter) || (0 <? net.BytesRecv counter) in
  {| Name := net.Name counter;
     BytesSent := net.BytesSent counter;
     BytesRecv := net.BytesRecv counter;
     PacketsSent := net.PacketsSent counter;
     PacketsRecv := net.PacketsRecv counter;
     Errin := net.Errin counter;
     Errout := net.Errout counter;
     Dropin := net.Dropin counter;
     Dropout := net.Dropout counter;
     Speed := 0;
     IsUp := hasTraffic;
     HasTraffic := hasTraffic;
     LastUpdate := now |}.

(** The running values of the loop over the counters. *)
Record Tally : Type := {
  interfaces : list NetworkInterface;
  totalSent : Z;
  totalRecv : Z;
  activeCount : Z
}.

(** One round of the loop: loopback and inactive interfaces are skipped
    for the totals, every interface is appended. *)
Definition tally (stamp : nat → Time) (acc : Tally) (counter : net.IOCountersStat)
  : Tally :=
  let iface := mkInterface counter (stamp (length (interfaces acc))) in
  let counted := negb (isLoopbackInterface (net.Name counter)) && HasTraffic iface in
  {| interfaces := interfaces acc ++ [iface];
     totalSent := if counted then uint64 (totalSent acc + net.BytesSent counter)
                  else totalSent acc;
     totalRecv := if counted then uint64 (totalRecv acc + net.BytesRecv counter)
                  else totalRecv acc;
     activeCount := if counted then activeCount acc + 1 else activeCount acc |}.

(** Most traffic first: the comparison of the two interface sorts. *)
Definition byTraffic (a b : NetworkInterface) : bool :=
  uint64 (BytesSent b + BytesRecv b) <? uint64 (BytesSent a + BytesRecv a).

(** [GetNetworkStats] collects network interface statistics. *)
Definition GetNetworkStats (S : SliceSorter) (env : NetEnv) : Result NetworkStats :=
  match env_IOCounters env with
  | Err msg => Err ("failed to get network IO counters: " +:+ msg)
  | Ok ioCounters =>
      let t := foldl (tally (env_LastUpdate env))
                     {| interfaces := []; totalSent := 0; totalRecv := 0;
                        activeCount := 0 |} ioCounters in
      Ok {| Interfaces := sortSlice S byTraffic (interfaces t);
            TotalSent := totalSent t;
            TotalRecv := totalRecv t;
            ActiveIfaces := activeCount t;
            Connections :=
              match getConnectionCount (env_Connections env) with
              | Ok connections => connections
              | Err _ => 0
              end;
            Timestamp := env_Now env |}
  end.

(** The speed of one interface against its previous reading.  The byte
    differences are [uint64] subtractions, converted afterwards. *)
Definition speedOf (previous current : NetworkInterface) (timeDiff : float64)
    (now : Time) : NetworkSpeed :=
  let sentDiff := float64_of_Z (uint64 (BytesSent current - BytesSent previous)) in
  let recvDiff := float64_of_Z (uint64 (BytesRecv current - BytesRecv previous)) in
  {| Interface := Name current;
     UploadKBps := fdiv (fdiv sentDiff timeDiff) f1024;
     DownloadKBps := fdiv (fdiv recvDiff timeDiff) f1024;
     SpeedTimestamp := now |}.

(** Only interfaces with significant traffic are included. *)
Definition significant (speed : NetworkSpeed) : bool :=
  fgt (UploadKBps speed) f0_1 || fgt (DownloadKBps speed) f0_1.

(** One round of the speed loop. *)
Definition speedStep (previousNetStats : gmap string NetworkInterface)
    (timeDiff : float64) (now : Time)
    (speeds : list NetworkSpeed) (current : NetworkInterface) : list NetworkSpeed :=
  match previousNetStats !! Name current with
  | Some previous =>
      let speed := speedOf previous current timeDiff now in
      if significant speed then speeds ++ [speed] else speeds
  | None => speeds
  end.

(** [previousNetStats[iface.Name] = iface] for every interface in turn. *)
Definition storeAll (current : list NetworkInterface)
    (previousNetStats : gmap string NetworkInterface)
  : gmap string NetworkInterface :=
  foldl (λ m iface, <[Name iface := iface]> m) previousNetStats current.

(** Highest total speed first. *)
Definition bySpeed (a b : NetworkSpeed) : bool :=
  fgt (fadd (UploadKBps a) (DownloadKBps a)) (fadd (UploadKBps b) (DownloadKBps b)).

(** [GetNetworkSpeeds] calculates current network speeds.  [now] is the
    [time.Now()] read after the statistics; the result comes with the
    package state the call leaves behind. *)
Definition GetNetworkSpeeds (S : SliceSorter) (env : NetEnv) (now : Time)
    (st : NetState) : Result (list NetworkSpeed) * NetState :=
  match GetNetworkStats S env with
  | Err msg => (Err msg, st)
  | Ok currentStats =>
      match previousNetStats st with
      | None =>
          (Ok [],
           {| previousNetStats := Some (storeAll (Interfaces currentStats) ∅);
              lastNetworkRead := now |})
      | Some previous =>
          let timeDiff := Seconds (Sub now (lastNetworkRead st)) in
          if fle timeDiff f0 then (Ok [], st)
          else
            let speeds :=
              foldl (speedStep previous timeDiff now) [] (Interfaces currentStats) in
            (Ok (sortSlice S bySpeed speeds),
             {| previousNetStats := Some (storeAll (Interfaces currentStats) previous);
                lastNetworkRead := now |})
      end
  end.

(** [GetTopNetworkInterfaces] returns the most active network interfaces:
    loopback and inactive interfaces are filtered out first. *)
Definition GetTopNetworkInterfaces (S : SliceSorter)
    (interfaces : list NetworkInterface) (limit : Z)
  : option (list NetworkInterface) :=
  let active :=
    foldl (λ active iface,
             if negb (isLoopbackInterface (Name iface)) && HasTraffic iface
             then active ++ [iface] else active)
          [] interfaces in
  let active := sortSlice S byTraffic active in
  if Z.of_nat (length active) <? limit then Some active
  else slice_to active limit.


(** [FormatNetworkBytes] formats network byte counts for display: it is
    [FormatBytes]. *)
Definition FormatNetworkBytes (bytes : Z) : option fmt.Formatted :=
  Stats.FormatBytes bytes.

End Network.

(* ===================================================================== *)
(** * [main.go]                                                          *)
(* ===================================================================== *)

Module Main.
Import Go.

(** [ViewType] represents different monitoring views. *)
Inductive ViewType : Type :=
  | ViewOverview
  | ViewProcesses
  | ViewNetwork
  | ViewDisks
  | ViewSystem.

(** An open log file, known by its path. *)
Definition File : Type := string.

(** Application state. *)
Record App : Type := {
  currentView : ViewType;
  refreshRate : Duration;
  paused : bool;
  logToFile : bool;
  logFile : option File;
  showHelp : bool;
  compactMode : bool;
  colorEnabled : bool;
  exitRequested : bool
}.

Definition with_currentView (v : ViewType) (app : App) : App :=
  {| currentView := v; refreshRate := refreshRate app; paused := paused app;
     logToFile := logToFile app; logFile := logFile app;
     showHelp := showHelp app; compactMode := compactMode app;
     colorEnabled := colorEnabled app; exitRequested := exitRequested app |}.

Definition with_refreshRate (d : Duration) (app : App) : App :=
  {| currentView := currentView app; refreshRate := d; paused := paused app;
     logToFile := logToFile app; logFile := logFile app;
     showHelp := showHelp app; compactMode := compactMode app;
     colorEnabled := colorEnabled app; exitRequested := exitRequested app |}.

Definition with_paused (b : bool) (app : App) : App :=
  {| currentView := currentView app; refreshRate := refreshRate app; paused := b;
     logToFile := logToFile app; logFile := logFile app;
     showHelp := showHelp app; compactMode := compactMode app;
     colorEnabled := colorEnabled app; exitRequested := exitRequested app |}.

Definition with_logging (on : bool) (f : option File) (app : App) : App :=
  {| currentView := currentView app; refreshRate := refreshRate app;
     paused := paused app; logToFile := on; logFile := f;
     showHelp := showHelp app; compactMode := compactMode app;
     colorEnabled := colorEnabled app; exitRequested := exitRequested app |}.

Definition with_showHelp (b : bool) (app : App) : App :=
  {| currentView := currentView app; refreshRate := refreshRate app;
     paused := paused app; logToFile := logToFile app; logFile := logFile app;
     showHelp := b; compactMode := compactMode app;
     colorEnabled := colorEnabled app; exitRequested := exitRequested app |}.

Definition with_compactMode (b : bool) (app : App) : App :=
  {| currentView := currentView app; refreshRate := refreshRate app;
     paused := paused app; logToFile := logToFile app; logFile := logFile app;
     showHelp := showHelp app; compactMode := b;
     colorEnabled := colorEnabled app; exitRequested := exitRequested app |}.

(** What the program does to the outside, in the order it does it.  The
    rendering itself is not modelled: a redraw is recorded with the state
    it draws. *)
Inductive Effect : Type :=
  | ClearScreen
  | Display (app : App)
  | Export (app : App)
  | CloseFile (f : File)
  | LogOpenError
  | Goodbye.

(** A [time.Ticker] of the Go runtime: its period, and whether [Stop] has
    been called on it. *)
Record Ticker : Type := { period : Duration; stopped : bool }.

(** The part of the Go runtime the program touches: the tickers created
    so far (a ticker is known by its index) and the effects so far. *)
Record Runtime : Type := { tickers : list Ticker; effects : list Effect }.

Definition emit (e : Effect) (rt : Runtime) : Runtime :=
  {| tickers := tickers rt; effects := effects rt ++ [e] |}.

(** [time.NewTicker(d)] panics ([None]) for a non-positive [d]. *)
Definition NewTicker (d : Duration) (rt : Runtime) : option (nat * Runtime) :=
  if d <=? 0 then None
  else Some (length (tickers rt),
             {| tickers := tickers rt ++ [{| period := d; stopped := false |}];
                effects := effects rt |}).

(** [ticker.Stop()]. *)
Definition Stop (ticker : nat) (rt : Runtime) : Runtime :=
  {| tickers := alter (λ t, {| period := period t; stopped := true |}) ticker
                      (tickers rt);
     effects := effects rt |}.

(** A rune, by its code point. *)
Definition rune : Type := Z.

Definition rune_of (c : ascii) : rune := Z.of_N (Ascii.N_of_ascii c).

(** [case c1, c2, ...:] of a switch on a rune. *)
Definition is_key (key : rune) (cs : list ascii) : bool :=
  existsb (λ c, key =? rune_of c) cs.

Definition clearScreen (rt : Runtime) : Runtime := emit ClearScreen rt.

Definition displayInterface (app : App) (rt : Runtime) : Runtime :=
  emit (Display app) (clearScreen rt).

Definition exportStats (app : App) (rt : Runtime) : Runtime :=
  emit (Export app) rt.

(** [toggleLogging]; [file] is what [os.OpenFile] answers if it is asked
    to create the log file. *)
Definition toggleLogging (file : Result File) (app : App) (rt : Runtime)
  : App * Runtime :=
  if logToFile app then
    let rt := match logFile app with
              | Some f => emit (CloseFile f) rt
              | None => rt
              end in
    let app := with_logging false None app in
    (app, displayInterface app rt)
  else
    match file with
    | Err _ => (app, emit LogOpenError rt)
    | Ok f =>
        let app := with_logging true (Some f) app in
        (app, displayInterface app rt)
    end.

(** [handleKeyPress] returns whether to exit, with the state it leaves.
    In the two rate cases the new ticker is a variable of the branch; it
    is stopped by the deferred call when the function returns. *)
Definition handleKeyPress (file : Result File) (app : App) (key : rune)
    (rt : Runtime) : option (bool * App * Runtime) :=
  if is_key key ["q"; "Q"]%char then Some (true, app, rt)
  else if is_key key ["h"; "H"; "?"]%char then
    let app := with_showHelp (negb (showHelp app)) app in
    Some (false, app, displayInterface app rt)
  else if is_key key ["1"]%char then
    let app := with_currentView ViewOverview app in
    Some (false, app, displayInterface app rt)
  else if is_key key ["2"]%char then
    let app := with_currentView ViewProcesses app in
    Some (false, app, displayInterface app rt)
  else if is_key key ["3"]%char then
    let app := with_currentView ViewNetwork app in
    Some (false, app, displayInterface app rt)
  else if is_key key ["4"]%char then
    let app := with_currentView ViewDisks app in
    Some (false, app, displayInterface app rt)
  else if is_key key ["5"]%char then
    let app := with_currentView ViewSystem app in
    Some (false, app, displayInterface app rt)
  else if is_key key ["p"; "P"]%char then
    let app := with_paused (negb (paused app)) app in
    Some (false, app, displayInterface app rt)
  else if is_key key ["c"; "C"]%char then
    let app := with_compactMode (negb (compactMode app)) app in
    Some (false, app, displayInterface app rt)
  else if is_key key ["l"; "L"]%char then
    let '(app, rt) := toggleLogging file app rt in
    Some (false, app, rt)
  else if is_key key ["e"; "E"]%char then
    Some (false, app, exportStats app rt)
  else if is_key key ["r"; "R"]%char then
    Some (false, app, displayInterface app rt)
  else if is_key key ["+"]%char then
    if Second <? refreshRate app then
      let app := with_refreshRate (int64 (refreshRate app - Second)) app in
      '(ticker, rt) ← NewTicker (refreshRate app) rt;
      Some (false, app, Stop ticker rt)
    else Some (false, app, rt)
  else if is_key key ["-"]%char then
    if refreshRate app <? int64 (10 * Second) then
      let app := with_refreshRate (int64 (refreshRate app + Second)) app in
      '(ticker, rt) ← NewTicker (refreshRate app) rt;
      Some (false, app, Stop ticker rt)
    else Some (false, app, rt)
  else Some (false, app, rt).

(** [cleanup]. *)
Definition cleanup (app : App) (rt : Runtime) : Runtime :=
  let rt := match logFile app with
            | Some f => emit (CloseFile f) rt
            | None => rt
            end in
  emit Goodbye (clearScreen rt).

(** [truncateString] cuts [s] to [maxLen] bytes, the last three of them
    dots.  [None] is the panic of a slice bound out of range. *)
Definition truncateString (s : string) (maxLen : Z) : option string :=
  if Z.of_nat (String.length s) <=? maxLen then Some s
  else prefix ← string_to s (maxLen - 3); Some (prefix +:+ "...")%string.

(** The state of [main] inside its loop: the application state, the
    runtime, the ticker of the variable [ticker] of [main] (the one whose
    channel the [select] reads), and whether [main] is still running. *)
Record Loop : Type := {
  app : App;
  rt : Runtime;
  ticker : nat;
  running : bool
}.

Definition initialApp : App :=
  {| currentView := ViewOverview; refreshRate := int64 (3 * Second);
     paused := false; logToFile := false; logFile := None; showHelp := false;
     compactMode := false; colorEnabled := true; exitRequested := false |}.

(** [main] up to the loop: the initial display and the ticker. *)
Definition start : option Loop :=
  let app := initialApp in
  let rt := displayInterface app
              (clearScreen {| tickers := []; effects := [] |}) in
  '(ticker, rt) ← NewTicker (refreshRate app) rt;
  Some {| app := app; rt := rt; ticker := ticker; running := true |}.

(** What the [select] receives: a shutdown signal, a key (with the answer
    [os.OpenFile] would give), or a tick of [main]'s ticker. *)
Inductive Event : Type :=
  | Signal
  | Key (key : rune) (file : Result File)
  | Tick.

(** [main] returns: the deferred [ticker.Stop()] runs. *)
Definition leave (l : Loop) (rt : Runtime) : Loop :=
  {| app := app l; rt := Stop (ticker l) rt; ticker := ticker l;
     running := false |}.

(** One round of the loop. *)
Definition step (l : Loop) (e : Event) : option Loop :=
  if running l then
    match e with
    | Signal => Some (leave l (cleanup (app l) (rt l)))
    | Key key file =>
        '(quit, app', rt') ← handleKeyPress file (app l) key (rt l);
        if quit : bool then
          Some (leave {| app := app'; rt := rt'; ticker := ticker l;
                         running := true |} (cleanup app' rt'))
        else Some {| app := app'; rt := rt'; ticker := ticker l; running := true |}
    | Tick =>
        if negb (paused (app l)) && negb (showHelp (app l))
        then Some {| app := app l; rt := displayInterface (app l) (rt l);
                     ticker := ticker l; running := true |}
        else Some l
    end
  else Some l.

(** The program on a sequence of events. *)
Definition run (events : list Event) : option Loop :=
  l ← start; foldl (λ ol e, l ← ol; step l e) (Some l) events.

(** The period with which [Tick] events arrive: that of [main]'s ticker. *)
Definition tickPeriod (l : Loop) : option Duration :=
  period <$> tickers (rt l) !! ticker l.

End Main.

(* ===================================================================== *)
(** * Facts about the Go side                                            *)
(* ===================================================================== *)

Module GoFacts.
Import Go.

(** ** Comparison of floats *)

Ltac float_cases x := destruct x as [[]|[]| |[] ? ?].

Ltac cmp_cases :=
  repeat match goal with
         | H : context [Z.compare ?a ?b] |- _ =>
             destruct (Z.compare_spec a b); simpl in H
         | |- context [Z.compare ?a ?b] =>
             destruct (Z.compare_spec a b); simpl
         | H : context [Pos.compare_cont Eq ?a ?b] |- _ =>
             change (Pos.compare_cont Eq a b) with (Pos.compare a b) in H;
             destruct (Pos.compare_spec a b); simpl in H
         | |- context [Pos.compare_cont Eq ?a ?b] =>
             change (Pos.compare_cont Eq a b) with (Pos.compare a b);
             destruct (Pos.compare_spec a b); simpl
         end.

Lemma fgt_irrefl x : fgt x x = false.
Proof.
  unfold fgt, SFltb.
  float_cases x; simpl; try reflexivity; cmp_cases; try reflexivity; lia.
Qed.

Lemma fgt_trans x y z : fgt x y = true → fgt y z = true → fgt x z = true.
Proof.
  unfold fgt, SFltb.
  float_cases x; float_cases y; simpl; try discriminate;
    float_cases z; simpl; try discriminate; try reflexivity;
    intros; cmp_cases; try discriminate; try reflexivity; lia.
Qed.

Lemma fgt_negtrans x y z :
  is_nan y = false → fgt x y = false → fgt y z = false → fgt x z = false.
Proof.
  unfold fgt, SFltb.
  float_cases x; float_cases y; simpl; try discriminate; try reflexivity;
    float_cases z; simpl; try discriminate; try reflexivity;
    intros; cmp_cases; try discriminate; try reflexivity; lia.
Qed.

(** Between numbers, "not greater" is "less or equal". *)
Lemma not_fgt_fle x y :
  is_nan x = false → is_nan y = false → fgt y x = false → fle y x = true.
Proof.
  unfold fgt, fle, SFltb, SFleb.
  float_cases x; float_cases y; simpl; try discriminate; try reflexivity;
    intros; cmp_cases; try discriminate; try reflexivity; lia.
Qed.

(** A comparison of a float key, greatest first, is a strict weak ordering
    of any elements whose keys are numbers. *)
Lemma fgt_key_StrictWeakOn {A : Type} (key : A → spec_float) (l : list A) :
  Forall (λ a, is_nan (key a) = false) l →
  StrictWeakOn (λ a b, fgt (key a) (key b)) l.
Proof.
  rewrite Forall_forall. intros Hnum. repeat split.
  - intros x _. apply fgt_irrefl.
  - intros x y z _ _ _. apply fgt_trans.
  - intros x y z _ Hy _. apply fgt_negtrans. auto.
Qed.

(** ** The two insertion sorts keep the promise of [sort.Slice] *)

Lemma StrictWeakOn_incl {A : Type} (less : A → A → bool) (l l' : list A) :
  (∀ x, x ∈ l' → x ∈ l) → StrictWeakOn less l → StrictWeakOn less l'.
Proof.
  intros Hin (Hirr & Htr & Hneg). repeat split.
  - intros x Hx. apply Hirr, Hin, Hx.
  - intros x y z Hx Hy Hz. apply Htr; apply Hin; assumption.
  - intros x y z Hx Hy Hz. apply Hneg; apply Hin; assumption.
Qed.

Section InsertionSort.
Context {A : Type} (less before : A → A → bool).

Lemma insert_by_perm x l : insert_by before x l ≡ₚ x :: l.
Proof.
  induction l as [|y l IH]; simpl; [done|].
  destruct (before x y); [done|].
  rewrite IH. apply Permutation_swap.
Qed.

Lemma isort_by_perm l : isort_by before l ≡ₚ l.
Proof.
  induction l as [|x l IH]; simpl; [done|].
  unfold isort_by in *. simpl. rewrite insert_by_perm. by rewrite IH.
Qed.

(** [before] agrees with [less] on [l]: it never puts [x] in front of
    something less than it, nor behind something it is less than. *)
Definition Agrees (l : list A) : Prop :=
  ∀ x y, x ∈ l → y ∈ l →
         (before x y = true → less y x = false) ∧
         (before x y = false → less x y = false).

Lemma Agrees_incl l l' : (∀ x, x ∈ l' → x ∈ l) → Agrees l → Agrees l'.
Proof. intros Hin Hag x y Hx Hy. apply Hag; apply Hin; assumption. Qed.

Lemma insert_by_sorted x l :
  StrictWeakOn less (x :: l) → Agrees (x :: l) →
  SortedBy less l → SortedBy less (insert_by before x l).
Proof.
  unfold SortedBy.
  induction l as [|y l IH]; simpl; intros Hswo Hag Hs.
  - repeat constructor.
  - apply StronglySorted_inv in Hs as [Hs Hy].
    assert (Hx0 : x ∈ x :: y :: l) by left.
    assert (Hy0 : y ∈ x :: y :: l) by (right; left).
    assert (Hl0 : ∀ z, z ∈ l → z ∈ x :: y :: l) by (intros; right; by right).
    destruct Hswo as (Hirr & Htr & Hneg).
    destruct (before x y) eqn:Hb.
    + destruct (Hag x y Hx0 Hy0) as [H1 _].
      constructor; [by constructor|].
      constructor; [by apply H1|].
      rewrite Forall_forall in Hy |- *. intros z Hz.
      apply (Hneg z y x); auto.
    + destruct (Hag x y Hx0 Hy0) as [_ H2].
      assert (Hsub : ∀ z, z ∈ x :: l → z ∈ x :: y :: l).
      { intros z Hz. apply elem_of_cons in Hz as [->|Hz]; auto. }
      constructor.
      * apply IH; [| |done].
        -- apply (StrictWeakOn_incl less (x :: y :: l)); [done|by repeat split].
        -- by apply (Agrees_incl (x :: y :: l)).
      * rewrite Forall_forall in Hy |- *. intros z Hz.
        rewrite insert_by_perm in Hz.
        apply elem_of_cons in Hz as [->|Hz]; [by apply H2|by apply Hy].
Qed.

Lemma isort_by_sorted l :
  StrictWeakOn less l → Agrees l → SortedBy less (isort_by before l).
Proof.
  induction l as [|x l IH]; intros Hswo Hag.
  - constructor.
  - unfold isort_by. simpl. fold (isort_by before l).
    assert (Htl : ∀ z, z ∈ l → z ∈ x :: l) by (intros; by right).
    assert (Hsrt : ∀ z, z ∈ x :: isort_by before l → z ∈ x :: l).
    { intros z Hz. by rewrite isort_by_perm in Hz. }
    apply insert_by_sorted.
    + by apply (StrictWeakOn_incl less (x :: l)).
    + by apply (Agrees_incl (x :: l)).
    + apply IH.
      * by apply (StrictWeakOn_incl less (x :: l)).
      * by apply (Agrees_incl (x :: l)).
Qed.
End InsertionSort.

Lemma stableSort_sorted {A : Type} (less : A → A → bool) l :
  StrictWeakOn less l → SortedBy less (stableSort less l).
Proof.
  intros Hswo. apply isort_by_sorted; [done|].
  destruct Hswo as (Hirr & Htr & Hneg).
  intros x y Hx Hy. split; intros Hb.
  - by apply negb_true_iff in Hb.
  - apply negb_false_iff in Hb.
    destruct (less x y) eqn:Hxy; [|done].
    rewrite <- (Hirr x Hx). symmetry. by apply (Htr x y x).
Qed.

Lemma passingSort_sorted {A : Type} (less : A → A → bool) l :
  StrictWeakOn less l → SortedBy less (passingSort less l).
Proof.
  intros Hswo. apply isort_by_sorted; [done|].
  destruct Hswo as (Hirr & Htr & Hneg).
  intros x y Hx Hy. split; intros Hb; [|done].
  destruct (less y x) eqn:Hyx; [|done].
  rewrite <- (Hirr x Hx). symmetry. by apply (Htr x y x).
Qed.

(** A sorter that keeps equal elements in order... *)
Definition stableSorter : SliceSorter :=
  {| sortSlice := @stableSort;
     sortSlice_perm := λ A less l, isort_by_perm _ l;
     sortSlice_sorted := @stableSort_sorted |}.

(** ... and one that does not. *)
Definition passingSorter : SliceSorter :=
  {| sortSlice := @passingSort;
     sortSlice_perm := λ A less l, isort_by_perm _ l;
     sortSlice_sorted := @passingSort_sorted |}.

(** ** The library's sort keeps the promise of [sort.Slice] *)

Section pdqsort.
Import sort.
Local Open Scope nat_scope.
Context {A : Type} (less : A → A → bool).
Implicit Types (data : list A) (a b i j k : nat).

(** *** Exchanges *)

Lemma length_Swap data i j : length (Swap data i j) = length data.
Proof.
  unfold Swap. destruct (data !! i), (data !! j); try done.
  by rewrite !length_insert.
Qed.

Lemma lookup_Swap_l data i j x y :
  data !! i = Some x → data !! j = Some y → Swap data i j !! i = Some y.
Proof.
  intros Hi Hj. unfold Swap. rewrite Hi, Hj.
  apply list_lookup_insert_eq. rewrite length_insert.
  by apply lookup_lt_Some in Hi.
Qed.

Lemma lookup_Swap_r data i j x y :
  data !! i = Some x → data !! j = Some y → Swap data i j !! j = Some x.
Proof.
  intros Hi Hj. unfold Swap. rewrite Hi, Hj.
  destruct (decide (i = j)) as [->|Hne].
  - rewrite list_lookup_insert_eq; [congruence|].
    rewrite length_insert. by apply lookup_lt_Some in Hj.
  - rewrite list_lookup_insert_ne by done.
    apply list_lookup_insert_eq. by apply lookup_lt_Some in Hj.
Qed.

Lemma lookup_Swap_ne data i j k :
  k ≠ i → k ≠ j → Swap data i j !! k = data !! k.
Proof.
  intros Hi Hj. unfold Swap. destruct (data !! i), (data !! j); try done.
  by rewrite !list_lookup_insert_ne.
Qed.

(** What an exchange leaves at [k] was in the slice before, at [k] or at
    one of the two places exchanged. *)
Lemma lookup_Swap_inv data i j k x :
  Swap data i j !! k = Some x →
  data !! k = Some x ∨ data !! i = Some x ∨ data !! j = Some x.
Proof.
  intros Hk.
  destruct (data !! i) as [xi|] eqn:Hi;
    [|unfold Swap in Hk; rewrite Hi in Hk; by left].
  destruct (data !! j) as [xj|] eqn:Hj;
    [|unfold Swap in Hk; rewrite Hi, Hj in Hk; by left].
  destruct (decide (k = i)) as [->|Hki].
  - rewrite (lookup_Swap_l _ _ _ _ _ Hi Hj) in Hk. by right; right.
  - destruct (decide (k = j)) as [->|Hkj].
    + rewrite (lookup_Swap_r _ _ _ _ _ Hi Hj) in Hk. by right; left.
    + rewrite lookup_Swap_ne in Hk by done. by left.
Qed.

Lemma insert_perm data j x y :
  data !! j = Some y → y :: <[j := x]> data ≡ₚ x :: data.
Proof.
  revert j. induction data as [|z data IH]; intros [|j] Hj; try done.
  - simpl in Hj. injection Hj as ->. apply Permutation_swap.
  - simpl in *. etrans; [apply Permutation_swap|].
    rewrite (IH j Hj). apply Permutation_swap.
Qed.

Lemma Swap_perm data i j : Swap data i j ≡ₚ data.
Proof.
  unfold Swap.
  destruct (data !! i) as [x|] eqn:Hi; [|done].
  destruct (data !! j) as [y|] eqn:Hj; [|done].
  revert i j Hi Hj.
  induction data as [|z data IH]; intros [|i] [|j] Hi Hj; try done;
    simpl in Hi, Hj.
  - injection Hi as ->. by injection Hj as ->.
  - injection Hi as ->. by apply insert_perm.
  - injection Hj as ->. by apply insert_perm.
  - simpl. f_equiv. by apply IH.
Qed.

(** *** What a step of the sort leaves of a range *)

(** [data'] comes from [data] by moving elements inside [data[a:b]]: the
    rest of the slice is as it was, and whatever holds of every element of
    the range still does. *)
Definition Keeps data data' a b : Prop :=
  length data' = length data ∧
  (∀ k, ¬ (a ≤ k < b) → data' !! k = data !! k) ∧
  (∀ P : A → Prop,
      (∀ k x, a ≤ k < b → data !! k = Some x → P x) →
      ∀ k x, a ≤ k < b → data' !! k = Some x → P x).

Lemma Keeps_refl data a b : Keeps data data a b.
Proof. by repeat split. Qed.

Lemma Keeps_trans data1 data2 data3 a b :
  Keeps data1 data2 a b → Keeps data2 data3 a b → Keeps data1 data3 a b.
Proof.
  intros (Hl1 & Ho1 & Hi1) (Hl2 & Ho2 & Hi2). split; [congruence|]. split.
  - intros k Hk. by rewrite Ho2, Ho1.
  - intros P HP. apply Hi2. by apply Hi1.
Qed.

Lemma Keeps_mono data data' a b a' b' :
  a' ≤ a → b ≤ b' → Keeps data data' a b → Keeps data data' a' b'.
Proof.
  intros Ha Hb (Hl & Ho & Hi). split; [done|]. split.
  - intros k Hk. apply Ho. lia.
  - intros P HP k x Hk Hx.
    destruct (decide (a ≤ k < b)) as [Hin|Hout].
    + apply (Hi P) with k; [|done|done].
      intros k' x' Hk'. apply HP. lia.
    + rewrite Ho in Hx by done. by apply HP with k.
Qed.

Lemma Keeps_Swap data a b i j :
  a ≤ i < b → a ≤ j < b → Keeps data (Swap data i j) a b.
Proof.
  intros Hi Hj. split; [apply length_Swap|]. split.
  - intros k Hk. apply lookup_Swap_ne; lia.
  - intros P HP k x Hk Hx.
    apply lookup_Swap_inv in Hx as [Hx|[Hx|Hx]].
    + by apply HP with k.
    + by apply HP with i.
    + by apply HP with j.
Qed.

(** *** The ordering *)

Context (U : list A) (HU : StrictWeakOn less U).

(** Every element of the slice is one of those being sorted. *)
Definition Within data : Prop := ∀ k x, data !! k = Some x → x ∈ U.

Lemma Keeps_Within data data' a b :
  Keeps data data' a b → Within data → Within data'.
Proof.
  intros (Hl & Ho & Hi) HW k x Hx.
  destruct (decide (a ≤ k < b)) as [Hin|Hout].
  - apply (Hi (λ x, x ∈ U)) with k; [|done|done].
    intros k' x' _. apply HW.
  - rewrite Ho in Hx by done. by apply HW with k.
Qed.

Lemma less_asym x y : x ∈ U → y ∈ U → less x y = true → less y x = false.
Proof.
  destruct HU as (Hirr & Htr & _). intros Hx Hy Hxy.
  destruct (less y x) eqn:Hyx; [|done].
  rewrite <- (Hirr x Hx). symmetry. by apply (Htr x y x).
Qed.

Lemma less_negtrans x y z :
  x ∈ U → y ∈ U → z ∈ U →
  less x y = false → less y z = false → less x z = false.
Proof. destruct HU as (_ & _ & Hneg). apply Hneg. Qed.

Lemma less_trans x y z :
  x ∈ U → y ∈ U → z ∈ U →
  less x y = true → less y z = true → less x z = true.
Proof. destruct HU as (_ & Htr & _). apply Htr. Qed.

(** [data[a:b]] is in the order of [less]. *)
Definition SortedRange data a b : Prop :=
  ∀ i j x y, a ≤ i → i < j → j < b →
             data !! i = Some x → data !! j = Some y → less y x = false.

Lemma SortedRange_SortedBy data :
  SortedRange data 0 (length data) → SortedBy less data.
Proof.
  unfold SortedBy. induction data as [|x data IH]; intros Hs; [constructor|].
  constructor.
  - apply IH. intros i j y z Hi Hij Hj Hy Hz.
    apply (Hs (S i) (S j)); simpl in *; try done; lia.
  - apply Forall_forall. intros y Hy.
    apply list_elem_of_lookup in Hy as [k Hk].
    apply (Hs 0 (S k)); simpl; try done; try lia.
    apply lookup_lt_Some in Hk. lia.
Qed.

Lemma SortedRange_Keeps_out data data' a b c d :
  Keeps data data' c d → (d ≤ a ∨ b ≤ c) →
  SortedRange data a b → SortedRange data' a b.
Proof.
  intros (_ & Ho & _) Hdis Hs i j x y Hi Hij Hj Hx Hy.
  rewrite Ho in Hx by lia. rewrite Ho in Hy by lia.
  by apply (Hs i j).
Qed.

(** *** Insertion *)

(** The element at [j] sinks into the sorted [data[a:j]].  The loop may
    look below [a], down to [lo]; it stops at [a] when what is in front
    of the range is not above anything in it. *)
Lemma insertionSort_sink_spec lo a j data :
  lo ≤ a ≤ j → j < length data → Within data → SortedRange data a j →
  (lo < a → ∀ w k x, data !! (a - 1) = Some w → a ≤ k ≤ j →
                     data !! k = Some x → less x w = false) →
  Keeps data (insertionSort_sink less lo data j) a (j + 1) ∧
  SortedRange (insertionSort_sink less lo data j) a (j + 1).
Proof.
  revert data. induction j as [|j IH]; intros data Hlo Hlen HW Hs Hfloor.
  - simpl. split; [apply Keeps_refl|]. intros i j x y ? ? ?. lia.
  - cbn [insertionSort_sink].
    destruct (lookup_lt_is_Some_2 data (S j) Hlen) as [x Hx].
    destruct (lookup_lt_is_Some_2 data j ltac:(lia)) as [y Hy].
    assert (HLess : Less less data (S j) j = less x y).
    { unfold Less. by rewrite Hx, Hy. }
    rewrite HLess.
    destruct (decide (a = S j)) as [->|Hne].
    { (* nothing of the range is in front of [j] *)
      assert (Hstop : (lo <? S j) && less x y = false).
      { destruct (Nat.ltb_spec lo (S j)) as [Hlt|]; [|done]. simpl.
        apply (Hfloor Hlt y (S j) x); [|lia|done].
        by replace (S j - 1) with j by lia. }
      rewrite Hstop. split; [apply Keeps_refl|].
      intros i k ? ? ? ? ?. lia. }
    assert (Hlo' : (lo <? S j) = true) by (apply Nat.ltb_lt; lia).
    rewrite Hlo'. cbn [andb].
    destruct (less x y) eqn:Hxy.
    + set (data1 := Swap data (S j) j).
      assert (HK1 : Keeps data data1 a (S j + 1)) by (apply Keeps_Swap; lia).
      assert (Hj1 : data1 !! j = Some x) by by apply (lookup_Swap_r data (S j) j x y).
      assert (HSj1 : data1 !! S j = Some y)
        by by apply (lookup_Swap_l data (S j) j x y).
      assert (Hold : ∀ k, k < j → data1 !! k = data !! k).
      { intros k Hk. apply lookup_Swap_ne; lia. }
      destruct (IH data1) as [HK2 Hs2].
      * lia.
      * unfold data1. rewrite length_Swap. lia.
      * by apply (Keeps_Within data _ a (S j + 1)).
      * intros i k u v Hi Hik Hk Hu Hv.
        rewrite Hold in Hu, Hv by lia. apply (Hs i k); try done; lia.
      * intros Hlt w k u Hw Hk Hu.
        rewrite Hold in Hw by lia.
        destruct (decide (k = j)) as [->|Hkj].
        -- assert (u = x) as -> by congruence.
           apply (Hfloor Hlt w (S j)); [done|lia|done].
        -- rewrite Hold in Hu by lia.
           apply (Hfloor Hlt w k); [done|lia|done].
      * split.
        -- apply (Keeps_trans _ data1); [done|].
           apply (Keeps_mono _ _ a (j + 1)); [lia|lia|done].
        -- intros i k u v Hi Hik Hk Hu Hv.
           destruct (decide (k = S j)) as [->|Hkj].
           ++ destruct HK2 as (_ & Ho2 & Hi2).
              rewrite Ho2 in Hv by lia.
              assert (v = y) as -> by congruence.
              apply (Hi2 (λ u, less y u = false)) with i; [|lia|done].
              intros k' u' Hk' Hu'.
              destruct (decide (k' = j)) as [->|Hk'j].
              ** assert (u' = x) as -> by congruence.
                 apply less_asym; [by apply (HW (S j))|by apply (HW j)|done].
              ** rewrite Hold in Hu' by lia.
                 apply (Hs k' j); try done; lia.
           ++ apply (Hs2 i k); try done; lia.
    + split; [apply Keeps_refl|].
      intros i k u v Hi Hik Hk Hu Hv.
      destruct (decide (k = S j)) as [->|Hkj]; [|apply (Hs i k); try done; lia].
      assert (v = x) as -> by congruence.
      destruct (decide (i = j)) as [->|Hij]; [congruence|].
      apply (less_negtrans x y u);
        [by apply (HW (S j))|by apply (HW j)|by apply (HW i)|done|].
      apply (Hs i j); try done; lia.
Qed.

(** [insertionSort_func] sorts [data[a:b]] and touches nothing else. *)
Lemma insertionSort_func_spec data a b :
  b ≤ length data → Within data →
  Keeps data (insertionSort_func less data a b) a b ∧
  SortedRange (insertionSort_func less data a b) a b.
Proof.
  intros Hb HW. unfold insertionSort_func.
  destruct (decide (b ≤ a + 1)) as [Hsmall|Hbig].
  { replace (b - (a + 1)) with 0 by lia. simpl.
    split; [apply Keeps_refl|]. intros i j x y ? ? ?. lia. }
  assert (Hn : ∀ n, a + 1 + n ≤ b →
             Keeps data (foldl (insertionSort_sink less a) data (seq (a + 1) n))
                   a (a + 1 + n) ∧
             SortedRange (foldl (insertionSort_sink less a) data (seq (a + 1) n))
                         a (a + 1 + n)).
  { induction n as [|n IH]; intros Hle.
    - simpl. split; [apply Keeps_refl|]. intros i j x y ? ? ?. lia.
    - rewrite seq_S, foldl_snoc. destruct IH as [HK Hs]; [lia|].
      set (data1 := foldl _ _ _) in *.
      destruct (insertionSort_sink_spec a a (a + 1 + n) data1) as [HK' Hs'].
      + lia.
      + destruct HK as (-> & _). lia.
      + by apply (Keeps_Within data _ a (a + 1 + n)).
      + done.
      + lia.
      + replace (a + 1 + S n) with (a + 1 + n + 1) by lia. split; [|done].
        apply (Keeps_trans _ data1); [|done].
        apply (Keeps_mono _ _ a (a + 1 + n)); [lia|lia|done]. }
  destruct (Hn (b - (a + 1))) as [HK Hs]; [lia|].
  replace (a + 1 + (b - (a + 1))) with b in * by lia. done.
Qed.

Lemma insertionSort_sink_perm a data j : insertionSort_sink less a data j ≡ₚ data.
Proof.
  revert data. induction j as [|j IH]; intros data; [done|].
  cbn [insertionSort_sink].
  destruct ((a <? S j) && Less less data (S j) j); [|done].
  by rewrite IH, Swap_perm.
Qed.

Lemma insertionSort_func_perm data a b : insertionSort_func less data a b ≡ₚ data.
Proof.
  unfold insertionSort_func. generalize (seq (a + 1) (b - (a + 1))).
  intros l. revert data. induction l as [|i l IH]; intros data; [done|].
  simpl. by rewrite IH, insertionSort_sink_perm.
Qed.

(** *** Partition *)

(** Between the scans of [partition_func]: the pivot [p] is at [a], what
    is before [i] is less than [p], what is after [j] is not. *)
Definition Partitioning (p : A) data a b i j : Prop :=
  a + 1 ≤ i ∧ i ≤ j + 1 ∧ j < b ∧ b ≤ length data ∧ data !! a = Some p ∧
  (∀ k x, a < k < i → data !! k = Some x → less x p = true) ∧
  (∀ k x, j < k < b → data !! k = Some x → less x p = false).

Lemma Less_pivot p data a k x :
  data !! a = Some p → data !! k = Some x → Less less data k a = less x p.
Proof. intros Ha Hk. unfold Less. by rewrite Hk, Ha. Qed.

Lemma partition_up_spec n data a i j :
  j + 1 - i ≤ n → i ≤ j + 1 →
  i ≤ partition_up less n data a i j ≤ j + 1 ∧
  (∀ k, i ≤ k < partition_up less n data a i j → Less less data k a = true) ∧
  (partition_up less n data a i j ≤ j →
   Less less data (partition_up less n data a i j) a = false).
Proof.
  revert i. induction n as [|n IH]; intros i Hn Hi; cbn [partition_up].
  - repeat split; lia.
  - destruct (Nat.leb_spec i j) as [Hle|Hgt]; cbn [andb].
    + destruct (Less less data i a) eqn:HL.
      * destruct (IH (i + 1)) as (Hr & Hb & He); [lia|lia|].
        split; [lia|]. split; [|done].
        intros k Hk. destruct (decide (k = i)) as [->|]; [done|]. apply Hb. lia.
      * repeat split; try lia. done.
    + repeat split; lia.
Qed.

Lemma partition_down_spec n data a i j :
  j + 1 - i ≤ n → 1 ≤ i ≤ j + 1 →
  partition_down less n data a i j ≤ j ∧
  i ≤ partition_down less n data a i j + 1 ∧
  (∀ k, partition_down less n data a i j < k ≤ j → Less less data k a = false) ∧
  (i ≤ partition_down less n data a i j →
   Less less data (partition_down less n data a i j) a = true).
Proof.
  revert j. induction n as [|n IH]; intros j Hn Hi; cbn [partition_down].
  - repeat split; lia.
  - destruct (Nat.leb_spec i j) as [Hle|Hgt]; cbn [andb].
    + destruct (Less less data j a) eqn:HL; cbn [negb].
      * repeat split; try lia. done.
      * destruct (IH (j - 1)) as (Hr & Hr' & Hb & He); [lia|lia|].
        split; [lia|]. split; [lia|]. split; [|done].
        intros k Hk. destruct (decide (k = j)) as [->|]; [done|]. apply Hb. lia.
    + repeat split; lia.
Qed.

(** The two scans. *)
Lemma partition_scans p data a b i j n m :
  Partitioning p data a b i j → j + 1 - i ≤ n →
  j + 1 - partition_up less n data a i j ≤ m →
  let i' := partition_up less n data a i j in
  let j' := partition_down less m data a i' j in
  Partitioning p data a b i' j' ∧ i ≤ i' ∧ j' ≤ j ∧
  (i' ≤ j' → ∃ x y, data !! i' = Some x ∧ less x p = false ∧
                    data !! j' = Some y ∧ less y p = true).
Proof.
  intros (Hai & Hij & Hjb & Hb & Hp & Hlow & Hhigh) Hn Hm i' j'.
  destruct (partition_up_spec n data a i j Hn Hij) as (Hi' & Hup & Hupe).
  fold i' in Hi', Hup, Hupe, Hm.
  destruct (partition_down_spec m data a i' j Hm) as (Hj' & Hj'' & Hdn & Hdne);
    [lia|].
  fold j' in Hj', Hj'', Hdn, Hdne.
  split; [|split; [lia|split; [lia|]]].
  - split; [lia|]. split; [lia|]. split; [lia|]. split; [done|].
    split; [done|]. split.
    + intros k x Hk Hx. destruct (decide (k < i)); [apply (Hlow k); [lia|done]|].
      rewrite <- (Less_pivot p data a k x Hp Hx). apply Hup. lia.
    + intros k x Hk Hx. destruct (decide (j < k)); [apply (Hhigh k); [lia|done]|].
      rewrite <- (Less_pivot p data a k x Hp Hx). apply Hdn. lia.
  - intros Hle.
    destruct (lookup_lt_is_Some_2 data i' ltac:(lia)) as [x Hx].
    destruct (lookup_lt_is_Some_2 data j' ltac:(lia)) as [y Hy].
    exists x, y. split; [done|]. split; [|split; [done|]].
    + rewrite <- (Less_pivot p data a i' x Hp Hx). apply Hupe. lia.
    + rewrite <- (Less_pivot p data a j' y Hp Hy). by apply Hdne.
Qed.

(** After an exchange of the two elements the scans stopped at. *)
Lemma Partitioning_Swap p data a b i j x y :
  Partitioning p data a b i j → i ≤ j →
  data !! i = Some x → less x p = false →
  data !! j = Some y → less y p = true →
  i < j ∧ Partitioning p (Swap data i j) a b (i + 1) (j - 1).
Proof.
  intros (Hai & Hij & Hjb & Hb & Hp & Hlow & Hhigh) Hle Hx Hxp Hy Hyp.
  assert (i ≠ j) by (intros ->; congruence).
  split; [lia|].
  split; [lia|]. split; [lia|]. split; [lia|].
  split; [by rewrite length_Swap|].
  split; [by rewrite lookup_Swap_ne by lia|]. split.
  - intros k z Hk Hz. destruct (decide (k = i)) as [->|Hki].
    + rewrite (lookup_Swap_l data i j x y Hx Hy) in Hz. congruence.
    + rewrite lookup_Swap_ne in Hz by lia. apply (Hlow k); [lia|done].
  - intros k z Hk Hz. destruct (decide (k = j)) as [->|Hkj].
    + rewrite (lookup_Swap_r data i j x y Hx Hy) in Hz. congruence.
    + rewrite lookup_Swap_ne in Hz by lia. apply (Hhigh k); [lia|done].
Qed.

(** Where the loop of [partition_func] stops, the two parts are apart. *)
Definition Parted (p : A) data a b j : Prop :=
  a ≤ j < b ∧ b ≤ length data ∧ data !! a = Some p ∧
  (∀ k x, a < k ≤ j → data !! k = Some x → less x p = true) ∧
  (∀ k x, j < k < b → data !! k = Some x → less x p = false).

Lemma Partitioning_Parted p data a b i j :
  Partitioning p data a b i j → j < i → Parted p data a b j.
Proof.
  intros (Hai & Hij & Hjb & Hb & Hp & Hlow & Hhigh) Hlt.
  split; [lia|]. split; [done|]. split; [done|]. split; [|done].
  intros k x Hk. apply Hlow. lia.
Qed.

Lemma partition_loop_spec p n data a b i j :
  Partitioning p data a b i j → j + 1 - i ≤ n →
  Keeps data (partition_loop less n data a i j).1 (a + 1) b ∧
  Parted p (partition_loop less n data a i j).1 a b
         (partition_loop less n data a i j).2.
Proof.
  revert data i j. induction n as [|n IH]; intros data i j HP Hn;
    cbn [partition_loop fst snd].
  - split; [apply Keeps_refl|]. apply (Partitioning_Parted _ _ _ _ i); [done|].
    destruct HP as (? & ? & _). lia.
  - destruct (partition_scans p data a b i j (j + 1 - i)
                (j + 1 - partition_up less (j + 1 - i) data a i j) HP)
      as (HP' & Hi' & Hj' & Hstop); [lia|lia|].
    set (i' := partition_up less (j + 1 - i) data a i j) in *.
    set (j' := partition_down less (j + 1 - i') data a i' j) in *.
    destruct (Nat.ltb_spec j' i') as [Hlt|Hle].
    + split; [apply Keeps_refl|]. by apply (Partitioning_Parted _ _ _ _ i').
    + destruct (Hstop Hle) as (x & y & Hx & Hxp & Hy & Hyp).
      destruct (Partitioning_Swap p data a b i' j' x y HP' Hle Hx Hxp Hy Hyp)
        as [Hlt HP''].
      destruct (IH (Swap data i' j') (i' + 1) (j' - 1) HP'') as [HK Hparted];
        [lia|].
      split; [|done].
      apply (Keeps_trans _ (Swap data i' j')); [|done].
      destruct HP' as (? & ? & ? & _). apply Keeps_Swap; lia.
Qed.

(** The pivot goes to its place. *)
Lemma Parted_Swap p data a b j :
  Parted p data a b j →
  Keeps data (Swap data j a) a b ∧
  (Swap data j a) !! j = Some p ∧
  (∀ k x, a ≤ k < j → Swap data j a !! k = Some x → less x p = true) ∧
  (∀ k x, j < k < b → Swap data j a !! k = Some x → less x p = false).
Proof.
  intros (Hj & Hb & Hp & Hlow & Hhigh).
  destruct (lookup_lt_is_Some_2 data j ltac:(lia)) as [y Hy].
  split; [apply Keeps_Swap; lia|].
  split; [by apply (lookup_Swap_l data j a y p)|]. split.
  - intros k x Hk Hx. destruct (decide (k = a)) as [->|Hka].
    + rewrite (lookup_Swap_r data j a y p Hy Hp) in Hx.
      injection Hx as <-. apply (Hlow j); [lia|done].
    + rewrite lookup_Swap_ne in Hx by lia. apply (Hlow k); [lia|done].
  - intros k x Hk Hx. rewrite lookup_Swap_ne in Hx by lia.
    apply (Hhigh k); [lia|done].
Qed.

(** [partition_func] moves elements inside [data[a:b]] only, and leaves
    the pivot at [mid] with the elements less than it in front and the
    others behind. *)
Definition PartitionedAt data a b mid : Prop :=
  a ≤ mid < b ∧
  ∃ p, data !! mid = Some p ∧
       (∀ k x, a ≤ k < mid → data !! k = Some x → less x p = true) ∧
       (∀ k x, mid < k < b → data !! k = Some x → less x p = false).

Lemma partition_func_spec data a b pivot :
  a ≤ pivot < b → b ≤ length data →
  Keeps data (partition_func less data a b pivot).1.1 a b ∧
  PartitionedAt (partition_func less data a b pivot).1.1 a b
                (partition_func less data a b pivot).1.2.
Proof.
  intros Hpivot Hb. unfold partition_func.
  set (data0 := Swap data a pivot).
  assert (HK0 : Keeps data data0 a b) by (apply Keeps_Swap; lia).
  assert (Hlen0 : length data0 = length data) by apply length_Swap.
  destruct (lookup_lt_is_Some_2 data0 a ltac:(lia)) as [p Hp].
  assert (HP0 : Partitioning p data0 a b (a + 1) (b - 1)).
  { split; [lia|]. split; [lia|]. split; [lia|]. split; [lia|].
    split; [done|]. split; intros k x Hk; lia. }
  destruct (partition_scans p data0 a b (a + 1) (b - 1) (b - 1 + 1 - (a + 1))
              (b - 1 + 1 - partition_up less (b - 1 + 1 - (a + 1)) data0 a
                                        (a + 1) (b - 1)) HP0)
    as (HP' & Hi' & Hj' & Hstop); [lia|lia|].
  set (i' := partition_up less _ data0 a (a + 1) (b - 1)) in *.
  set (j' := partition_down less _ data0 a i' (b - 1)) in *.
  assert (Hfin : ∀ data1 j, Keeps data0 data1 a b → Parted p data1 a b j →
            Keeps data (Swap data1 j a) a b ∧ PartitionedAt (Swap data1 j a) a b j).
  { intros data1 j HK1 Hparted.
    destruct (Parted_Swap p data1 a b j Hparted) as (HK2 & Hmid & Hlow & Hhigh).
    split.
    - apply (Keeps_trans _ data0); [done|]. by apply (Keeps_trans _ data1).
    - split; [by destruct Hparted|]. by exists p. }
  destruct (Nat.ltb_spec j' i') as [Hlt|Hle]; cbn [fst snd].
  - apply Hfin; [apply Keeps_refl|]. by apply (Partitioning_Parted _ _ _ _ i').
  - destruct (Hstop Hle) as (x & y & Hx & Hxp & Hy & Hyp).
    destruct (Partitioning_Swap p data0 a b i' j' x y HP' Hle Hx Hxp Hy Hyp)
      as [Hlt HP''].
    destruct (partition_loop_spec p (b - a) (Swap data0 i' j') a b (i' + 1) (j' - 1)
                HP'') as [HK Hparted].
    { destruct HP' as (? & ? & ? & _). lia. }
    destruct (partition_loop less (b - a) (Swap data0 i' j') a (i' + 1) (j' - 1))
      as [data2 j2]. cbn [fst snd] in *.
    apply Hfin; [|done].
    apply (Keeps_trans _ (Swap data0 i' j')).
    + destruct HP' as (? & ? & ? & _). apply Keeps_Swap; lia.
    + apply (Keeps_mono _ _ (a + 1) b); [lia|lia|done].
Qed.

Lemma partition_loop_perm n data a i j :
  (partition_loop less n data a i j).1 ≡ₚ data.
Proof.
  revert data i j. induction n as [|n IH]; intros data i j; cbn [partition_loop];
    [done|].
  destruct (_ <? _); [done|]. by rewrite IH, Swap_perm.
Qed.

Lemma partition_func_perm data a b pivot :
  (partition_func less data a b pivot).1.1 ≡ₚ data.
Proof.
  unfold partition_func. destruct (_ <? _); cbn [fst].
  - by rewrite !Swap_perm.
  - match goal with
    | |- context [partition_loop less ?n ?d ?a ?i ?j] =>
        pose proof (partition_loop_perm n d a i j) as Hp;
        destruct (partition_loop less n d a i j) as [data2 j2]
    end.
    cbn [fst] in *. by rewrite Swap_perm, Hp, !Swap_perm.
Qed.

(** *** The pivot *)

Lemma median_func_in data a b c swaps :
  (median_func less data a b c swaps).1 = a ∨
  (median_func less data a b c swaps).1 = b ∨
  (median_func less data a b c swaps).1 = c.
Proof.
  unfold median_func, order2_func.
  destruct (Less less data b a); destruct (Less less data c _);
    destruct (Less less data _ _); cbn [fst]; auto.
Qed.

(** [choosePivot_func] chooses inside the range. *)
Lemma choosePivot_func_range data a b :
  8 ≤ b - a →
  a ≤ (choosePivot_func less data a b).1 < b.
Proof.
  intros Hl. unfold choosePivot_func.
  pose proof (Nat.div_mod_eq (b - a) 4) as Hdiv.
  pose proof (Nat.mod_upper_bound (b - a) 4 ltac:(lia)) as Hmod.
  set (q := (b - a) / 4) in *.
  destruct (Nat.leb_spec 8 (b - a)) as [_|]; [|lia].
  assert (Hin : ∀ j swaps,
             a ≤ (let '(j, swaps) := (j, swaps) : nat * nat in
                  if swaps =? 0 then (j, increasingHint)
                  else if swaps =? maxSwaps then (j, decreasingHint)
                       else (j, unknownHint)).1 < b ↔ a ≤ j < b).
  { intros j swaps. cbv zeta. destruct (swaps =? 0); [done|].
    by destruct (swaps =? maxSwaps). }
  destruct (Nat.leb_spec shortestNinther (b - a)) as [Hbig|Hsmall].
  - unfold shortestNinther in Hbig. unfold medianAdjacent_func.
    pose proof (median_func_in data (a + q * 1 - 1) (a + q * 1) (a + q * 1 + 1) 0)
      as Hi.
    destruct (median_func less data (a + q * 1 - 1) (a + q * 1) (a + q * 1 + 1) 0)
      as [i s1]. cbn [fst] in Hi.
    pose proof (median_func_in data (a + q * 2 - 1) (a + q * 2) (a + q * 2 + 1) s1)
      as Hj.
    destruct (median_func less data (a + q * 2 - 1) (a + q * 2) (a + q * 2 + 1) s1)
      as [j s2]. cbn [fst] in Hj.
    pose proof (median_func_in data (a + q * 3 - 1) (a + q * 3) (a + q * 3 + 1) s2)
      as Hk.
    destruct (median_func less data (a + q * 3 - 1) (a + q * 3) (a + q * 3 + 1) s2)
      as [k s3]. cbn [fst] in Hk.
    pose proof (median_func_in data i j k s3) as Hm.
    destruct (median_func less data i j k s3) as [m s4]. cbn [fst] in Hm.
    apply Hin. lia.
  - pose proof (median_func_in data (a + q * 1) (a + q * 2) (a + q * 3) 0) as Hm.
    destruct (median_func less data (a + q * 1) (a + q * 2) (a + q * 3) 0)
      as [m s]. cbn [fst] in Hm.
    apply Hin. lia.
Qed.

(** *** Reversal *)

Lemma reverseRange_loop_Keeps n data a b i j :
  a ≤ i → j < b → Keeps data (reverseRange_loop n data i j) a b.
Proof.
  revert data i j. induction n as [|n IH]; intros data i j Hi Hj;
    cbn [reverseRange_loop]; [apply Keeps_refl|].
  destruct (Nat.ltb_spec i j); [|apply Keeps_refl].
  apply (Keeps_trans _ (Swap data i j)); [apply Keeps_Swap; lia|].
  apply IH; lia.
Qed.

Lemma reverseRange_func_Keeps data a b :
  a < b → Keeps data (reverseRange_func data a b) a b.
Proof. intros Hab. apply reverseRange_loop_Keeps; lia. Qed.

Lemma reverseRange_func_perm data a b : reverseRange_func data a b ≡ₚ data.
Proof.
  unfold reverseRange_func. generalize (b - a), (b - 1), a at 2.
  intros n j i. revert data i j.
  induction n as [|n IH]; intros data i j; cbn [reverseRange_loop]; [done|].
  destruct (i <? j); [|done]. by rewrite IH, Swap_perm.
Qed.

(** *** The attempt at a nearly sorted range *)

(** What is in front of the range is not above anything in it. *)
Definition Floor data a b : Prop :=
  0 < a → ∀ w k x, data !! (a - 1) = Some w → a ≤ k < b →
                   data !! k = Some x → less x w = false.

Lemma Floor_mono data a b b' : b' ≤ b → Floor data a b → Floor data a b'.
Proof. intros Hb HF Ha w k x Hw Hk. apply (HF Ha w k); [done|lia]. Qed.

Lemma Floor_Keeps data data' a b c d :
  Keeps data data' c d → a ≤ c → d ≤ b → Floor data a b → Floor data' a b.
Proof.
  intros (Hl & Ho & Hi) Hc Hd HF Ha w k x Hw Hk Hx.
  rewrite Ho in Hw by lia.
  destruct (decide (c ≤ k < d)) as [Hin|Hout].
  - apply (Hi (λ x, less x w = false)) with k; [|done|done].
    intros k' x' Hk'. apply (HF Ha w k'); [done|lia].
  - rewrite Ho in Hx by done. by apply (HF Ha w k).
Qed.

(** One more element in order behind a sorted range. *)
Lemma SortedRange_snoc data a j :
  Within data → SortedRange data a j →
  (a < j → Less less data j (j - 1) = false) →
  j < length data →
  SortedRange data a (j + 1).
Proof.
  intros HW Hs HL Hlen i k u v Hi Hik Hk Hu Hv.
  destruct (decide (k = j)) as [->|Hkj]; [|apply (Hs i k); try done; lia].
  destruct (lookup_lt_is_Some_2 data (j - 1) ltac:(lia)) as [y Hy].
  assert (Hvy : less v y = false).
  { rewrite <- HL by lia. unfold Less. by rewrite Hv, Hy. }
  destruct (decide (i = j - 1)) as [->|Hij]; [congruence|].
  apply (less_negtrans v y u);
    [by apply (HW j)|by apply (HW (j - 1))|by apply (HW i)|done|].
  apply (Hs i (j - 1)); try done; lia.
Qed.

Lemma partialInsertionSort_scan_spec n data b i :
  b - i ≤ n → i ≤ b →
  i ≤ partialInsertionSort_scan less n data b i ≤ b ∧
  (∀ k, i ≤ k < partialInsertionSort_scan less n data b i →
        Less less data k (k - 1) = false) ∧
  (partialInsertionSort_scan less n data b i < b →
   Less less data (partialInsertionSort_scan less n data b i)
        (partialInsertionSort_scan less n data b i - 1) = true).
Proof.
  revert i. induction n as [|n IH]; intros i Hn Hi;
    cbn [partialInsertionSort_scan].
  - repeat split; lia.
  - destruct (Nat.ltb_spec i b) as [Hlt|Hge]; cbn [andb].
    + destruct (Less less data i (i - 1)) eqn:HL; cbn [negb].
      * repeat split; try lia. done.
      * destruct (IH (i + 1)) as (Hr & Hb & He); [lia|lia|].
        split; [lia|]. split; [|done].
        intros k Hk. destruct (decide (k = i)) as [->|]; [done|]. apply Hb. lia.
    + repeat split; lia.
Qed.

Lemma SortedRange_scan data a b i i' :
  Within data → b ≤ length data → a + 1 ≤ i → i ≤ i' ≤ b →
  SortedRange data a i →
  (∀ k, i ≤ k < i' → Less less data k (k - 1) = false) →
  SortedRange data a i'.
Proof.
  intros HW Hb Hai Hi Hs Hscan.
  assert (Hm : ∀ m, i + m ≤ i' → SortedRange data a (i + m)).
  { induction m as [|m IH]; intros Hle.
    - by replace (i + 0) with i by lia.
    - replace (i + S m) with (i + m + 1) by lia.
      apply SortedRange_snoc; [done|apply IH; lia| |lia].
      intros _. apply Hscan. lia. }
  replace i' with (i + (i' - i)) by lia. apply Hm. lia.
Qed.

Lemma partialInsertionSort_left_sink data j :
  partialInsertionSort_left less data j = insertionSort_sink less 0 data j.
Proof.
  revert data. induction j as [|j IH]; intros data; [done|].
  cbn [partialInsertionSort_left insertionSort_sink].
  destruct (Less less data (S j) j); cbn [negb andb Nat.ltb Nat.leb]; [|done].
  apply IH.
Qed.

Lemma partialInsertionSort_right_Keeps n data a b j :
  a + 1 ≤ j → Keeps data (partialInsertionSort_right less n data b j) a b.
Proof.
  revert data j. induction n as [|n IH]; intros data j Hj;
    cbn [partialInsertionSort_right]; [apply Keeps_refl|].
  destruct (Nat.ltb_spec j b); [|apply Keeps_refl].
  destruct (Less less data j (j - 1)); cbn [negb]; [|apply Keeps_refl].
  apply (Keeps_trans _ (Swap data j (j - 1))); [apply Keeps_Swap; lia|].
  apply IH. lia.
Qed.

Lemma partialInsertionSort_steps_spec steps data a b i :
  a + 1 ≤ i ≤ b → b ≤ length data → Within data → Floor data a b →
  SortedRange data a i →
  Keeps data (partialInsertionSort_steps less steps data a b i).1 a b ∧
  ((partialInsertionSort_steps less steps data a b i).2 = true →
   SortedRange (partialInsertionSort_steps less steps data a b i).1 a b).
Proof.
  revert data i. induction steps as [|steps IH]; intros data i Hi Hb HW HF Hs;
    cbn [partialInsertionSort_steps fst snd].
  - split; [apply Keeps_refl|done].
  - destruct (partialInsertionSort_scan_spec (b - i) data b i) as (Hi' & Hscan & Hstop);
      [lia|lia|].
    set (i' := partialInsertionSort_scan less (b - i) data b i) in *.
    assert (Hs' : SortedRange data a i')
      by (apply (SortedRange_scan data a b i i'); try done; lia).
    destruct (Nat.eqb_spec i' b) as [->|Hne]; cbn [fst snd].
    { split; [apply Keeps_refl|done]. }
    destruct (b - a <? shortestShifting); cbn [fst snd].
    { split; [apply Keeps_refl|done]. }
    set (data1 := Swap data i' (i' - 1)).
    assert (HK1 : Keeps data data1 a b) by (apply Keeps_Swap; lia).
    set (data2 := if 2 <=? i' - a
                  then partialInsertionSort_left less data1 (i' - 1) else data1).
    assert (H2 : Keeps data1 data2 a i' ∧ SortedRange data2 a i').
    { unfold data2. destruct (Nat.leb_spec 2 (i' - a)) as [Hfar|Hnear].
      - rewrite partialInsertionSort_left_sink.
        replace i' with (i' - 1 + 1) at 2 4 by lia.
        apply (insertionSort_sink_spec 0 a (i' - 1) data1).
        + lia.
        + unfold data1. rewrite length_Swap. lia.
        + by apply (Keeps_Within data _ a b).
        + intros u v x y Hu Huv Hv Hx Hy. unfold data1 in Hx, Hy.
          rewrite lookup_Swap_ne in Hx, Hy by lia.
          apply (Hs' u v); try done; lia.
        + intros Ha w k x Hw Hk Hx.
          apply (Floor_Keeps data data1 a b a b HK1 ltac:(lia) ltac:(lia) HF Ha w k);
            [done|lia|done].
      - split; [apply Keeps_refl|]. intros u v x y ? ? ?. lia. }
    destruct H2 as [HK2 Hs2].
    set (data3 := if 2 <=? b - i'
                  then partialInsertionSort_right less (b - (i' + 1)) data2 b (i' + 1)
                  else data2).
    assert (HK3 : Keeps data2 data3 i' b).
    { unfold data3. destruct (2 <=? b - i'); [|apply Keeps_refl].
      apply partialInsertionSort_right_Keeps. lia. }
    assert (HK : Keeps data data3 a b).
    { apply (Keeps_trans _ data1); [done|].
      apply (Keeps_trans _ data2).
      - apply (Keeps_mono _ _ a i'); [lia|lia|done].
      - apply (Keeps_mono _ _ i' b); [lia|lia|done]. }
    destruct (IH data3 i') as [HK' Hs3].
    + lia.
    + destruct HK as (-> & _). done.
    + by apply (Keeps_Within data _ a b).
    + by apply (Floor_Keeps data data3 a b a b).
    + apply (SortedRange_Keeps_out data2 data3 a i' i' b); [done|lia|done].
    + split; [|done]. by apply (Keeps_trans _ data3).
Qed.

Lemma partialInsertionSort_func_spec data a b :
  a < b → b ≤ length data → Within data → Floor data a b →
  Keeps data (partialInsertionSort_func less data a b).1 a b ∧
  ((partialInsertionSort_func less data a b).2 = true →
   SortedRange (partialInsertionSort_func less data a b).1 a b).
Proof.
  intros Hab Hb HW HF. apply partialInsertionSort_steps_spec; try done; [lia|].
  intros i j x y ? ? ?. lia.
Qed.

Lemma partialInsertionSort_func_perm data a b :
  (partialInsertionSort_func less data a b).1 ≡ₚ data.
Proof.
  unfold partialInsertionSort_func. generalize maxSteps, (a + 1).
  intros steps i. revert data i.
  induction steps as [|steps IH]; intros data i;
    cbn [partialInsertionSort_steps fst]; [done|].
  destruct (_ =? b); [done|]. destruct (_ <? shortestShifting); [done|].
  rewrite IH.
  assert (Hright : ∀ n d j, partialInsertionSort_right less n d b j ≡ₚ d).
  { induction n as [|n IHn]; intros d j; cbn [partialInsertionSort_right]; [done|].
    destruct (j <? b); [|done]. destruct (negb _); [done|].
    by rewrite IHn, Swap_perm. }
  assert (Hleft : ∀ d j, partialInsertionSort_left less d j ≡ₚ d).
  { intros d j. rewrite partialInsertionSort_left_sink.
    apply insertionSort_sink_perm. }
  destruct (2 <=? b - _); destruct (2 <=? _ - a);
    by rewrite ?Hright, ?Hleft, Swap_perm.
Qed.

(** *** The whole sort *)

(** The two parts of a partitioned range, each sorted, make a sorted
    range. *)
Lemma SortedRange_join data a b mid :
  Within data → PartitionedAt data a b mid →
  SortedRange data a mid → SortedRange data (mid + 1) b →
  SortedRange data a b.
Proof.
  intros HW (Hmid & p & Hp & Hlow & Hhigh) Hl Hr i j x y Hi Hij Hj Hx Hy.
  assert (p ∈ U) by by apply (HW mid).
  assert (x ∈ U) by by apply (HW i).
  assert (y ∈ U) by by apply (HW j).
  destruct (decide (j < mid)); [apply (Hl i j); try done; lia|].
  destruct (decide (mid < i)); [apply (Hr i j); try done; lia|].
  destruct (decide (j = mid)) as [->|].
  { assert (y = p) as -> by congruence.
    apply less_asym; [done|done|]. apply (Hlow i); [lia|done]. }
  assert (Hyp : less y p = false) by (apply (Hhigh j); [lia|done]).
  destruct (decide (i = mid)) as [->|]; [congruence|].
  assert (Hxp : less x p = true) by (apply (Hlow i); [lia|done]).
  destruct (less y x) eqn:Hyx; [|done].
  rewrite <- Hyp. symmetry. by apply (less_trans y x p).
Qed.

Lemma PartitionedAt_Keeps data data' a b mid c d :
  Keeps data data' c d → (c = a ∧ d = mid ∨ c = mid + 1 ∧ d = b) →
  PartitionedAt data a b mid → PartitionedAt data' a b mid.
Proof.
  intros (Hl & Ho & Hi) Hcd (Hmid & p & Hp & Hlow & Hhigh).
  split; [done|]. exists p. split; [by rewrite Ho by lia|]. split.
  - intros k x Hk Hx. destruct (decide (c ≤ k < d)) as [Hin|Hout].
    + apply (Hi (λ x, less x p = true)) with k; [|done|done].
      intros k' x' Hk'. apply Hlow. lia.
    + rewrite Ho in Hx by done. by apply (Hlow k).
  - intros k x Hk Hx. destruct (decide (c ≤ k < d)) as [Hin|Hout].
    + apply (Hi (λ x, less x p = false)) with k; [|done|done].
      intros k' x' Hk'. apply Hhigh. lia.
    + rewrite Ho in Hx by done. by apply (Hhigh k).
Qed.

Lemma PartitionedAt_Floor data a b mid :
  PartitionedAt data a b mid → Floor data (mid + 1) b.
Proof.
  intros (Hmid & p & Hp & _ & Hhigh) _ w k x Hw Hk Hx.
  replace (mid + 1 - 1) with mid in Hw by lia.
  assert (w = p) as -> by congruence. apply (Hhigh k); [lia|done].
Qed.

(** The two halves of a round of [pdqsort_func], in either order. *)
Lemma sorted_halves data0 data1 data2 a b mid c1 d1 c2 d2 :
  (c1 = a ∧ d1 = mid ∧ c2 = mid + 1 ∧ d2 = b ∨
   c1 = mid + 1 ∧ d1 = b ∧ c2 = a ∧ d2 = mid) →
  Within data0 → PartitionedAt data0 a b mid →
  Keeps data0 data1 c1 d1 → SortedRange data1 c1 d1 →
  Keeps data1 data2 c2 d2 → SortedRange data2 c2 d2 →
  Keeps data0 data2 a b ∧ SortedRange data2 a b.
Proof.
  intros Hcd HW HP HK1 Hs1 HK2 Hs2.
  assert (Hmid : a ≤ mid < b) by by destruct HP.
  assert (HK : Keeps data0 data2 a b).
  { apply (Keeps_trans _ data1).
    - apply (Keeps_mono _ _ c1 d1); [lia|lia|done].
    - apply (Keeps_mono _ _ c2 d2); [lia|lia|done]. }
  split; [done|].
  assert (Hs1' : SortedRange data2 c1 d1).
  { apply (SortedRange_Keeps_out data1 data2 c1 d1 c2 d2); [done|lia|done]. }
  apply (SortedRange_join data2 a b mid).
  - by apply (Keeps_Within data0 _ a b).
  - apply (PartitionedAt_Keeps data1 data2 a b mid c2 d2); [done|lia|].
    apply (PartitionedAt_Keeps data0 data1 a b mid c1 d1); [done|lia|done].
  - destruct Hcd as [(-> & -> & -> & ->)|(-> & -> & -> & ->)]; done.
  - destruct Hcd as [(-> & -> & -> & ->)|(-> & -> & -> & ->)]; done.
Qed.

(** Whenever [pdqsort_func] has a result, [data[a:b]] is sorted in it and
    the rest of the slice is as it was. *)
Lemma pdqsort_func_spec fuel data a b limit wasBalanced wasPartitioned data' :
  pdqsort_func less fuel data a b limit wasBalanced wasPartitioned = Some data' →
  b ≤ length data → Within data → Floor data a b →
  Keeps data data' a b ∧ SortedRange data' a b.
Proof.
  revert data a b limit wasBalanced wasPartitioned data'.
  induction fuel as [|fuel IH];
    intros data a b limit wasBalanced wasPartitioned data' Hrun Hb HW HF;
    cbn [pdqsort_func] in Hrun;
    (destruct (Nat.leb_spec (b - a) maxInsertion) as [Hshort|Hlong];
     [injection Hrun as <-; by apply insertionSort_func_spec|]);
    [done|].
  unfold maxInsertion in Hlong.
  destruct (limit =? 0); [done|].
  destruct wasBalanced; cbn [negb] in Hrun; [|done].
  pose proof (choosePivot_func_range data a b ltac:(lia)) as Hpivot.
  destruct (choosePivot_func less data a b) as [pivot hint]. cbn [fst] in Hpivot.
  set (round :=
         match hint with
         | decreasingHint =>
             (reverseRange_func data a b, b - 1 - (pivot - a), increasingHint)
         | _ => (data, pivot, hint)
         end) in Hrun.
  assert (Hround : Keeps data round.1.1 a b ∧ a ≤ round.1.2 < b).
  { unfold round. destruct hint; cbn [fst snd];
      try (split; [apply Keeps_refl|done]).
    split; [apply reverseRange_func_Keeps; lia|lia]. }
  destruct round as [[data1 pivot1] hint1]. cbn [fst snd] in Hround.
  destruct Hround as [HK1 Hpivot1].
  assert (Hlen1 : b ≤ length data1) by (destruct HK1 as (-> & _); done).
  assert (HW1 : Within data1) by by apply (Keeps_Within data _ a b).
  assert (HF1 : Floor data1 a b) by by apply (Floor_Keeps data data1 a b a b).
  set (attempt :=
         match hint1 with
         | increasingHint =>
             if true && wasPartitioned
             then partialInsertionSort_func less data1 a b
             else (data1, false)
         | _ => (data1, false)
         end) in Hrun.
  assert (Hattempt : Keeps data1 attempt.1 a b ∧
                     (attempt.2 = true → SortedRange attempt.1 a b)).
  { unfold attempt. destruct hint1; cbn [fst snd andb];
      try (split; [apply Keeps_refl|done]).
    destruct wasPartitioned; [|split; [apply Keeps_refl|done]].
    apply partialInsertionSort_func_spec; try done. lia. }
  destruct attempt as [data2 sorted]. cbn [fst snd] in Hattempt.
  destruct Hattempt as [HK2 Hsorted].
  assert (HK02 : Keeps data data2 a b) by by apply (Keeps_trans _ data1).
  destruct sorted.
  { injection Hrun as <-. split; [done|]. by apply Hsorted. }
  destruct ((0 <? a) && negb (Less less data2 (a - 1) pivot1)); [done|].
  assert (Hlen2 : b ≤ length data2) by (destruct HK2 as (-> & _); done).
  destruct (partition_func_spec data2 a b pivot1 Hpivot1 Hlen2) as [HK3 HP].
  destruct (partition_func less data2 a b pivot1) as [[data3 mid] alreadyPartitioned].
  cbn [fst snd] in HK3, HP.
  assert (HK03 : Keeps data data3 a b) by by apply (Keeps_trans _ data2).
  assert (Hlen3 : length data3 = length data) by by destruct HK03.
  assert (HW3 : Within data3) by by apply (Keeps_Within data _ a b).
  assert (HF3 : Floor data3 a b) by by apply (Floor_Keeps data data3 a b a b).
  assert (Hmid : a ≤ mid < b) by by destruct HP.
  destruct (mid - a <? b - mid).
  - destruct (pdqsort_func less fuel data3 a mid limit true true)
      as [data4|] eqn:Hleft; [|done].
    cbn in Hrun.
    destruct (IH _ _ _ _ _ _ _ Hleft) as [HK4 Hs4];
      [lia|done|by apply (Floor_mono _ _ b); [lia|]|].
    destruct (IH _ _ _ _ _ _ _ Hrun) as [HK5 Hs5].
    + destruct HK4 as (-> & _). lia.
    + by apply (Keeps_Within data3 _ a mid).
    + apply PartitionedAt_Floor with a.
      by apply (PartitionedAt_Keeps data3 data4 a b mid a mid); [|left|].
    + destruct (sorted_halves data3 data4 data' a b mid a mid (mid + 1) b)
        as [HK Hs]; try done; [by left|].
      split; [|done]. by apply (Keeps_trans _ data3).
  - destruct (pdqsort_func less fuel data3 (mid + 1) b limit true true)
      as [data4|] eqn:Hright; [|done].
    cbn in Hrun.
    destruct (IH _ _ _ _ _ _ _ Hright) as [HK4 Hs4];
      [lia|done|by apply PartitionedAt_Floor with a|].
    destruct (IH _ _ _ _ _ _ _ Hrun) as [HK5 Hs5].
    + destruct HK4 as (-> & _). lia.
    + by apply (Keeps_Within data3 _ (mid + 1) b).
    + apply (Floor_mono _ _ b); [lia|].
      apply (Floor_Keeps data3 data4 a b (mid + 1) b); [done|lia|lia|done].
    + destruct (sorted_halves data3 data4 data' a b mid (mid + 1) b a mid)
        as [HK Hs]; try done; [by right|].
      split; [|done]. by apply (Keeps_trans _ data3).
Qed.

Lemma pdqsort_func_perm fuel data a b limit wasBalanced wasPartitioned data' :
  pdqsort_func less fuel data a b limit wasBalanced wasPartitioned = Some data' →
  data' ≡ₚ data.
Proof.
  revert data a b limit wasBalanced wasPartitioned data'.
  induction fuel as [|fuel IH];
    intros data a b limit wasBalanced wasPartitioned data' Hrun;
    cbn [pdqsort_func] in Hrun;
    (destruct (b - a <=? maxInsertion);
     [injection Hrun as <-; apply insertionSort_func_perm|]);
    [done|].
  destruct (limit =? 0); [done|].
  destruct wasBalanced; cbn [negb] in Hrun; [|done].
  destruct (choosePivot_func less data a b) as [pivot hint].
  set (round :=
         match hint with
         | decreasingHint =>
             (reverseRange_func data a b, b - 1 - (pivot - a), increasingHint)
         | _ => (data, pivot, hint)
         end) in Hrun.
  assert (Hround : round.1.1 ≡ₚ data).
  { unfold round. destruct hint; cbn [fst]; try done.
    apply reverseRange_func_perm. }
  destruct round as [[data1 pivot1] hint1]. cbn [fst] in Hround.
  set (attempt :=
         match hint1 with
         | increasingHint =>
             if true && wasPartitioned
             then partialInsertionSort_func less data1 a b
             else (data1, false)
         | _ => (data1, false)
         end) in Hrun.
  assert (Hattempt : attempt.1 ≡ₚ data1).
  { unfold attempt. destruct hint1; cbn [fst andb]; try done.
    destruct wasPartitioned; [|done]. apply partialInsertionSort_func_perm. }
  destruct attempt as [data2 sorted]. cbn [fst] in Hattempt.
  destruct sorted; [injection Hrun as <-; by rewrite Hattempt|].
  destruct ((0 <? a) && negb (Less less data2 (a - 1) pivot1)); [done|].
  pose proof (partition_func_perm data2 a b pivot1) as Hpart.
  destruct (partition_func less data2 a b pivot1) as [[data3 mid] alreadyPartitioned].
  cbn [fst] in Hpart.
  destruct (mid - a <? b - mid).
  - destruct (pdqsort_func less fuel data3 a mid limit true true)
      as [data4|] eqn:Hleft; [|done].
    cbn in Hrun.
    by rewrite (IH _ _ _ _ _ _ _ Hrun), (IH _ _ _ _ _ _ _ Hleft), Hpart,
      Hattempt.
  - destruct (pdqsort_func less fuel data3 (mid + 1) b limit true true)
      as [data4|] eqn:Hright; [|done].
    cbn in Hrun.
    by rewrite (IH _ _ _ _ _ _ _ Hrun), (IH _ _ _ _ _ _ _ Hright), Hpart,
      Hattempt.
Qed.

End pdqsort.

(** [sort.Slice] keeps its promise wherever the model has a result. *)
Lemma Slice_perm {A : Type} (less : A → A → bool) (x out : list A) :
  sort.Slice less x = Some out → out ≡ₚ x.
Proof. apply pdqsort_func_perm. Qed.

Lemma Slice_sorted {A : Type} (less : A → A → bool) (x out : list A) :
  sort.Slice less x = Some out → StrictWeakOn less x → SortedBy less out.
Proof.
  intros Hrun Hswo. unfold sort.Slice in Hrun.
  destruct (pdqsort_func_spec less x Hswo _ _ _ _ _ _ _ _ Hrun) as [HK Hs].
  - done.
  - intros k v Hv. by apply (list_elem_of_lookup_2 x k).
  - intros Ha. lia.
  - apply SortedRange_SortedBy. by destruct HK as (-> & _).
Qed.

(** Up to twelve elements [sort.Slice] is an insertion sort, and with
    thirteen it partitions once: there the model always has a result. *)
Lemma Slice_short {A : Type} (less : A → A → bool) (x : list A) :
  (length x ≤ 12)%nat →
  sort.Slice less x = Some (sort.insertionSort_func less x 0 (length x)).
Proof.
  intros Hlen. unfold sort.Slice. destruct (length x) as [|n] eqn:Hn; [done|].
  cbn [sort.pdqsort_func]. rewrite Nat.sub_0_r.
  destruct (Nat.leb_spec (S n) sort.maxInsertion) as [|Hgt]; [done|].
  unfold sort.maxInsertion in Hgt. lia.
Qed.

(** [sort.Slice] as the library runs it and, where the run leaves the
    modelled part of the library, as [S] does it. *)
Definition librarySort (S : SliceSorter) {A : Type} (less : A → A → bool)
    (x : list A) : list A :=
  match sort.Slice less x with
  | Some out => out
  | None => sortSlice S less x
  end.

Lemma librarySort_perm (S : SliceSorter) (A : Type) (less : A → A → bool)
    (x : list A) :
  librarySort S less x ≡ₚ x.
Proof.
  unfold librarySort. destruct (sort.Slice less x) as [out|] eqn:Hrun.
  - by apply (Slice_perm less).
  - apply sortSlice_perm.
Qed.

Lemma librarySort_sorted (S : SliceSorter) (A : Type) (less : A → A → bool)
    (x : list A) :
  StrictWeakOn less x → SortedBy less (librarySort S less x).
Proof.
  intros Hswo. unfold librarySort.
  destruct (sort.Slice less x) as [out|] eqn:Hrun.
  - by apply (Slice_sorted less x).
  - by apply sortSlice_sorted.
Qed.

Definition librarySorter (S : SliceSorter) : SliceSorter :=
  {| sortSlice := @librarySort S;
     sortSlice_perm := librarySort_perm S;
     sortSlice_sorted := librarySort_sorted S |}.

(** Where the run has a result, that is what the sorter returns, whatever
    [S] is. *)
Lemma librarySorter_Slice (S : SliceSorter) (A : Type) (less : A → A → bool)
    (x out : list A) :
  sort.Slice less x = Some out → sortSlice (librarySorter S) less x = out.
Proof. intros Hrun. cbn. unfold librarySort. by rewrite Hrun. Qed.

(** ** Slices *)

Lemma slice_to_Some {A : Type} (s : list A) (limit : Z) :
  0 ≤ limit → slice_to s limit = Some (take (Z.to_nat limit) s).
Proof. intros H. unfold slice_to. destruct (Z.ltb_spec limit 0); [lia|done]. Qed.

End GoFacts.

(* ===================================================================== *)
(** * Facts about [float64] arithmetic                                   *)
(* ===================================================================== *)

(** The operations of [SpecFloat] are followed through their definitions:
    how many binary digits a mantissa has, what the shift to the working
    precision and the rounding do to it, and from there in which range
    the result of a conversion, a division or an addition lies. *)
Module FloatFacts.
Import Go.

(** ** Digits *)

Lemma digits2_pos_log2 p : Zpos (digits2_pos p) = Z.log2 (Zpos p) + 1.
Proof.
  induction p as [p IH|p IH|]; simpl digits2_pos; [| |reflexivity].
  - rewrite Pos2Z.inj_succ, IH.
    change (Zpos p~1) with (2 * Zpos p + 1).
    rewrite Z.log2_succ_double by lia. lia.
  - rewrite Pos2Z.inj_succ, IH.
    change (Zpos p~0) with (2 * Zpos p).
    rewrite Z.log2_double by lia. lia.
Qed.

Lemma Zdigits2_log2 m : 0 < m → Zdigits2 m = Z.log2 m + 1.
Proof. destruct m; try lia. intros _. apply digits2_pos_log2. Qed.

Lemma Zdigits2_bounds m : 0 < m → 2 ^ (Zdigits2 m - 1) ≤ m < 2 ^ Zdigits2 m.
Proof.
  intros Hm. rewrite Zdigits2_log2 by done.
  replace (Z.log2 m + 1 - 1) with (Z.log2 m) by lia.
  replace (Z.log2 m + 1) with (Z.succ (Z.log2 m)) by lia.
  by apply Z.log2_spec.
Qed.

Lemma Zdigits2_pos m : 0 < m → 0 < Zdigits2 m.
Proof. intros Hm. rewrite Zdigits2_log2 by done. pose proof (Z.log2_nonneg m). lia. Qed.

Lemma Zdigits2_mono a b : 0 < a → a ≤ b → Zdigits2 a ≤ Zdigits2 b.
Proof.
  intros Ha Hab. rewrite !Zdigits2_log2 by lia.
  pose proof (Z.log2_le_mono a b Hab). lia.
Qed.

Lemma Zdigits2_shift m n :
  0 < m → 0 ≤ n < Zdigits2 m → 0 < m / 2 ^ n ∧ Zdigits2 (m / 2 ^ n) = Zdigits2 m - n.
Proof.
  intros Hm Hn. rewrite Zdigits2_log2 in Hn by done.
  assert (Hpos : 0 < m / 2 ^ n).
  { apply Z.div_str_pos. split; [lia|].
    transitivity (2 ^ Z.log2 m); [apply Z.pow_le_mono_r; lia|].
    apply Z.log2_spec. lia. }
  split; [done|].
  rewrite !Zdigits2_log2 by done.
  rewrite <- Z.shiftr_div_pow2 by lia.
  rewrite Z.log2_shiftr by done. lia.
Qed.

Lemma Zdigits2_succ m : 0 < m → Zdigits2 m ≤ Zdigits2 (m + 1) ≤ Zdigits2 m + 1.
Proof.
  intros Hm. rewrite !Zdigits2_log2 by lia.
  replace (m + 1) with (Z.succ m) by lia.
  pose proof (Z.log2_le_mono m (Z.succ m)).
  pose proof (Z.log2_succ_le m). lia.
Qed.

Lemma shr_1_div2 mrs : 0 ≤ shr_m mrs → shr_m (shr_1 mrs) = shr_m mrs / 2.
Proof.
  destruct mrs as [m r s]. simpl. intros Hm.
  destruct m as [|[p|p|]|p]; try lia; simpl.
  - reflexivity.
  - change (Zpos p~1) with (2 * Zpos p + 1).
    apply (Z.div_unique _ _ _ 1); lia.
  - change (Zpos p~0) with (2 * Zpos p).
    apply (Z.div_unique _ _ _ 0); lia.
  - reflexivity.
Qed.

Lemma iter_shr_1 p mrs :
  0 ≤ shr_m mrs → shr_m (SpecFloat.iter_pos shr_1 p mrs) = shr_m mrs / 2 ^ Zpos p.
Proof.
  revert mrs. induction p as [p IH|p IH|]; intros mrs Hm; simpl SpecFloat.iter_pos.
  - assert (H1 : 0 ≤ shr_m (shr_1 mrs)).
    { rewrite shr_1_div2 by done. apply Z.div_pos; lia. }
    assert (H2 : 0 ≤ shr_m (SpecFloat.iter_pos shr_1 p (shr_1 mrs))).
    { rewrite IH by done. apply Z.div_pos; lia. }
    rewrite IH, IH, shr_1_div2 by done.
    rewrite !Z.div_div by lia. f_equal.
    replace (Zpos p~1) with (1 + Zpos p + Zpos p) by lia.
    rewrite !Z.pow_add_r by lia. change (2 ^ 1) with 2. lia.
  - assert (H2 : 0 ≤ shr_m (SpecFloat.iter_pos shr_1 p mrs)).
    { rewrite IH by done. apply Z.div_pos; lia. }
    rewrite IH, IH by done.
    rewrite !Z.div_div by lia. f_equal.
    replace (Zpos p~0) with (Zpos p + Zpos p) by lia.
    rewrite !Z.pow_add_r by lia. lia.
  - rewrite shr_1_div2 by done. reflexivity.
Qed.

(** ** Rounding *)

Local Abbreviation fexp64 := (fexp prec64 emax64).

Lemma fexp64_eq k : fexp64 k = Z.max (k - 53) (-1074).
Proof. reflexivity. Qed.

Lemma shr_m_of_loc m l : shr_m (shr_record_of_loc m l) = m.
Proof. by destruct l as [|[]]. Qed.

(** Truncation to the precision keeps a positive mantissa positive and
    the magnitude where it was. *)
Lemma shr_fexp_pos m e l :
  0 < m → -1074 < Zdigits2 m + e →
  ∃ mrs, shr_fexp prec64 emax64 m e l = (mrs, Z.max e (fexp64 (Zdigits2 m + e))) ∧
         0 < shr_m mrs ∧ shr_m mrs ≤ m ∧
         Zdigits2 (shr_m mrs) + Z.max e (fexp64 (Zdigits2 m + e)) = Zdigits2 m + e.
Proof.
  intros Hm Hmag. unfold shr_fexp, shr.
  pose proof (Zdigits2_pos m Hm) as Hd.
  rewrite fexp64_eq in *.
  destruct (Z.max (Zdigits2 m + e - 53) (-1074) - e) as [|p|p] eqn:Hn.
  - eexists. split; [f_equal; lia|]. rewrite shr_m_of_loc.
    repeat split; [done|lia|lia].
  - eexists. split; [f_equal; lia|].
    rewrite iter_shr_1 by (rewrite shr_m_of_loc; lia).
    rewrite shr_m_of_loc.
    destruct (Zdigits2_shift m (Zpos p)) as [Hq Hdq]; [done|lia|].
    repeat split; [done| |lia].
    apply Z.div_le_upper_bound; [lia|].
    assert (1 ≤ 2 ^ Zpos p) by (apply Z.pow_le_mono_r with (b := 0); lia).
    nia.
  - eexists. split; [f_equal; lia|]. rewrite shr_m_of_loc.
    repeat split; [done|lia|lia].
Qed.

Lemma round_nearest_even_bounds m l : m ≤ round_nearest_even m l ≤ m + 1.
Proof. destruct l as [|[]]; simpl; try lia. destruct (Z.even m); lia. Qed.

(** Rounding a positive mantissa above the underflow threshold: the
    result is a number of the given sign, finite if its exponent fits,
    with the magnitude kept or raised by one. *)
Lemma binary_round_aux_pos s m e l :
  0 < m → -1074 < Zdigits2 m + e →
  ∃ m' e',
    binary_round_aux prec64 emax64 s m e l =
      (if e' <=? 971 then S754_finite s m' e' else S754_infinity s) ∧
    Zdigits2 m + e ≤ Zdigits2 (Zpos m') + e' ≤ Zdigits2 m + e + 1 ∧
    fexp64 (Zdigits2 (Zpos m') + e') ≤ e' ∧
    e' ≤ Z.max e (fexp64 (Zdigits2 m + e + 1)).
Proof.
  intros Hm Hmag. unfold binary_round_aux.
  destruct (shr_fexp_pos m e l Hm Hmag) as (mrs & -> & Hpos & _ & Hd).
  set (e1 := Z.max e (fexp64 (Zdigits2 m + e))) in *.
  set (m2 := round_nearest_even (shr_m mrs) (loc_of_shr_record mrs)).
  pose proof (round_nearest_even_bounds (shr_m mrs) (loc_of_shr_record mrs)) as Hr.
  fold m2 in Hr.
  assert (Hm2 : 0 < m2) by lia.
  assert (Hd2 : Zdigits2 (shr_m mrs) ≤ Zdigits2 m2 ≤ Zdigits2 (shr_m mrs) + 1).
  { pose proof (Zdigits2_succ (shr_m mrs) Hpos).
    pose proof (Zdigits2_mono (shr_m mrs) m2 Hpos).
    pose proof (Zdigits2_mono m2 (shr_m mrs + 1) Hm2). lia. }
  destruct (shr_fexp_pos m2 e1 loc_Exact Hm2) as (mrs2 & -> & Hpos2 & _ & Hd3);
    [lia|].
  destruct (shr_m mrs2) as [|m'|] eqn:Hm'; try lia.
  exists m', (Z.max e1 (fexp64 (Zdigits2 m2 + e1))).
  split; [reflexivity|].
  subst e1. rewrite !fexp64_eq in *. repeat split; lia.
Qed.

(** ** Ranges *)

Lemma ranged_weaken s lo hi lo' hi' f :
  lo' ≤ lo → hi ≤ hi' → ranged s lo hi f → ranged s lo' hi' f.
Proof.
  destruct f; simpl; try done.
  intros ?? (? & ? & ?). repeat split; [done|lia..].
Qed.

Lemma binary_round_aux_ranged s m e l :
  0 < m → -1074 < Zdigits2 m + e → Zdigits2 m + e ≤ 1000 → e ≤ 971 →
  ranged s (Zdigits2 m + e) (Zdigits2 m + e + 1)
         (binary_round_aux prec64 emax64 s m e l).
Proof.
  intros Hm Hlo Hhi He.
  destruct (binary_round_aux_pos s m e l Hm Hlo) as (m' & e' & -> & Hmag & Hfe & He').
  rewrite !fexp64_eq in *.
  destruct (Z.leb_spec e' 971); [|lia].
  unfold ranged. repeat split; lia.
Qed.

(** ** Conversion, division, addition *)

Lemma Pos_iter_xO m d : Zpos (Pos.iter xO m d) = Zpos m * 2 ^ Zpos d.
Proof.
  induction d as [|d IH] using Pos.peano_ind.
  - simpl. lia.
  - rewrite Pos.iter_succ, Pos2Z.inj_xO, IH, Pos2Z.inj_succ.
    rewrite Z.pow_succ_r by lia. lia.
Qed.

Lemma Zdigits2_mul_pow2 m k :
  0 < m → 0 ≤ k → Zdigits2 (m * 2 ^ k) = Zdigits2 m + k.
Proof.
  intros Hm Hk.
  assert (0 < 2 ^ k) by (apply Z.pow_pos_nonneg; lia).
  rewrite !Zdigits2_log2 by nia.
  rewrite Z.log2_mul_pow2 by lia. lia.
Qed.

(** A positive [x] has [k] digits exactly when [2^(k-1) <= x < 2^k]. *)
Lemma Zdigits2_le m k : 0 < m → m < 2 ^ k → Zdigits2 m ≤ k.
Proof.
  intros Hm Hlt. rewrite Zdigits2_log2 by done.
  destruct (Z.le_gt_cases 0 k) as [Hk|Hk].
  - apply Z.log2_lt_pow2 in Hlt; lia.
  - rewrite Z.pow_neg_r in Hlt by lia. lia.
Qed.

Lemma Zdigits2_ge m k : 0 < m → 2 ^ k ≤ m → k + 1 ≤ Zdigits2 m.
Proof.
  intros Hm Hle. rewrite Zdigits2_log2 by done.
  destruct (Z.le_gt_cases 0 k) as [Hk|Hk].
  - apply Z.log2_le_pow2 in Hle; lia.
  - pose proof (Z.log2_nonneg m). lia.
Qed.

Lemma shl_align_spec mx ex ex' :
  ∃ mz, shl_align mx ex ex' = (mz, Z.min ex ex') ∧
        Zpos mz = Zpos mx * 2 ^ (ex - Z.min ex ex').
Proof.
  unfold shl_align. destruct (ex' - ex) as [|p|p] eqn:Hd.
  - exists mx. split; [f_equal; lia|].
    replace (ex - Z.min ex ex') with 0 by lia. lia.
  - exists mx. split; [f_equal; lia|].
    replace (ex - Z.min ex ex') with 0 by lia. lia.
  - exists (Pos.iter xO mx p). split; [f_equal; lia|].
    rewrite Pos_iter_xO. f_equal. f_equal. lia.
Qed.

Lemma binary_round_ranged s mx ex :
  -1074 < Zdigits2 (Zpos mx) + ex → Zdigits2 (Zpos mx) + ex ≤ 1000 →
  ranged s (Zdigits2 (Zpos mx) + ex) (Zdigits2 (Zpos mx) + ex + 1)
         (binary_round prec64 emax64 s mx ex).
Proof.
  intros Hlo Hhi. unfold binary_round.
  set (mag := Zdigits2 (Zpos mx) + ex) in *.
  change (Z.pos (digits2_pos mx) + ex) with mag.
  destruct (shl_align_spec mx ex (fexp64 mag)) as (mz & -> & Hmz).
  assert (Hdz : Zdigits2 (Zpos mz) + Z.min ex (fexp64 mag) = mag).
  { rewrite Hmz, Zdigits2_mul_pow2 by lia. subst mag. lia. }
  rewrite <- Hdz at 1 2.
  apply binary_round_aux_ranged; [lia|lia|lia|].
  rewrite fexp64_eq. lia.
Qed.

Lemma float64_of_Z_pos x :
  0 < x → Zdigits2 x ≤ 1000 →
  ranged false (Zdigits2 x) (Zdigits2 x + 1) (float64_of_Z x).
Proof.
  intros Hx Hd. destruct x as [|p|p]; try lia.
  unfold float64_of_Z, binary_normalize.
  pose proof (binary_round_ranged false p 0) as H.
  rewrite !Z.add_0_r in H. apply H; [|done].
  pose proof (Zdigits2_pos (Zpos p)). lia.
Qed.

Lemma float64_of_Z_neg x :
  x < 0 → Zdigits2 x ≤ 1000 →
  ranged true (Zdigits2 x) (Zdigits2 x + 1) (float64_of_Z x).
Proof.
  intros Hx Hd. destruct x as [|p|p]; try lia.
  unfold float64_of_Z, binary_normalize.
  pose proof (binary_round_ranged true p 0) as H.
  rewrite !Z.add_0_r in H. apply H; [|done].
  pose proof (Zdigits2_pos (Zpos p)).
  change (Zdigits2 (Zpos p)) with (Zdigits2 (Zneg p)) in *. lia.
Qed.

(** Division of finite numbers, away from underflow and overflow. *)
Lemma fdiv_ranged sx sy a b c d x y :
  ranged sx a b x → ranged sy c d y →
  -1021 ≤ a - d → b - c ≤ 998 →
  ranged (xorb sx sy) (a - d) (b - c + 2) (fdiv x y).
Proof.
  destruct x as [| | |sx' mx ex]; try done.
  destruct y as [| | |sy' my ey]; try done.
  intros (-> & Hx & Hdx) (-> & Hy & Hdy) Hlo Hhi.
  unfold fdiv, SFdiv, SFdiv_core_binary.
  set (d1 := Zdigits2 (Zpos mx)) in *. set (d2 := Zdigits2 (Zpos my)) in *.
  pose proof (Zdigits2_pos (Zpos mx) eq_refl) as Hd1. fold d1 in Hd1.
  pose proof (Zdigits2_pos (Zpos my) eq_refl) as Hd2. fold d2 in Hd2.
  rewrite fexp64_eq.
  set (e' := Z.min (Z.max (d1 + ex - (d2 + ey) - 53) (-1074)) (ex - ey)).
  assert (He' : e' = d1 + ex - (d2 + ey) - 53) by lia.
  destruct (ex - ey - e') as [|p|p] eqn:Hs; try lia.
  rewrite Z.shiftl_mul_pow2 by lia.
  set (m' := Zpos mx * 2 ^ Zpos p).
  assert (Hm' : 2 ^ (d1 + Zpos p - 1) ≤ m' < 2 ^ (d1 + Zpos p)).
  { pose proof (Zdigits2_bounds (Zpos mx) eq_refl) as Hb. fold d1 in Hb.
    assert (0 < 2 ^ Zpos p) by (apply Z.pow_pos_nonneg; lia).
    subst m'. replace (d1 + Zpos p - 1) with (d1 - 1 + Zpos p) by lia.
    rewrite !Z.pow_add_r by lia. nia. }
  pose proof (Zdigits2_bounds (Zpos my) eq_refl) as Hmy. fold d2 in Hmy.
  destruct (Z.div_eucl m' (Zpos my)) as [q r] eqn:Hqr.
  assert (Hq : q = m' / Zpos my) by (unfold Z.div; by rewrite Hqr).
  set (k := d1 + Zpos p - d2 - 1).
  assert (Hk : 0 ≤ k) by lia.
  assert (Hqlo : 2 ^ k ≤ q).
  { rewrite Hq. apply Z.div_le_lower_bound; [lia|].
    transitivity (2 ^ d2 * 2 ^ k).
    - apply Z.mul_le_mono_nonneg_r; [apply Z.pow_nonneg|]; lia.
    - rewrite <- Z.pow_add_r by lia.
      replace (d2 + k) with (d1 + Zpos p - 1) by lia. lia. }
  assert (Hqhi : q < 2 ^ (k + 2)).
  { rewrite Hq. apply Z.div_lt_upper_bound; [lia|].
    apply Z.lt_le_trans with (2 ^ (d2 - 1) * 2 ^ (k + 2)).
    - rewrite <- Z.pow_add_r by lia.
      replace (d2 - 1 + (k + 2)) with (d1 + Zpos p) by lia. lia.
    - apply Z.mul_le_mono_nonneg_r; [apply Z.pow_nonneg|]; lia. }
  assert (Hq0 : 0 < q).
  { assert (0 < 2 ^ k) by (apply Z.pow_pos_nonneg; lia). lia. }
  pose proof (Zdigits2_ge q k Hq0 Hqlo) as Hdq1.
  pose proof (Zdigits2_le q (k + 2) Hq0 Hqhi) as Hdq2.
  eapply ranged_weaken; [| |apply binary_round_aux_ranged]; lia.
Qed.

(** Addition of finite numbers of one sign, away from overflow. *)
Lemma fadd_ranged s a b c d x y :
  ranged s a b x → ranged s c d y →
  -1074 < Z.max a c → Z.max b d ≤ 998 →
  ranged s (Z.max a c) (Z.max b d + 2) (fadd x y).
Proof.
  destruct x as [| | |sx mx ex]; try done.
  destruct y as [| | |sy my ey]; try done.
  intros (-> & Hx & Hdx) (-> & Hy & Hdy) Hlo Hhi.
  unfold fadd, SFadd.
  set (ez := Z.min ex ey).
  destruct (shl_align_spec mx ex ez) as (ax & -> & Hax).
  destruct (shl_align_spec my ey ez) as (ay & -> & Hay).
  simpl fst.
  replace (Z.min ex ez) with ez in Hax by lia.
  replace (Z.min ey ez) with ez in Hay by lia.
  assert (Hsum : cond_Zopp s (Zpos ax) + cond_Zopp s (Zpos ay)
                 = cond_Zopp s (Zpos (ax + ay))) by (destruct s; simpl; lia).
  rewrite Hsum.
  assert (Hnorm : binary_normalize prec64 emax64 (cond_Zopp s (Zpos (ax + ay))) ez false
                  = binary_round prec64 emax64 s (ax + ay) ez) by by destruct s.
  rewrite Hnorm.
  pose proof (Zdigits2_mul_pow2 (Zpos mx) (ex - ez) eq_refl ltac:(lia)) as Hda.
  pose proof (Zdigits2_mul_pow2 (Zpos my) (ey - ez) eq_refl ltac:(lia)) as Hdb.
  rewrite <- Hax in Hda. rewrite <- Hay in Hdb.
  pose proof (Zdigits2_bounds (Zpos ax) eq_refl) as Hba.
  pose proof (Zdigits2_bounds (Zpos ay) eq_refl) as Hbb.
  set (da := Zdigits2 (Zpos ax)) in *. set (db := Zdigits2 (Zpos ay)) in *.
  pose proof (Zdigits2_pos (Zpos mx) eq_refl).
  pose proof (Zdigits2_pos (Zpos my) eq_refl).
  assert (Hlo1 : Z.max da db ≤ Zdigits2 (Zpos (ax + ay))).
  { pose proof (Zdigits2_mono (Zpos ax) (Zpos (ax + ay)) eq_refl ltac:(lia))
      as Hma.
    pose proof (Zdigits2_mono (Zpos ay) (Zpos (ax + ay)) eq_refl ltac:(lia))
      as Hmb.
    fold da in Hma. fold db in Hmb. lia. }
  assert (Hhi1 : Zdigits2 (Zpos (ax + ay)) ≤ Z.max da db + 1).
  { apply Zdigits2_le; [done|].
    assert (2 ^ da ≤ 2 ^ Z.max da db) by (apply Z.pow_le_mono_r; lia).
    assert (2 ^ db ≤ 2 ^ Z.max da db) by (apply Z.pow_le_mono_r; lia).
    rewrite Z.pow_add_r by lia. change (2 ^ 1) with 2.
    rewrite Pos2Z.inj_add. lia. }
  eapply ranged_weaken; [| |apply binary_round_ranged]; lia.
Qed.

Lemma fadd_zero_l s m e : fadd (S754_zero false) (S754_finite s m e) = S754_finite s m e.
Proof. reflexivity. Qed.

Lemma fadd_zero_r s m e : fadd (S754_finite s m e) (S754_zero false) = S754_finite s m e.
Proof. reflexivity. Qed.

(** Comparisons of a finite number in a known range. *)
Lemma ranged_pos_fle_f0 lo hi f : ranged false lo hi f → fle f f0 = false.
Proof. by destruct f as [| | |[] ? ?]; simpl; try intros (? & _). Qed.

Lemma ranged_neg_fle_f0 lo hi f : ranged true lo hi f → fle f f0 = true.
Proof. by destruct f as [| | |[] ? ?]; simpl; try intros (? & _). Qed.

Lemma ranged_fgt lo hi f mc ec :
  ranged false lo hi f → ec < lo - 53 → fgt f (S754_finite false mc ec) = true.
Proof.
  destruct f as [| | |s m e]; simpl; try done.
  intros (-> & Hmag & Hd) Hec. unfold fgt, SFltb. simpl.
  destruct (Z.compare_spec ec e); [lia|done|lia].
Qed.

Lemma ranged_ge_pow2 lo hi f k :
  ranged false lo hi f → k < lo → fle (pow2 k) f = true.
Proof.
  destruct f as [| | |s m e]; [intros []..|]. unfold ranged.
  intros (-> & Hmag & Hd) Hk. unfold fle, SFleb, pow2, SFcompare.
  destruct (Z.compare_spec (k - 52) e) as [Heq|Hlt|Hgt]; [|done|lia].
  assert (Hm : 2 ^ 52 ≤ Zpos m).
  { pose proof (Zdigits2_bounds (Zpos m) eq_refl) as [Hb _].
    etransitivity; [|exact Hb]. apply Z.pow_le_mono_r; lia. }
  change (Pos.compare_cont Eq 4503599627370496%positive m)
    with (Pos.compare 4503599627370496%positive m).
  destruct (Pos.compare_spec 4503599627370496%positive m) as [H1|H1|H1]; [done|done|].
  change (2 ^ 52) with 4503599627370496 in Hm.
  apply Pos2Z.pos_lt_pos in H1. clear - H1 Hm. lia.
Qed.

(** ** Elapsed time *)

Lemma f1e9_ranged : ranged false 30 30 f1e9.
Proof. vm_compute. repeat split; discriminate. Qed.

Lemma f1024_ranged : ranged false 11 11 f1024.
Proof. vm_compute. repeat split; discriminate. Qed.

Lemma f0_1_eq : f0_1 = S754_finite false 7205759403792794 (-56).
Proof. reflexivity. Qed.

(** A positive duration is a positive number of seconds, below [2^37]. *)
Lemma Seconds_pos d : 0 < d < 2 ^ 63 → ranged false (-29) 37 (Seconds d).
Proof.
  intros Hd. unfold Seconds, quot, rem, Second.
  rewrite Z.quot_div_nonneg, Z.rem_mod_nonneg by lia.
  pose proof (Z.div_mod d 1000000000 ltac:(lia)) as Hdm.
  pose proof (Z.mod_pos_bound d 1000000000 ltac:(lia)) as Hmod.
  assert (Hsec : 0 ≤ d / 1000000000 < 2 ^ 34).
  { split; [apply Z.div_pos; lia|].
    apply Z.div_lt_upper_bound; [lia|]. change (2 ^ 63) with 9223372036854775808 in Hd.
    change (2 ^ 34) with 17179869184. lia. }
  set (sec := d / 1000000000) in *. set (nsec := d mod 1000000000) in *.
  assert (Hfrac : 0 < nsec → ranged false (-29) 3 (fdiv (float64_of_Z nsec) f1e9)).
  { intros Hn.
    assert (Hdn : 1 ≤ Zdigits2 nsec ≤ 30).
    { split; [pose proof (Zdigits2_pos nsec Hn); lia|].
      apply Zdigits2_le; [done|]. change (2 ^ 30) with 1073741824. lia. }
    pose proof (float64_of_Z_pos nsec Hn ltac:(lia)) as Hf.
    assert (Hf' : ranged false 1 31 (float64_of_Z nsec))
      by (eapply ranged_weaken; [| |exact Hf]; lia).
    pose proof (fdiv_ranged false false 1 31 30 30 _ _ Hf' f1e9_ranged
                  ltac:(lia) ltac:(lia)) as Hq.
    eapply ranged_weaken; [| |exact Hq]; lia. }
  assert (Hwhole : 0 < sec → ranged false 1 35 (float64_of_Z sec)).
  { intros Hs.
    assert (Hds : 1 ≤ Zdigits2 sec ≤ 34).
    { split; [pose proof (Zdigits2_pos sec Hs); lia|].
      apply Zdigits2_le; lia. }
    pose proof (float64_of_Z_pos sec Hs ltac:(lia)) as Hf.
    eapply ranged_weaken; [| |exact Hf]; lia. }
  destruct (Z.eq_dec sec 0) as [Hs0|Hs0]; destruct (Z.eq_dec nsec 0) as [Hn0|Hn0].
  - lia.
  - rewrite Hs0. change (float64_of_Z 0) with (S754_zero false).
    specialize (Hfrac ltac:(lia)).
    destruct (fdiv (float64_of_Z nsec) f1e9) as [| | |s m e]; try done.
    rewrite fadd_zero_l. eapply ranged_weaken; [| |exact Hfrac]; lia.
  - rewrite Hn0. change (fdiv (float64_of_Z 0) f1e9) with (S754_zero false).
    specialize (Hwhole ltac:(lia)).
    destruct (float64_of_Z sec) as [| | |s m e]; try done.
    rewrite fadd_zero_r. eapply ranged_weaken; [| |exact Hwhole]; lia.
  - eapply ranged_weaken;
      [| |apply (fadd_ranged false 1 35 (-29) 3 _ _
                   (Hwhole ltac:(lia)) (Hfrac ltac:(lia)))]; lia.
Qed.

(** A duration that is not positive is not a positive number of seconds. *)
Lemma Seconds_nonpos d : - 2 ^ 63 ≤ d ≤ 0 → fle (Seconds d) f0 = true.
Proof.
  intros Hd. unfold Seconds, quot, rem, Second.
  destruct (Z.eq_dec d 0) as [->|Hd0]; [reflexivity|].
  replace d with (- - d) by lia.
  rewrite Z.quot_opp_l, Z.rem_opp_l by lia.
  rewrite Z.quot_div_nonneg, Z.rem_mod_nonneg by lia.
  pose proof (Z.div_mod (- d) 1000000000 ltac:(lia)) as Hdm.
  pose proof (Z.mod_pos_bound (- d) 1000000000 ltac:(lia)) as Hmod.
  assert (Hsec : 0 ≤ - d / 1000000000 < 2 ^ 34).
  { split; [apply Z.div_pos; lia|].
    apply Z.div_lt_upper_bound; [lia|]. change (2 ^ 63) with 9223372036854775808 in Hd.
    change (2 ^ 34) with 17179869184. lia. }
  set (sec := - d / 1000000000) in *. set (nsec := - d mod 1000000000) in *.
  assert (Hfrac : 0 < nsec → ranged true (-29) 3 (fdiv (float64_of_Z (- nsec)) f1e9)).
  { intros Hn.
    assert (Hdn : 1 ≤ Zdigits2 (- nsec) ≤ 30).
    { replace (Zdigits2 (- nsec)) with (Zdigits2 nsec) by by destruct nsec.
      split; [pose proof (Zdigits2_pos nsec Hn); lia|].
      apply Zdigits2_le; [done|]. change (2 ^ 30) with 1073741824. lia. }
    pose proof (float64_of_Z_neg (- nsec) ltac:(lia) ltac:(lia)) as Hf.
    assert (Hf' : ranged true 1 31 (float64_of_Z (- nsec)))
      by (eapply ranged_weaken; [| |exact Hf]; lia).
    pose proof (fdiv_ranged true false 1 31 30 30 _ _ Hf' f1e9_ranged
                  ltac:(lia) ltac:(lia)) as Hq.
    eapply ranged_weaken; [| |exact Hq]; lia. }
  assert (Hwhole : 0 < sec → ranged true 1 35 (float64_of_Z (- sec))).
  { intros Hs.
    assert (Hds : 1 ≤ Zdigits2 (- sec) ≤ 34).
    { replace (Zdigits2 (- sec)) with (Zdigits2 sec) by by destruct sec.
      split; [pose proof (Zdigits2_pos sec Hs); lia|].
      apply Zdigits2_le; lia. }
    pose proof (float64_of_Z_neg (- sec) ltac:(lia) ltac:(lia)) as Hf.
    eapply ranged_weaken; [| |exact Hf]; lia. }
  destruct (Z.eq_dec sec 0) as [Hs0|Hs0]; destruct (Z.eq_dec nsec 0) as [Hn0|Hn0].
  - lia.
  - rewrite Hs0. change (float64_of_Z (- 0)) with (S754_zero false).
    specialize (Hfrac ltac:(lia)).
    destruct (fdiv (float64_of_Z (- nsec)) f1e9) as [| | |s m e]; try done.
    rewrite fadd_zero_l. by apply ranged_neg_fle_f0 in Hfrac.
  - rewrite Hn0. change (fdiv (float64_of_Z (- 0)) f1e9) with (S754_zero false).
    specialize (Hwhole ltac:(lia)).
    destruct (float64_of_Z (- sec)) as [| | |s m e]; try done.
    rewrite fadd_zero_r. by apply ranged_neg_fle_f0 in Hwhole.
  - eapply ranged_neg_fle_f0.
    apply (fadd_ranged true 1 35 (-29) 3 _ _
             (Hwhole ltac:(lia)) (Hfrac ltac:(lia))); lia.
Qed.

Lemma int64_range x : - 2 ^ 63 ≤ int64 x < 2 ^ 63.
Proof. unfold int64. pose proof (Z.mod_pos_bound (x + 2 ^ 63) (2 ^ 64)). lia. Qed.

Lemma Sub_range t u : - 2 ^ 63 ≤ Sub t u < 2 ^ 63.
Proof.
  unfold Sub, maxInt64, minInt64.
  pose proof (int64_range (t - u)).
  repeat case_match; lia.
Qed.


(** ** Whole numbers and fractions *)

(** Truncation to the precision divides the mantissa by a power of two. *)
Lemma shr_fexp_div m e l :
  0 < m →
  ∃ mrs, shr_fexp prec64 emax64 m e l = (mrs, Z.max e (fexp64 (Zdigits2 m + e))) ∧
         shr_m mrs = m / 2 ^ (Z.max e (fexp64 (Zdigits2 m + e)) - e) ∧
         (fexp64 (Zdigits2 m + e) ≤ e → mrs = shr_record_of_loc m l).
Proof.
  intros Hm. unfold shr_fexp, shr.
  destruct (fexp64 (Zdigits2 m + e) - e) as [|p|p] eqn:Hn.
  - eexists. split; [f_equal; lia|]. rewrite shr_m_of_loc.
    replace (Z.max e (fexp64 (Zdigits2 m + e)) - e) with 0 by lia.
    by rewrite Z.div_1_r.
  - eexists. split; [f_equal; lia|].
    rewrite iter_shr_1 by (rewrite shr_m_of_loc; lia).
    rewrite shr_m_of_loc. split; [|lia]. do 2 f_equal. lia.
  - eexists. split; [f_equal; lia|]. rewrite shr_m_of_loc.
    replace (Z.max e (fexp64 (Zdigits2 m + e)) - e) with 0 by lia.
    by rewrite Z.div_1_r.
Qed.

(** A mantissa that fits the precision is kept as it is. *)
Lemma binary_round_aux_exact s m e :
  fexp64 (Zdigits2 (Zpos m) + e) ≤ e → e ≤ 971 →
  binary_round_aux prec64 emax64 s (Zpos m) e loc_Exact = S754_finite s m e.
Proof.
  intros Hfit He. unfold binary_round_aux.
  destruct (shr_fexp_div (Zpos m) e loc_Exact eq_refl) as (mrs & Hshr & _ & Hmrs).
  rewrite (Hmrs Hfit) in Hshr. rewrite Hshr.
  cbn [shr_record_of_loc shr_m loc_of_shr_record round_nearest_even].
  replace (Z.max e (fexp64 (Zdigits2 (Zpos m) + e))) with e by lia.
  rewrite Hshr.
  replace (Z.max e (fexp64 (Zdigits2 (Zpos m) + e))) with e by lia.
  cbn [shr_m]. destruct (Z.leb_spec e (emax64 - prec64)); [done|].
  unfold emax64, prec64 in *. lia.
Qed.

(** Rounding a positive mantissa: the result is the mantissa divided by a
    power of two, or one more. *)
Lemma binary_round_aux_div s m e l :
  0 < m → -1074 < Zdigits2 m + e →
  ∃ m' e',
    binary_round_aux prec64 emax64 s m e l =
      (if e' <=? 971 then S754_finite s m' e' else S754_infinity s) ∧
    e ≤ e' ≤ Z.max e (fexp64 (Zdigits2 m + e + 1)) ∧
    m / 2 ^ (e' - e) ≤ Zpos m' ≤ m / 2 ^ (e' - e) + 1.
Proof.
  intros Hm Hmag. unfold binary_round_aux.
  destruct (shr_fexp_pos m e l Hm Hmag) as (mrs & Hshr & Hpos & _ & Hd).
  destruct (shr_fexp_div m e l Hm) as (mrs' & Hshr' & Hdiv & _).
  rewrite Hshr in Hshr'. injection Hshr' as <-. rewrite Hshr.
  set (e1 := Z.max e (fexp64 (Zdigits2 m + e))) in *.
  set (m2 := round_nearest_even (shr_m mrs) (loc_of_shr_record mrs)).
  pose proof (round_nearest_even_bounds (shr_m mrs) (loc_of_shr_record mrs)) as Hr.
  fold m2 in Hr.
  assert (Hm2 : 0 < m2) by lia.
  assert (Hd2 : Zdigits2 (shr_m mrs) ≤ Zdigits2 m2 ≤ Zdigits2 (shr_m mrs) + 1).
  { pose proof (Zdigits2_succ (shr_m mrs) Hpos).
    pose proof (Zdigits2_mono (shr_m mrs) m2 Hpos).
    pose proof (Zdigits2_mono m2 (shr_m mrs + 1) Hm2). lia. }
  destruct (shr_fexp_pos m2 e1 loc_Exact Hm2) as (mrs2 & Hshr2 & Hpos2 & _ & Hd3);
    [lia|].
  destruct (shr_fexp_div m2 e1 loc_Exact Hm2) as (mrs2' & Hshr2' & Hdiv2 & _).
  rewrite Hshr2 in Hshr2'. injection Hshr2' as <-. rewrite Hshr2.
  set (e2 := Z.max e1 (fexp64 (Zdigits2 m2 + e1))) in *.
  destruct (shr_m mrs2) as [|m'|] eqn:Hm'; try lia.
  exists m', e2. split; [reflexivity|].
  assert (He12 : e ≤ e1 ≤ e2) by lia.
  split; [subst e1 e2; rewrite !fexp64_eq in *; lia|].
  assert (Hp1 : 0 < 2 ^ (e1 - e)) by (apply Z.pow_pos_nonneg; lia).
  assert (Hp2 : 0 < 2 ^ (e2 - e1)) by (apply Z.pow_pos_nonneg; lia).
  replace (e2 - e) with ((e1 - e) + (e2 - e1)) by lia.
  rewrite Z.pow_add_r, <- Z.div_div by lia.
  rewrite <- Hdiv. rewrite Hdiv2. split.
  - apply Z.div_le_mono; lia.
  - transitivity ((shr_m mrs + 1) / 2 ^ (e2 - e1)).
    + apply Z.div_le_mono; lia.
    + assert (H1 : shr_m mrs + 1 ≤ shr_m mrs + 1 * 2 ^ (e2 - e1)) by lia.
      apply (Z.div_le_mono _ _ (2 ^ (e2 - e1))) in H1; [|lia].
      rewrite Z.div_add in H1 by lia. exact H1.
Qed.

(** An integer below [2^53] is converted exactly. *)
Lemma float64_of_Z_exact h :
  0 < h < 2 ^ 53 →
  ∃ m e, float64_of_Z h = S754_finite false m e ∧ e ≤ 0 ∧ Zpos m = h * 2 ^ (- e).
Proof.
  intros Hh. destruct h as [|p|p]; try lia.
  unfold float64_of_Z, binary_normalize, binary_round.
  set (mag := Zdigits2 (Zpos p) + 0).
  change (Z.pos (digits2_pos p) + 0) with mag.
  assert (Hmag : 1 ≤ mag ≤ 53).
  { subst mag. pose proof (Zdigits2_pos (Zpos p) eq_refl).
    pose proof (Zdigits2_le (Zpos p) 53 eq_refl ltac:(lia)). lia. }
  destruct (shl_align_spec p 0 (fexp64 mag)) as (mz & -> & Hmz).
  rewrite fexp64_eq in *.
  replace (Z.min 0 (Z.max (mag - 53) (-1074))) with (mag - 53) in * by lia.
  assert (Hdz : Zdigits2 (Zpos mz) + (mag - 53) = mag).
  { rewrite Hmz, Zdigits2_mul_pow2 by lia. subst mag. lia. }
  rewrite binary_round_aux_exact; [|rewrite Hdz, fexp64_eq; lia|lia].
  exists mz, (mag - 53). split; [done|]. split; [lia|].
  rewrite Hmz. f_equal; f_equal; lia.
Qed.

(** A number that is zero or a fraction below [1 - 2^-13], with a
    mantissa at the precision. *)
Definition Fraction (q : spec_float) : Prop :=
  q = S754_zero false ∨
  ∃ m e, q = S754_finite false m e ∧ e ≤ -14 ∧
         Zpos m * 2 ^ 13 ≤ (2 ^ 13 - 1) * 2 ^ (- e).

Definition fraction (q : spec_float) : bool :=
  match q with
  | S754_zero false => true
  | S754_finite false m e =>
      (e <=? -14) && (Zpos m * 2 ^ 13 <=? (2 ^ 13 - 1) * 2 ^ (- e))
  | _ => false
  end.

Lemma fraction_Fraction q : fraction q = true → Fraction q.
Proof.
  destruct q as [[]| | |[] m e]; try done; [by left|].
  intros [He Hm]%andb_true_iff. right. exists m, e.
  apply Z.leb_le in He, Hm. done.
Qed.

(** The arithmetic of [whole_plus_fraction]: [mz] is [h] and a fraction
    [Y], both scaled by [P * B]; dividing by [B], perhaps adding one, and
    dividing by [P] gives [h]. *)
Lemma whole_plus_fraction_core h P B Y mz m' :
  0 ≤ h → 16384 ≤ P → 0 < B → 0 ≤ Y →
  mz = h * (P * B) + Y →
  Y * 8192 ≤ 8191 * (P * B) →
  mz / B ≤ m' ≤ mz / B + 1 →
  m' / P = h.
Proof.
  intros Hh HP HB HY Hmz HYle Hm'.
  assert (HPB : 0 < P * B) by nia.
  assert (Hlow : h * P * B ≤ mz) by nia.
  assert (Hhigh : mz + B < (h + 1) * P * B) by nia.
  assert (Hq1 : h * P ≤ mz / B) by (apply Z.div_le_lower_bound; lia).
  assert (Hq2 : mz / B < (h + 1) * P - 1).
  { apply Z.div_lt_upper_bound; [lia|]. nia. }
  symmetry. apply (Z.div_unique _ _ _ (m' - h * P)); lia.
Qed.

(** The sum of a whole number and a fraction, truncated, is the whole
    number. *)
Lemma whole_plus_fraction h q :
  0 ≤ h < 2 ^ 37 → Fraction q →
  int_of_float64 (fadd (float64_of_Z h) q) = Some h.
Proof.
  intros Hh Hq.
  assert (Hfits : ∀ z, 0 ≤ z < 2 ^ 37 →
            (if (minInt64 <=? z) && (z <=? maxInt64) then Some z else None) = Some z).
  { intros z Hz. unfold minInt64, maxInt64.
    destruct (Z.leb_spec (- 2 ^ 63) z); [|lia].
    destruct (Z.leb_spec z (2 ^ 63 - 1)); [done|lia]. }
  destruct (Z.eq_dec h 0) as [->|Hh0].
  - change (float64_of_Z 0) with (S754_zero false).
    destruct Hq as [->|(mq & eq & -> & He & Hm)]; [done|].
    rewrite fadd_zero_l. unfold int_of_float64.
    destruct (Z.leb_spec 0 eq); [lia|]. cbn [cond_Zopp].
    assert (Hp : 0 < 2 ^ (- eq)) by (apply Z.pow_pos_nonneg; lia).
    rewrite Z.div_small by lia. by apply Hfits.
  - destruct (float64_of_Z_exact h) as (mh & eh & -> & Heh & Hmh); [lia|].
    assert (Hph : 0 < 2 ^ (- eh)) by (apply Z.pow_pos_nonneg; lia).
    destruct Hq as [->|(mq & eq & -> & He & Hm)].
    + rewrite fadd_zero_r. unfold int_of_float64. cbn [cond_Zopp].
      destruct (Z.leb_spec 0 eh).
      * replace eh with 0 in * by lia. change (2 ^ (- 0)) with 1 in Hmh.
        change (2 ^ 0) with 1. rewrite Z.mul_1_r, Hmh, Z.mul_1_r. by apply Hfits.
      * rewrite Hmh, Z.div_mul by lia. by apply Hfits.
    + unfold fadd, SFadd.
      set (ez := Z.min eh eq).
      destruct (shl_align_spec mh eh ez) as (ax & -> & Hax).
      destruct (shl_align_spec mq eq ez) as (ay & -> & Hay).
      cbn [fst cond_Zopp].
      replace (Z.min eh ez) with ez in Hax by lia.
      replace (Z.min eq ez) with ez in Hay by lia.
      change (Zpos ax + Zpos ay) with (Zpos (ax + ay)).
      unfold binary_normalize, binary_round.
      set (mag := Zdigits2 (Zpos (ax + ay)) + ez).
      change (Z.pos (digits2_pos (ax + ay)) + ez) with mag.
      destruct (shl_align_spec (ax + ay) ez (fexp64 mag)) as (mz & -> & Hmz).
      set (e0 := Z.min ez (fexp64 mag)) in *.
      assert (He0 : e0 = Z.min ez (Z.max (mag - 53) (-1074))) by reflexivity.
      clearbody e0.
      (* the sum, scaled to the exponent [e0] *)
      assert (Hpz : 0 < 2 ^ (- ez)) by (apply Z.pow_pos_nonneg; lia).
      assert (Hax' : Zpos ax = h * 2 ^ (- ez)).
      { rewrite Hax, Hmh, <- Z.mul_assoc, <- Z.pow_add_r by lia.
        do 2 f_equal. lia. }
      assert (Hay' : Zpos ay * 8192 ≤ 8191 * 2 ^ (- ez)).
      { assert (Hs : 0 < 2 ^ (eq - ez)) by (apply Z.pow_pos_nonneg; lia).
        assert (Hsplit : 2 ^ (- ez) = 2 ^ (- eq) * 2 ^ (eq - ez))
          by (rewrite <- Z.pow_add_r by lia; f_equal; lia).
        rewrite Hay, Hsplit. change (2 ^ 13) with 8192 in Hm.
        clear - Hm Hs. nia. }
      assert (Hsum : Zpos (ax + ay) < (h + 1) * 2 ^ (- ez)).
      { rewrite Pos2Z.inj_add, Hax'. clear - Hay' Hpz. lia. }
      assert (Hmagle : mag ≤ 37).
      { subst mag.
        assert (Zdigits2 (Zpos (ax + ay)) ≤ 37 - ez); [|lia].
        apply Zdigits2_le; [done|].
        replace (37 - ez) with (37 + - ez) by lia.
        rewrite Z.pow_add_r by lia.
        apply Z.lt_le_trans with ((h + 1) * 2 ^ (- ez)); [exact Hsum|].
        apply Z.mul_le_mono_nonneg_r; [lia|]. clear - Hh. lia. }
      assert (Hmagge : -1074 < mag).
      { subst mag.
        pose proof (Zdigits2_mono (Zpos ax) (Zpos (ax + ay)) eq_refl ltac:(lia)).
        assert (- ez + 1 ≤ Zdigits2 (Zpos ax)); [|lia].
        apply Zdigits2_ge; [done|]. rewrite Hax'. clear - Hh Hh0 Hpz. nia. }
      assert (Hdz : Zdigits2 (Zpos mz) + e0 = mag).
      { rewrite Hmz, Zdigits2_mul_pow2 by lia. subst mag. lia. }
      destruct (binary_round_aux_div false (Zpos mz) e0 loc_Exact eq_refl)
        as (m' & e' & -> & He' & Hm'); [lia|].
      rewrite Hdz, fexp64_eq in He'.
      destruct (Z.leb_spec e' 971); [|lia].
      unfold int_of_float64.
      destruct (Z.leb_spec 0 e') as [Hge'|Hneg']; [lia|]. cbn [cond_Zopp].
      (* the powers of two involved *)
      assert (HP : 16384 ≤ 2 ^ (- e')).
      { change 16384 with (2 ^ 14). apply Z.pow_le_mono_r; [done|].
        clear - He' He0 Hmagle He. lia. }
      assert (He01 : e0 ≤ ez ∧ e0 ≤ e') by (clear - He' He0; lia).
      assert (HB : 0 < 2 ^ (e' - e0)) by (apply Z.pow_pos_nonneg; lia).
      assert (HS : 0 < 2 ^ (ez - e0)) by (apply Z.pow_pos_nonneg; lia).
      assert (HA : 2 ^ (- ez) * 2 ^ (ez - e0) = 2 ^ (- e') * 2 ^ (e' - e0)).
      { rewrite <- !Z.pow_add_r by (clear - He01 Hneg' Heh He; lia).
        f_equal. clear. lia. }
      assert (Hres : Zpos m' / 2 ^ (- e') = h).
      { apply (whole_plus_fraction_core h _ (2 ^ (e' - e0))
                 (Zpos ay * 2 ^ (ez - e0)) (Zpos mz)).
        - clear - Hh. lia.
        - exact HP.
        - exact HB.
        - clear - HS. lia.
        - rewrite Hmz, Pos2Z.inj_add, Hax', <- HA. ring.
        - rewrite <- HA. clear - Hay' HS. nia.
        - exact Hm'. }
      rewrite Hres. by apply Hfits.
Qed.

(** The fractions of an hour and of a minute that whole seconds make. *)
Definition hourFraction (r : Z) : float64 :=
  fdiv (float64_of_Z (r * Second)) (float64_of_Z (60 * 60 * 1000000000)).

Definition minuteFraction (r : Z) : float64 :=
  fdiv (float64_of_Z (r * Second)) (float64_of_Z (60 * 1000000000)).

Lemma fractions_checked :
  forallb (λ r, fraction (hourFraction (Z.of_nat r))) (seq 0 3600) = true ∧
  forallb (λ r, fraction (minuteFraction (Z.of_nat r))) (seq 0 60) = true.
Proof. split; vm_compute; reflexivity. Qed.

Lemma hourFraction_Fraction r : 0 ≤ r < 3600 → Fraction (hourFraction r).
Proof.
  intros Hr. destruct fractions_checked as [Hall _].
  rewrite forallb_forall in Hall. apply fraction_Fraction.
  rewrite <- (Z2Nat.id r) by lia. apply Hall. apply in_seq. lia.
Qed.

Lemma minuteFraction_Fraction r : 0 ≤ r < 60 → Fraction (minuteFraction r).
Proof.
  intros Hr. destruct fractions_checked as [_ Hall].
  rewrite forallb_forall in Hall. apply fraction_Fraction.
  rewrite <- (Z2Nat.id r) by lia. apply Hall. apply in_seq. lia.
Qed.

(** A whole number of seconds, as hours and as minutes. *)
Lemma Hours_whole_seconds s :
  0 ≤ s < 2 ^ 37 →
  int_of_float64 (Hours (s * Second)) = Some (s / 3600).
Proof.
  intros Hs. unfold Hours, quot, rem, Hour, Minute, Second.
  rewrite Z.quot_div_nonneg, Z.rem_mod_nonneg by lia.
  replace (60 * (60 * 1000000000)) with (3600 * 1000000000) by lia.
  rewrite Z.div_mul_cancel_r by lia.
  rewrite Zmult_mod_distr_r.
  pose proof (Z.mod_pos_bound s 3600 ltac:(lia)) as Hr.
  apply (whole_plus_fraction (s / 3600) (hourFraction (s mod 3600))).
  - split; [apply Z.div_pos; lia|].
    apply Z.div_lt_upper_bound; lia.
  - by apply hourFraction_Fraction.
Qed.

Lemma Minutes_whole_seconds s :
  0 ≤ s < 2 ^ 37 →
  int_of_float64 (Minutes (s * Second)) = Some (s / 60).
Proof.
  intros Hs. unfold Minutes, quot, rem, Minute, Second.
  rewrite Z.quot_div_nonneg, Z.rem_mod_nonneg by lia.
  rewrite Z.div_mul_cancel_r by lia.
  rewrite Zmult_mod_distr_r.
  pose proof (Z.mod_pos_bound s 60 ltac:(lia)) as Hr.
  apply (whole_plus_fraction (s / 60) (minuteFraction (s mod 60))).
  - split; [apply Z.div_pos; lia|].
    apply Z.div_lt_upper_bound; lia.
  - by apply minuteFraction_Fraction.
Qed.

End FloatFacts.

(* ===================================================================== *)
(** * The ranking engine ([internal/processes.go])                       *)
(* ===================================================================== *)

Module ProcessesSpec.
Import Go GoFacts Processes.

(** ** Byte strings *)

Lemma length_append (s t : string) :
  String.length (s +:+ t) = (String.length s + String.length t)%nat.
Proof. induction s as [|c s IH]; simpl; [done|]. by rewrite IH. Qed.

Lemma length_substring_0 (m : nat) (s : string) :
  String.length (String.substring 0 m s) = (m `min` String.length s)%nat.
Proof.
  revert s. induction m as [|m IH]; intros [|c s]; simpl; try done.
  by rewrite IH.
Qed.

Lemma substring_0_append (s t : string) :
  String.substring 0 (String.length s) (s +:+ t) = s.
Proof. induction s as [|c s IH]; simpl; [by destruct t|]. by rewrite IH. Qed.

(** ** Vocabulary of the ranking claims *)

(** The two metric selectors, the string each one is, and the field it
    selects. *)
Inductive Metric : Type := ByCPU | ByMemory.

Definition selector (m : Metric) : string :=
  match m with ByCPU => "cpu" | ByMemory => "memory" end.

Definition metricOf (m : Metric) (p : ProcessInfo) : spec_float :=
  match m with ByCPU => CPUPercent p | ByMemory => MemPercent p end.

Definition lessOf (m : Metric) : ProcessInfo → ProcessInfo → bool :=
  match m with ByCPU => byCPU | ByMemory => byMemory end.

(** Sorted descending: every element's metric is at least that of every
    element after it. *)
Definition Descending (m : Metric) (out : list ProcessInfo) : Prop :=
  StronglySorted (λ a b, fle (metricOf m b) (metricOf m a) = true) out.

(** [x] occurs before [y] in [l]. *)
Definition Before {A : Type} (x y : A) (l : list A) : Prop :=
  ∃ l1 l2 l3, l = l1 ++ x :: l2 ++ y :: l3.

(** Stable ties: elements of [out] with equal metric values are in the
    order they had in [P]. *)
Definition TiesKeepOrder (m : Metric) (P out : list ProcessInfo) : Prop :=
  ∀ a b, Before a b out → SFeqb (metricOf m a) (metricOf m b) = true →
         Before a b P.

(** The ranking claim in full, ties included. *)
Definition StableTopN (S : SliceSorter) (P : list ProcessInfo) (m : Metric)
    (n : Z) : Prop :=
  ∃ out, getTopProcesses S P (selector m) n = Some out ∧
         length out = (Z.to_nat n `min` length P)%nat ∧
         Descending m out ∧
         TiesKeepOrder m P out.

(** ** Ranking *)

Lemma getTopProcesses_selector S P m n :
  getTopProcesses S P (selector m) n =
    let sorted := sortSlice S (lessOf m) P in
    if Z.of_nat (length sorted) <? n then Some sorted else slice_to sorted n.
Proof. by destruct m. Qed.

Lemma lessOf_fgt m a b : lessOf m a b = fgt (metricOf m a) (metricOf m b).
Proof. by destruct m. Qed.

Lemma StronglySorted_weaken {A : Type} (R R' : A → A → Prop) (l : list A) :
  (∀ x y, x ∈ l → y ∈ l → R x y → R' x y) →
  StronglySorted R l → StronglySorted R' l.
Proof.
  induction l as [|a l IH]; intros Himp Hs; [constructor|].
  apply StronglySorted_inv in Hs as [Hs Ha].
  constructor.
  - apply IH; [|done]. intros x y Hx Hy. apply Himp; by right.
  - rewrite Forall_forall in Ha |- *. intros y Hy.
    apply Himp; [by left|by right|by apply Ha].
Qed.

(** The sorted copy is in descending order of the metric, as long as the
    metric values are numbers. *)
Lemma sorted_copy_Descending S P m :
  Forall (λ p, is_nan (metricOf m p) = false) P →
  Descending m (sortSlice S (lessOf m) P).
Proof.
  intros Hnum.
  assert (Hswo : StrictWeakOn (lessOf m) P).
  { eapply (StrictWeakOn_incl _ P P); [done|].
    pose proof (fgt_key_StrictWeakOn (metricOf m) P Hnum) as (Hi & Ht & Hn).
    repeat split; intros *; rewrite !lessOf_fgt; eauto. }
  pose proof (sortSlice_sorted S _ (lessOf m) P Hswo) as Hs.
  unfold SortedBy in Hs. unfold Descending.
  eapply StronglySorted_weaken; [|exact Hs].
  intros x y Hx Hy Hxy. simpl in Hxy. rewrite lessOf_fgt in Hxy.
  rewrite Forall_forall in Hnum.
  rewrite (sortSlice_perm S) in Hx, Hy.
  apply not_fgt_fle; auto.
Qed.

(** C1, as the code has it.  For a non-negative limit [n] and metric
    values that are numbers, [getTopProcesses] returns [min n |P|]
    processes, sorted descending by the selected metric, and they are the
    head of a rearrangement of [P].  The order among equal metric values is
    whatever [sort.Slice] leaves. *)
Theorem getTopProcesses_top_n (S : SliceSorter) (P : list ProcessInfo)
    (m : Metric) (n : Z) :
  0 ≤ n →
  Forall (λ p, is_nan (metricOf m p) = false) P →
  ∃ out, getTopProcesses S P (selector m) n = Some out ∧
         length out = (Z.to_nat n `min` length P)%nat ∧
         Descending m out ∧
         ∃ rest, out ++ rest ≡ₚ P.
Proof.
  intros Hn Hnum. rewrite getTopProcesses_selector. simpl.
  pose proof (sortSlice_perm S _ (lessOf m) P) as Hperm.
  pose proof (sorted_copy_Descending S P m Hnum) as Hdesc.
  set (sorted := sortSlice S (lessOf m) P) in *.
  assert (Hlen : length sorted = length P) by by rewrite Hperm.
  destruct (Z.ltb_spec (Z.of_nat (length sorted)) n) as [Hlt|Hge].
  - exists sorted. repeat split; [lia|done|].
    exists []. by rewrite app_nil_r.
  - rewrite slice_to_Some by done.
    exists (take (Z.to_nat n) sorted). repeat split.
    + rewrite length_take. lia.
    + unfold Descending in *.
      rewrite <- (take_drop (Z.to_nat n) sorted) in Hdesc.
      by apply StronglySorted_app_1_l in Hdesc.
    + exists (drop (Z.to_nat n) sorted). by rewrite take_drop.
Qed.

(** Three processes, two of them tied on CPU. *)
Definition sample (pid : Z) (cpu : Z) : ProcessInfo :=
  {| PID := pid; Name := "p"; Username := "u";
     CPUPercent := float64_of_Z cpu; MemPercent := f0; MemoryMB := 0;
     Status := "S"; CreateTime := 0; NumThreads := 1; CommandLine := "p" |}.

Lemma getTopProcesses_top_n_witness :
  ∃ out, getTopProcesses stableSorter [sample 1 5; sample 2 7; sample 3 5]
                         "cpu" 2 = Some out ∧
         length out = 2%nat ∧
         Descending ByCPU out ∧
         ∃ rest, out ++ rest ≡ₚ [sample 1 5; sample 2 7; sample 3 5].
Proof.
  apply (getTopProcesses_top_n stableSorter
           [sample 1 5; sample 2 7; sample 3 5] ByCPU 2).
  - lia.
  - repeat constructor.
Defined.

(** Thirteen processes, twelve at 5 percent of CPU and then one at 9, and
    three processes of which the second has no number for its share. *)
Definition twelveAndOne : list ProcessInfo :=
  ((λ pid, sample (Z.of_nat pid) 5) <$> seq 1 12) ++ [sample 13 9].

Definition unmeasured : list ProcessInfo :=
  [sample 1 1;
   {| PID := 2; Name := "p"; Username := "u";
      CPUPercent := S754_nan; MemPercent := f0; MemoryMB := 0;
      Status := "S"; CreateTime := 0; NumThreads := 1; CommandLine := "p" |};
   sample 3 2].

(** [x] before [y] in [l] puts the place of [x] before that of [y]. *)
Lemma Before_lookup {A : Type} (x y : A) (l : list A) :
  Before x y l → ∃ i j, (i < j)%nat ∧ l !! i = Some x ∧ l !! j = Some y.
Proof.
  intros (l1 & l2 & l3 & ->).
  exists (length l1), (length l1 + S (length l2))%nat. split; [lia|]. split.
  - by rewrite list_lookup_middle.
  - rewrite lookup_app_r by lia.
    replace (length l1 + S (length l2) - length l1)%nat
      with (S (length l2)) by lia.
    simpl. by rewrite list_lookup_middle.
Qed.

(** C1, as the specification has it, does not hold, on two counts.  Ties
    do not keep their order: [sort.Slice] partitions a slice of more
    than twelve elements, and of thirteen processes of which the first
    twelve are tied on CPU the seventh comes out in front of the other
    eleven, the first in the place of the seventh and the second at the
    end.  And a share that is not a number leaves the result unsorted:
    with such a share between them, a process at 1 percent stays in
    front of one at 2 percent. *)
Lemma getTopProcesses_ties_not_stable :
  (∃ out, sort.Slice byCPU twelveAndOne = Some out ∧
          getTopProcesses (librarySorter stableSorter) twelveAndOne "cpu" 13
            = Some out ∧
          PID <$> out = [13; 7; 3; 4; 5; 6; 1; 8; 9; 10; 11; 12; 2] ∧
          ¬ TiesKeepOrder ByCPU twelveAndOne out) ∧
  (∃ out, sort.Slice byCPU unmeasured = Some out ∧
          getTopProcesses (librarySorter stableSorter) unmeasured "cpu" 3
            = Some out ∧
          PID <$> out = [1; 2; 3] ∧
          ¬ Descending ByCPU out) ∧
  ¬ StableTopN (librarySorter stableSorter) twelveAndOne ByCPU 13 ∧
  ¬ StableTopN (librarySorter stableSorter) unmeasured ByCPU 3.
Proof.
  assert (Hties : ∀ out,
             getTopProcesses (librarySorter stableSorter) twelveAndOne "cpu" 13
               = Some out →
             ¬ TiesKeepOrder ByCPU twelveAndOne out).
  { intros out Hout Hkeep. vm_compute in Hout. injection Hout as <-.
    destruct (Before_lookup (sample 7 5) (sample 3 5) twelveAndOne)
      as (i & j & Hij & Hi & Hj).
    - apply Hkeep; [|reflexivity].
      exists [sample 13 9], [],
        ((λ pid, sample pid 5) <$> [4; 5; 6; 1; 8; 9; 10; 11; 12; 2]).
      reflexivity.
    - apply (f_equal (fmap PID)) in Hi, Hj.
      rewrite <- !list_lookup_fmap in Hi, Hj.
      change (PID <$> twelveAndOne)
        with [1; 2; 3; 4; 5; 6; 7; 8; 9; 10; 11; 12; 13] in Hi, Hj.
      assert (i = 6%nat).
      { do 13 (destruct i as [|i]; [first [discriminate Hi|reflexivity]|]).
        discriminate Hi. }
      assert (j = 2%nat).
      { do 13 (destruct j as [|j]; [first [discriminate Hj|reflexivity]|]).
        discriminate Hj. }
      lia. }
  assert (Hnan : ∀ out,
             getTopProcesses (librarySorter stableSorter) unmeasured "cpu" 3
               = Some out →
             ¬ Descending ByCPU out).
  { intros out Hout Hdesc. vm_compute in Hout. injection Hout as <-.
    apply StronglySorted_inv in Hdesc as [_ Hfirst].
    apply Forall_inv_tail, Forall_inv in Hfirst. vm_compute in Hfirst.
    discriminate Hfirst. }
  split; [|split; [|split]].
  - eexists. split; [vm_compute; reflexivity|]. split; [vm_compute; reflexivity|].
    split; [reflexivity|]. by apply Hties.
  - eexists. split; [vm_compute; reflexivity|]. split; [vm_compute; reflexivity|].
    split; [reflexivity|]. by apply Hnan.
  - intros (out & Hout & _ & _ & Hkeep). by apply (Hties out).
  - intros (out & Hout & _ & Hdesc & _). by apply (Hnan out).
Qed.

(** ** Command lines *)

(** C9.  [getProcessInfo] always answers.  When the command line cannot be
    read or is empty, [CommandLine] is the process name; when it is longer
    than 100 bytes, [CommandLine] is its first 100 bytes followed by
    ["..."], 103 bytes in all; otherwise it is the command line itself. *)
Theorem getProcessInfo_CommandLine (proc : process.Process) :
  ∃ info, getProcessInfo proc = Ok info ∧
    Name info = or_zero "" (process.Name proc) ∧
    (∀ msg, process.Cmdline proc = Err msg → CommandLine info = Name info) ∧
    (process.Cmdline proc = Ok "" → CommandLine info = Name info) ∧
    (∀ cmdline, process.Cmdline proc = Ok cmdline →
        (100 < String.length cmdline)%nat →
        CommandLine info = String.substring 0 100 cmdline +:+ "..." ∧
        String.length (CommandLine info) = 103%nat ∧
        String.substring 0 100 (CommandLine info) = String.substring 0 100 cmdline) ∧
    (∀ cmdline, process.Cmdline proc = Ok cmdline →
        (0 < String.length cmdline ≤ 100)%nat →
        CommandLine info = cmdline).
Proof.
  eexists. split; [reflexivity|]. simpl.
  split; [reflexivity|].
  split; [by intros msg ->|].
  split; [by intros ->|].
  split.
  - intros cmdline -> Hlong.
    destruct (Nat.ltb_spec 0 (String.length cmdline)); [|lia].
    destruct (Nat.ltb_spec 100 (String.length cmdline)); [|lia].
    assert (Hpre : String.length (String.substring 0 100 cmdline) = 100%nat).
    { rewrite length_substring_0. lia. }
    split; [reflexivity|]. split.
    + rewrite length_append, Hpre. reflexivity.
    + rewrite <- Hpre at 1. apply substring_0_append.
  - intros cmdline -> [Hpos Hshort].
    destruct (Nat.ltb_spec 0 (String.length cmdline)); [|lia].
    destruct (Nat.ltb_spec 100 (String.length cmdline)); [lia|done].
Qed.

(** A process whose command line cannot be read, and one whose command
    line has 104 bytes. *)
Definition someProcess (name : string) (cmdline : Result string)
  : process.Process :=
  {| process.Pid := 1; process.Name := Ok name; process.Username := Err "denied";
     process.CPUPercent := Ok f0; process.MemoryPercent := Ok f0;
     process.MemoryInfo := Ok {| process.RSS := 3145728 |};
     process.Status := Ok ["S"%string]; process.CreateTime := Ok 0;
     process.NumThreads := Ok 1; process.Cmdline := cmdline |}.

Definition longCmdline : string :=
  "/usr/bin/daemon --config=/etc/daemon/daemon.conf --pidfile=/var/run/daemon.pid --verbose --user=daemon #".

Lemma getProcessInfo_CommandLine_witness :
  (∃ info, getProcessInfo (someProcess "init" (Err "gone")) = Ok info ∧
           CommandLine info = "init"%string) ∧
  (∃ info, getProcessInfo (someProcess "init" (Ok ""%string)) = Ok info ∧
           CommandLine info = "init"%string) ∧
  (∃ info, getProcessInfo (someProcess "daemon" (Ok longCmdline)) = Ok info ∧
           CommandLine info =
             "/usr/bin/daemon --config=/etc/daemon/daemon.conf --pidfile=/var/run/daemon.pid --verbose --user=daem..."%string).
Proof.
  split; [|split].
  - destruct (getProcessInfo_CommandLine (someProcess "init" (Err "gone")))
      as (info & Hinfo & Hname & Herr & _).
    exists info. split; [exact Hinfo|].
    rewrite (Herr "gone"%string eq_refl), Hname. reflexivity.
  - destruct (getProcessInfo_CommandLine (someProcess "init" (Ok ""%string)))
      as (info & Hinfo & Hname & _ & Hempty & _).
    exists info. split; [exact Hinfo|].
    rewrite (Hempty eq_refl), Hname. reflexivity.
  - destruct (getProcessInfo_CommandLine (someProcess "daemon" (Ok longCmdline)))
      as (info & Hinfo & _ & _ & _ & Hlong & _).
    exists info. split; [exact Hinfo|].
    destruct (Hlong longCmdline eq_refl) as (Hcmd & _).
    + vm_compute. lia.
    + rewrite Hcmd. reflexivity.
Defined.

(** ** Characters and bytes *)

(** The specification counts characters.  A Go string is a sequence of
    bytes, in which a character is a UTF-8 sequence: a leading byte
    followed by its continuation bytes, the bytes [10xxxxxx]. *)
Definition isContinuation (b : ascii) : bool :=
  let n := nat_of_ascii b in (128 <=? n)%nat && (n <? 192)%nat.

(** The number of characters of [s]: one for every byte that starts
    one. *)
Fixpoint characters (s : string) : nat :=
  match s with
  | EmptyString => 0
  | String b s' => ((if isContinuation b then 0 else 1) + characters s')%nat
  end.

(** The first [n] characters of [s], each with its continuation bytes. *)
Fixpoint firstCharacters (n : nat) (s : string) : string :=
  match s with
  | EmptyString => EmptyString
  | String b s' =>
      if isContinuation b then String b (firstCharacters n s')
      else match n with
           | O => EmptyString
           | S n' => String b (firstCharacters n' s')
           end
  end.

(** The cut as the specification has it: a command line of more than 100
    characters is cut to its first 100 characters. *)
Definition CutsCharacters (proc : process.Process) (info : ProcessInfo) : Prop :=
  ∀ cmdline, process.Cmdline proc = Ok cmdline →
             (100 < characters cmdline)%nat →
             CommandLine info = firstCharacters 100 cmdline +:+ "...".

(** [s], [n] times over. *)
Fixpoint times (n : nat) (s : string) : string :=
  match n with O => EmptyString | S n' => s +:+ times n' s end.

(** The letter e with an acute accent, U+00E9: the two bytes C3 A9. *)
Definition eAcute : string := String "195" (String "169" EmptyString).

(** A command line of 101 characters in 201 bytes. *)
Definition accented : string := "a" +:+ times 100 eAcute.

(** In a command line of ASCII bytes, characters are bytes: there the two
    readings of the cut agree. *)
Fixpoint isASCII (s : string) : bool :=
  match s with
  | EmptyString => true
  | String b s' => (nat_of_ascii b <? 128)%nat && isASCII s'
  end.

Lemma characters_ASCII s :
  isASCII s = true →
  characters s = String.length s ∧
  ∀ n, firstCharacters n s = String.substring 0 n s.
Proof.
  induction s as [|b s IH]; intros Hs.
  - split; [done|]. by intros [|n].
  - cbn [isASCII] in Hs. apply andb_true_iff in Hs as [Hb Hs].
    apply Nat.ltb_lt in Hb.
    assert (Hc : isContinuation b = false).
    { unfold isContinuation.
      destruct (Nat.leb_spec 128 (nat_of_ascii b)); [lia|done]. }
    destruct (IH Hs) as [IH1 IH2].
    cbn [characters firstCharacters String.length]. rewrite Hc.
    split; [by rewrite IH1|].
    intros [|n]; [done|]. simpl. by rewrite IH2.
Qed.

(** C9, as the specification has it, does not hold: the cut counts
    bytes.  A command line of 101 characters in 201 bytes is cut after
    its first 100 bytes, in the middle of the fiftieth accented letter,
    and not after its first 100 characters. *)
Lemma getProcessInfo_CommandLine_cuts_bytes :
  characters accented = 101%nat ∧
  String.length accented = 201%nat ∧
  ∃ info,
    getProcessInfo (someProcess "editor" (Ok accented)) = Ok info ∧
    CommandLine info = "a" +:+ times 49 eAcute +:+ String "195" "..." ∧
    firstCharacters 100 accented +:+ "..." = "a" +:+ times 99 eAcute +:+ "..." ∧
    ¬ CutsCharacters (someProcess "editor" (Ok accented)) info.
Proof.
  split; [reflexivity|]. split; [reflexivity|].
  eexists. split; [reflexivity|]. split; [reflexivity|]. split; [reflexivity|].
  intros Hclaim. specialize (Hclaim accented eq_refl).
  assert (Hlong : (100 < characters accented)%nat) by (vm_compute; lia).
  apply Hclaim in Hlong. apply (f_equal String.length) in Hlong.
  vm_compute in Hlong. discriminate Hlong.
Qed.

(** ** Limits and selectors *)

(** X1.  [getTopProcesses] panics, on a slice bound out of range, exactly
    when the limit is negative; for every other limit it returns,
    whatever the processes and the selector. *)
Theorem getTopProcesses_panics_iff (S : SliceSorter) (P : list ProcessInfo)
    (sortBy : string) (limit : Z) :
  getTopProcesses S P sortBy limit = None ↔ limit < 0.
Proof.
  unfold getTopProcesses.
  set (sorted := if String.eqb sortBy "cpu" then _ else _).
  destruct (Z.ltb_spec (Z.of_nat (length sorted)) limit) as [Hlt|Hge].
  - split; [done|lia].
  - unfold slice_to. destruct (Z.ltb_spec limit 0); split; done || lia.
Qed.

(** X2.  The [switch] on the selector has no default: with a selector
    other than ["cpu"] and ["memory"] nothing is sorted, and what comes
    back are the first [limit] processes in the order they were given. *)
Theorem getTopProcesses_other_selector (S : SliceSorter) (P : list ProcessInfo)
    (sortBy : string) (limit : Z) :
  sortBy ≠ "cpu"%string → sortBy ≠ "memory"%string → 0 ≤ limit →
  getTopProcesses S P sortBy limit = Some (take (Z.to_nat limit) P).
Proof.
  intros Hcpu Hmem Hlimit. unfold getTopProcesses.
  apply String.eqb_neq in Hcpu, Hmem. rewrite Hcpu, Hmem.
  destruct (Z.ltb_spec (Z.of_nat (length P)) limit) as [Hlt|Hge].
  - by rewrite take_ge by lia.
  - by apply slice_to_Some.
Qed.

(** The selector is matched as it is written: ["CPU"] is not ["cpu"]. *)
Lemma getTopProcesses_other_selector_witness :
  getTopProcesses passingSorter [sample 1 5; sample 2 7; sample 3 9] "CPU" 2
  = Some [sample 1 5; sample 2 7].
Proof.
  apply (getTopProcesses_other_selector passingSorter
           [sample 1 5; sample 2 7; sample 3 9] "CPU" 2); [done|done|lia].
Defined.

(** X3.  With metric values that are numbers, the processes that
    [getTopProcesses] leaves out are none of them above one that it
    returns: what it returns are the highest. *)
Theorem getTopProcesses_takes_the_highest (S : SliceSorter)
    (P : list ProcessInfo) (m : Metric) (n : Z) :
  0 ≤ n →
  Forall (λ p, is_nan (metricOf m p) = false) P →
  ∃ out rest,
    getTopProcesses S P (selector m) n = Some out ∧
    out ++ rest ≡ₚ P ∧
    ∀ a b, a ∈ out → b ∈ rest → fle (metricOf m b) (metricOf m a) = true.
Proof.
  intros Hn Hnum. rewrite getTopProcesses_selector. simpl.
  pose proof (sortSlice_perm S _ (lessOf m) P) as Hperm.
  pose proof (sorted_copy_Descending S P m Hnum) as Hdesc.
  set (sorted := sortSlice S (lessOf m) P) in *.
  destruct (Z.ltb_spec (Z.of_nat (length sorted)) n) as [Hlt|Hge].
  - exists sorted, []. split; [done|]. split; [by rewrite app_nil_r|].
    intros a b _ Hb. by apply elem_of_nil in Hb.
  - rewrite slice_to_Some by done.
    exists (take (Z.to_nat n) sorted), (drop (Z.to_nat n) sorted).
    split; [done|]. split; [by rewrite take_drop|].
    intros a b Ha Hb. unfold Descending in Hdesc.
    rewrite <- (take_drop (Z.to_nat n) sorted) in Hdesc.
    apply (StronglySorted_app_1_elem_of _ _ _ a b Hdesc Ha Hb).
Qed.

Lemma getTopProcesses_takes_the_highest_witness :
  ∃ out rest,
    getTopProcesses stableSorter [sample 1 5; sample 2 7; sample 3 9] "cpu" 2
      = Some out ∧
    out ++ rest ≡ₚ [sample 1 5; sample 2 7; sample 3 9] ∧
    ∀ a b, a ∈ out → b ∈ rest →
           fle (metricOf ByCPU b) (metricOf ByCPU a) = true.
Proof.
  apply (getTopProcesses_takes_the_highest stableSorter
           [sample 1 5; sample 2 7; sample 3 9] ByCPU 2).
  - lia.
  - repeat constructor.
Defined.

(** ** The collection *)

(** The processes that [process.NewProcess] could open, in the order of
    their pids. *)
Definition opened (newProcess : Z → Result process.Process) (pids : list Z)
  : list process.Process :=
  omap (λ pid, match newProcess pid with Ok proc => Some proc | Err _ => None end)
       pids.

(** The statuses the two counters count. *)
Definition isRunning (info : ProcessInfo) : bool :=
  String.eqb (Status info) "R" || String.eqb (Status info) "running".

Definition isSleeping (info : ProcessInfo) : bool :=
  String.eqb (Status info) "S" || String.eqb (Status info) "sleeping".

Lemma running_not_sleeping info : isRunning info = true → isSleeping info = false.
Proof.
  unfold isRunning, isSleeping. intros H.
  apply orb_true_iff in H as [H|H]; apply String.eqb_eq in H; by rewrite H.
Qed.

Lemma opened_cons newProcess pid pids :
  opened newProcess (pid :: pids) =
    match newProcess pid with
    | Ok proc => proc :: opened newProcess pids
    | Err _ => opened newProcess pids
    end.
Proof. unfold opened. simpl. by destruct (newProcess pid). Qed.

Lemma collect_step newProcess acc pid :
  collect newProcess acc pid =
    match newProcess pid with
    | Err _ => acc
    | Ok proc =>
        match getProcessInfo proc with
        | Err _ => acc
        | Ok info =>
            (acc.1.1 ++ [info],
             if isRunning info then acc.1.2 + 1 else acc.1.2,
             if isRunning info then acc.2
             else if isSleeping info then acc.2 + 1 else acc.2)
        end
    end.
Proof.
  destruct acc as [[processes runningCount] sleepingCount]. unfold collect.
  destruct (newProcess pid) as [proc|]; [|done].
  destruct (getProcessInfo proc) as [info|]; [|done].
  unfold isRunning, isSleeping. simpl.
  by repeat case_match.
Qed.

Lemma collect_spec newProcess pids acc :
  ∃ infos,
    foldl (collect newProcess) acc pids =
      (acc.1.1 ++ infos,
       acc.1.2 + Z.of_nat (length (filter (λ i, isRunning i) infos)),
       acc.2 + Z.of_nat (length (filter (λ i, isSleeping i) infos))) ∧
    Forall2 (λ proc info, getProcessInfo proc = Ok info)
            (opened newProcess pids) infos.
Proof.
  revert acc.
  induction pids as [|pid pids IH]; intros [[processes runningCount] sleepingCount].
  - exists []. simpl. rewrite app_nil_r, !Z.add_0_r. split; [done|constructor].
  - cbn [foldl]. rewrite collect_step.
    rewrite opened_cons.
    destruct (newProcess pid) as [proc|msg] eqn:Hnew; [|by apply IH].
    assert (Hinfo : ∃ info, getProcessInfo proc = Ok info)
      by (eexists; reflexivity).
    destruct Hinfo as [info Hinfo].
    rewrite Hinfo. cbn [fst snd].
    destruct (IH (processes ++ [info],
                  if isRunning info then runningCount + 1 else runningCount,
                  if isRunning info then sleepingCount
                  else if isSleeping info then sleepingCount + 1
                       else sleepingCount))
      as (infos & -> & Hall).
    exists (info :: infos). split; [|by constructor].
    cbn [fst snd]. rewrite <- app_assoc. cbn [app]. rewrite !filter_cons.
    destruct (isRunning info) eqn:Hrun.
    + rewrite (running_not_sleeping _ Hrun).
      rewrite decide_True by done. rewrite decide_False by exact id.
      rewrite length_cons. repeat (lia || f_equal).
    + rewrite decide_False by exact id.
      destruct (isSleeping info) eqn:Hsleep.
      * rewrite decide_True by done. rewrite length_cons. repeat (lia || f_equal).
      * rewrite decide_False by exact id. done.
Qed.

Lemma running_sleeping_le (infos : list ProcessInfo) :
  (length (filter (λ i, isRunning i) infos) +
   length (filter (λ i, isSleeping i) infos) ≤ length infos)%nat.
Proof.
  induction infos as [|info infos IH]; [done|].
  rewrite !filter_cons, length_cons.
  destruct (isRunning info) eqn:Hrun.
  - rewrite (running_not_sleeping _ Hrun).
    rewrite decide_True by done. rewrite decide_False by exact id.
    rewrite length_cons. lia.
  - rewrite decide_False by exact id. case_decide; rewrite ?length_cons; lia.
Qed.

(** For a limit that is not negative [getTopProcesses] returns, whatever
    the selector, that many of the processes it was given (all of them if
    there are fewer). *)
Lemma getTopProcesses_some S P sortBy n :
  0 ≤ n →
  ∃ out, getTopProcesses S P sortBy n = Some out ∧
         length out = (Z.to_nat n `min` length P)%nat ∧
         ∀ info, info ∈ out → info ∈ P.
Proof.
  intros Hn. unfold getTopProcesses.
  set (sorted := if String.eqb sortBy "cpu" then _ else _).
  assert (Hperm : sorted ≡ₚ P).
  { unfold sorted. repeat case_match; [apply (sortSlice_perm S)..|done]. }
  assert (Hlen : length sorted = length P) by by rewrite Hperm.
  destruct (Z.ltb_spec (Z.of_nat (length sorted)) n) as [Hlt|Hge].
  - exists sorted. split; [done|]. split; [lia|].
    intros info Hin. by rewrite <- Hperm.
  - rewrite slice_to_Some by done. eexists. split; [done|].
    split; [rewrite length_take; lia|].
    intros info Hin. rewrite <- Hperm.
    apply elem_of_take in Hin as (i & Hi & _). by eapply list_elem_of_lookup_2.
Qed.

(** X4.  [GetProcessStats] fails only when the pids cannot be listed, and
    then with that error.  Otherwise it returns: [AllProcesses] has one
    entry for each pid that could be opened, in their order (a process
    that cannot be opened is skipped, and [getProcessInfo] never fails);
    [TotalProcesses] is their number; [RunningProcs] and [SleepingProcs]
    count the entries whose status is exactly ["R"] or ["running"], ["S"]
    or ["sleeping"], so together they are at most the total; the two top
    lists have ten entries, or all if there are fewer, taken from
    [AllProcesses]. *)
Theorem GetProcessStats_summary (S : SliceSorter) (now : Time)
    (newProcess : Z → Result process.Process) :
  (∀ msg, GetProcessStats S now (Err msg) newProcess = Some (Err msg)) ∧
  (∀ pids, ∃ stats,
     GetProcessStats S now (Ok pids) newProcess = Some (Ok stats) ∧
     Forall2 (λ proc info, getProcessInfo proc = Ok info)
             (opened newProcess pids) (AllProcesses stats) ∧
     TotalProcesses stats = Z.of_nat (length (opened newProcess pids)) ∧
     RunningProcs stats =
       Z.of_nat (length (filter (λ i, isRunning i) (AllProcesses stats))) ∧
     SleepingProcs stats =
       Z.of_nat (length (filter (λ i, isSleeping i) (AllProcesses stats))) ∧
     RunningProcs stats + SleepingProcs stats ≤ TotalProcesses stats ∧
     length (TopCPU stats) = (10 `min` length (AllProcesses stats))%nat ∧
     length (TopMemory stats) = (10 `min` length (AllProcesses stats))%nat ∧
     (∀ info, info ∈ TopCPU stats ∨ info ∈ TopMemory stats →
              info ∈ AllProcesses stats) ∧
     Timestamp stats = now).
Proof.
  split; [done|]. intros pids. unfold GetProcessStats.
  destruct (collect_spec newProcess pids ([], 0, 0)) as (infos & -> & Hall).
  cbn [fst snd app]. rewrite !Z.add_0_l.
  destruct (getTopProcesses_some S infos "cpu" 10 ltac:(lia))
    as (topCPU & -> & HlenC & HinC).
  destruct (getTopProcesses_some S infos "memory" 10 ltac:(lia))
    as (topMemory & -> & HlenM & HinM).
  eexists. split; [reflexivity|]. cbn.
  split; [exact Hall|].
  split; [by rewrite (Forall2_length _ _ _ Hall)|].
  split; [done|]. split; [done|]. split.
  - pose proof (running_sleeping_le infos). lia.
  - split; [exact HlenC|]. split; [exact HlenM|]. split; [|done].
    intros info [Hin|Hin]; auto.
Qed.

End ProcessesSpec.

(* ===================================================================== *)
(** * The rate tracker ([internal/network.go])                           *)
(* ===================================================================== *)

Module NetworkSpec.
Import Go GoFacts FloatFacts Network.

(** ** The store *)

(** The interface of [current] that ends up stored under [name]: the last
    one with that name. *)
Definition lastNamed (name : string) (current : list NetworkInterface)
  : option NetworkInterface :=
  last (filter (λ iface, Name iface = name) current).

Lemma storeAll_lookup current previous name :
  storeAll current previous !! name =
    match lastNamed name current with
    | Some iface => Some iface
    | None => previous !! name
    end.
Proof.
  unfold storeAll, lastNamed. revert previous.
  induction current as [|iface current IH]; intros previous; simpl; [done|].
  rewrite IH. rewrite filter_cons.
  destruct (decide (Name iface = name)) as [Heq|Hne].
  - rewrite last_cons.
    destruct (last (filter _ current)); [done|].
    by rewrite <- Heq, lookup_insert_eq.
  - destruct (last (filter _ current)); [done|].
    by rewrite lookup_insert_ne.
Qed.

Lemma lastNamed_Some name current iface :
  lastNamed name current = Some iface → iface ∈ current ∧ Name iface = name.
Proof.
  unfold lastNamed. intros Hlast.
  apply last_Some_elem_of in Hlast.
  by apply list_elem_of_filter in Hlast as [? ?].
Qed.

Lemma lastNamed_is_Some current iface :
  iface ∈ current → is_Some (lastNamed (Name iface) current).
Proof.
  intros Hin. unfold lastNamed. apply last_is_Some.
  intros Hnil.
  assert (Hf : iface ∈ filter (λ i, Name i = Name iface) current)
    by by apply list_elem_of_filter.
  rewrite Hnil in Hf. by apply elem_of_nil in Hf.
Qed.

Lemma lastNamed_None name current :
  name ∉ Name <$> current → lastNamed name current = None.
Proof.
  intros Hnot. destruct (lastNamed name current) as [iface|] eqn:Hl; [|done].
  apply lastNamed_Some in Hl as [Hin <-].
  destruct Hnot. by apply list_elem_of_fmap_2.
Qed.

Lemma NoDup_fmap_eq {A B : Type} (f : A → B) (l : list A) x y :
  NoDup (f <$> l) → x ∈ l → y ∈ l → f x = f y → x = y.
Proof.
  induction l as [|a l IH]; simpl; intros Hnd Hx Hy Hf.
  - by apply elem_of_nil in Hx.
  - apply NoDup_cons in Hnd as [Ha Hnd].
    apply elem_of_cons in Hx as [->|Hx]; apply elem_of_cons in Hy as [->|Hy].
    + done.
    + destruct Ha. rewrite Hf. by apply list_elem_of_fmap_2.
    + destruct Ha. rewrite <- Hf. by apply list_elem_of_fmap_2.
    + by apply IH.
Qed.

Lemma lastNamed_NoDup current iface :
  NoDup (Name <$> current) → iface ∈ current →
  lastNamed (Name iface) current = Some iface.
Proof.
  intros Hnd Hin.
  destruct (lastNamed_is_Some current iface Hin) as [iface' Hl].
  rewrite Hl. f_equal.
  apply lastNamed_Some in Hl as [Hin' Hname].
  by apply (NoDup_fmap_eq Name current).
Qed.

(** ** Elapsed time, as the code computes it *)

Lemma timeDiff_positive now last :
  0 < Sub now last → ranged false (-29) 37 (Seconds (Sub now last)).
Proof. intros Hpos. apply Seconds_pos. pose proof (Sub_range now last). lia. Qed.

Lemma timeDiff_not_positive now last :
  Sub now last ≤ 0 → fle (Seconds (Sub now last)) f0 = true.
Proof. intros Hle. apply Seconds_nonpos. pose proof (Sub_range now last). lia. Qed.

(** ** Sample polls *)

Definition counters (name : string) (sent recv : Z) : net.IOCountersStat :=
  {| net.Name := name; net.BytesSent := sent; net.BytesRecv := recv;
     net.PacketsSent := 0; net.PacketsRecv := 0; net.Errin := 0;
     net.Errout := 0; net.Dropin := 0; net.Dropout := 0 |}.

(** A poll at [now] that reads the given counters. *)
Definition poll (now : Time) (ioCounters : list net.IOCountersStat) : NetEnv :=
  {| env_Now := now; env_IOCounters := Ok ioCounters;
     env_LastUpdate := λ _, now; env_Connections := Ok [] |}.

(** The state a first poll of [eth0] and [wlan0] at time 0 leaves. *)
Definition seededStore : gmap string NetworkInterface :=
  storeAll [mkInterface (counters "eth0" 1000 2000) 0;
            mkInterface (counters "wlan0" 500 500) 0] ∅.

Definition seeded : NetState :=
  {| previousNetStats := Some seededStore; lastNetworkRead := 0 |}.

Lemma seededStore_nonempty : seededStore ≠ ∅.
Proof.
  intros Heq. apply (f_equal (lookup "eth0"%string)) in Heq.
  unfold seededStore in Heq. rewrite storeAll_lookup in Heq. discriminate Heq.
Qed.

(** ** The first call *)

(** C4.  On the first call (the map is still [nil]) [GetNetworkSpeeds]
    returns no speeds, records the time of the call, and leaves a store
    whose entries are exactly the interfaces of the poll, each under its
    name (the last one, should a name occur twice). *)
Theorem GetNetworkSpeeds_first_call (S : SliceSorter) (env : NetEnv)
    (now : Time) (st : NetState) (currentStats : NetworkStats) :
  previousNetStats st = None →
  GetNetworkStats S env = Ok currentStats →
  ∃ store,
    GetNetworkSpeeds S env now st =
      (Ok [], {| previousNetStats := Some store; lastNetworkRead := now |}) ∧
    (∀ name, store !! name = lastNamed name (Interfaces currentStats)) ∧
    (∀ iface, iface ∈ Interfaces currentStats → is_Some (store !! Name iface)) ∧
    (∀ name iface, store !! name = Some iface →
                   iface ∈ Interfaces currentStats ∧ Name iface = name) ∧
    (NoDup (Name <$> Interfaces currentStats) →
     ∀ iface, iface ∈ Interfaces currentStats → store !! Name iface = Some iface).
Proof.
  intros Hnil Hstats. unfold GetNetworkSpeeds. rewrite Hstats, Hnil.
  eexists. split; [reflexivity|].
  assert (Hlookup : ∀ name, storeAll (Interfaces currentStats) ∅ !! name
                            = lastNamed name (Interfaces currentStats)).
  { intros name. rewrite storeAll_lookup, lookup_empty.
    by destruct (lastNamed name (Interfaces currentStats)). }
  split; [exact Hlookup|]. split; [|split].
  - intros iface Hin. rewrite Hlookup. by apply lastNamed_is_Some.
  - intros name iface Hsome. rewrite Hlookup in Hsome.
    by apply lastNamed_Some.
  - intros Hnd iface Hin. rewrite Hlookup. by apply lastNamed_NoDup.
Qed.

Lemma GetNetworkSpeeds_first_call_witness :
  ∃ currentStats store,
    GetNetworkStats stableSorter
      (poll 0 [counters "eth0" 1000 2000; counters "wlan0" 500 500])
      = Ok currentStats ∧
    GetNetworkSpeeds stableSorter
      (poll 0 [counters "eth0" 1000 2000; counters "wlan0" 500 500]) 0
      initialNetState
      = (Ok [], {| previousNetStats := Some store; lastNetworkRead := 0 |}) ∧
    ∀ name, store !! name = lastNamed name (Interfaces currentStats).
Proof.
  eexists.
  destruct (GetNetworkSpeeds_first_call stableSorter
              (poll 0 [counters "eth0" 1000 2000; counters "wlan0" 500 500])
              0 initialNetState _ eq_refl eq_refl)
    as (store & Hcall & Hlookup & _).
  exists store. split; [reflexivity|]. split; [exact Hcall|exact Hlookup].
Defined.

(** ** No elapsed time *)

(** C3.  With an initialised store and an elapsed time that is not
    positive, [GetNetworkSpeeds] returns no speeds and leaves the store and
    the time of the last read as they were: whatever is called next
    behaves as if this call had not happened. *)
Theorem GetNetworkSpeeds_no_elapsed_time (S : SliceSorter) (env : NetEnv)
    (now : Time) (st : NetState) (previous : gmap string NetworkInterface)
    (currentStats : NetworkStats) :
  previousNetStats st = Some previous →
  previous ≠ ∅ →
  Sub now (lastNetworkRead st) ≤ 0 →
  GetNetworkStats S env = Ok currentStats →
  GetNetworkSpeeds S env now st = (Ok [], st) ∧
  ∀ env' now',
    GetNetworkSpeeds S env' now' (GetNetworkSpeeds S env now st).2 =
    GetNetworkSpeeds S env' now' st.
Proof.
  intros Hprev _ Hdt Hstats.
  assert (Hcall : GetNetworkSpeeds S env now st = (Ok [], st)).
  { unfold GetNetworkSpeeds. rewrite Hstats, Hprev.
    by rewrite (timeDiff_not_positive _ _ Hdt). }
  split; [exact Hcall|]. intros env' now'. by rewrite Hcall.
Qed.

Lemma GetNetworkSpeeds_no_elapsed_time_witness :
  GetNetworkSpeeds stableSorter (poll 0 [counters "eth0" 5000 9000]) 0 seeded
    = (Ok [], seeded) ∧
  ∀ env' now',
    GetNetworkSpeeds stableSorter env' now'
      (GetNetworkSpeeds stableSorter (poll 0 [counters "eth0" 5000 9000]) 0
         seeded).2 =
    GetNetworkSpeeds stableSorter env' now' seeded.
Proof.
  eapply (GetNetworkSpeeds_no_elapsed_time stableSorter
            (poll 0 [counters "eth0" 5000 9000]) 0 seeded seededStore).
  - reflexivity.
  - exact seededStore_nonempty.
  - vm_compute. discriminate.
  - reflexivity.
Defined.

(** ** The store after a call *)

(** The store holds exactly the interfaces of the poll. *)
Definition ExactlyCurrent (store : gmap string NetworkInterface)
    (current : list NetworkInterface) : Prop :=
  ∀ name, store !! name = lastNamed name current.

(** C5, as the code has it.  After a call with an initialised store and
    positive elapsed time, the time of the last read is the time of the
    call, every interface of the poll is stored under its name with its
    new counters, whether or not its speed was reported, and an entry
    whose name is not in the poll is left as it was. *)
Theorem GetNetworkSpeeds_store_after (S : SliceSorter) (env : NetEnv)
    (now : Time) (st : NetState) (previous : gmap string NetworkInterface)
    (currentStats : NetworkStats) :
  previousNetStats st = Some previous →
  0 < Sub now (lastNetworkRead st) →
  GetNetworkStats S env = Ok currentStats →
  ∃ speeds store,
    GetNetworkSpeeds S env now st =
      (Ok speeds, {| previousNetStats := Some store; lastNetworkRead := now |}) ∧
    (∀ iface, iface ∈ Interfaces currentStats →
              store !! Name iface = lastNamed (Name iface) (Interfaces currentStats) ∧
              is_Some (store !! Name iface)) ∧
    (NoDup (Name <$> Interfaces currentStats) →
     ∀ iface, iface ∈ Interfaces currentStats → store !! Name iface = Some iface) ∧
    (∀ name, name ∉ Name <$> Interfaces currentStats →
             store !! name = previous !! name).
Proof.
  intros Hprev Hdt Hstats. unfold GetNetworkSpeeds. rewrite Hstats, Hprev.
  rewrite (ranged_pos_fle_f0 _ _ _ (timeDiff_positive _ _ Hdt)).
  eexists _, _. split; [reflexivity|]. split; [|split].
  - intros iface Hin. rewrite storeAll_lookup.
    destruct (lastNamed_is_Some _ _ Hin) as [iface' Hl]. rewrite Hl. eauto.
  - intros Hnd iface Hin. rewrite storeAll_lookup.
    by rewrite (lastNamed_NoDup _ _ Hnd Hin).
  - intros name Hnot. rewrite storeAll_lookup.
    by rewrite (lastNamed_None _ _ Hnot).
Qed.

Lemma GetNetworkSpeeds_store_after_witness :
  ∃ currentStats speeds store,
    GetNetworkStats stableSorter (poll 2000000000 [counters "eth0" 2000 2048])
      = Ok currentStats ∧
    GetNetworkSpeeds stableSorter (poll 2000000000 [counters "eth0" 2000 2048])
      2000000000 seeded =
      (Ok speeds,
       {| previousNetStats := Some store; lastNetworkRead := 2000000000 |}) ∧
    (∀ iface, iface ∈ Interfaces currentStats →
              store !! Name iface = lastNamed (Name iface) (Interfaces currentStats) ∧
              is_Some (store !! Name iface)) ∧
    (∀ name, name ∉ Name <$> Interfaces currentStats →
             store !! name = seededStore !! name).
Proof.
  eexists.
  destruct (GetNetworkSpeeds_store_after stableSorter
              (poll 2000000000 [counters "eth0" 2000 2048]) 2000000000
              seeded seededStore _ eq_refl eq_refl eq_refl)
    as (speeds & store & Hcall & Hnew & _ & Hold).
  exists speeds, store. split; [reflexivity|].
  split; [exact Hcall|]. split; [exact Hnew|exact Hold].
Defined.

(** C5, as the specification has it, does not hold: the store is not
    overwritten with the poll.  [wlan0] is in the store, the next poll
    reads [eth0] only, and [wlan0] is still in the store afterwards. *)
Lemma GetNetworkSpeeds_keeps_absent_interfaces :
  ¬ (∀ (S : SliceSorter) (env : NetEnv) (now : Time) (st : NetState)
       (previous : gmap string NetworkInterface) (currentStats : NetworkStats)
       (speeds : list NetworkSpeed) (store : gmap string NetworkInterface),
        previousNetStats st = Some previous →
        0 < Sub now (lastNetworkRead st) →
        GetNetworkStats S env = Ok currentStats →
        GetNetworkSpeeds S env now st =
          (Ok speeds,
           {| previousNetStats := Some store; lastNetworkRead := now |}) →
        ExactlyCurrent store (Interfaces currentStats)).
Proof.
  intros Hclaim.
  specialize (Hclaim stableSorter (poll 2000000000 [counters "eth0" 2000 2048])
                2000000000 seeded seededStore _ _ _
                eq_refl eq_refl eq_refl eq_refl "wlan0"%string).
  rewrite storeAll_lookup in Hclaim. discriminate Hclaim.
Qed.

(** ** Which speeds are reported *)

Lemma speedStep_elem previous timeDiff now current acc speed :
  speed ∈ foldl (speedStep previous timeDiff now) acc current ↔
  speed ∈ acc ∨
  ∃ iface prev_i, iface ∈ current ∧ previous !! Name iface = Some prev_i ∧
                  speed = speedOf prev_i iface timeDiff now ∧
                  significant speed = true.
Proof.
  revert acc. induction current as [|iface current IH]; intros acc; simpl.
  - split; [by left|]. intros [?|(? & ? & Hin & _)]; [done|].
    by apply elem_of_nil in Hin.
  - rewrite IH. unfold speedStep.
    destruct (previous !! Name iface) as [prev_i|] eqn:Hprev.
    + destruct (significant (speedOf prev_i iface timeDiff now)) eqn:Hsig.
      * rewrite elem_of_app, list_elem_of_singleton. split.
        -- intros [[Hacc| ->]|(i & p & Hin & Hp & -> & Hs)]; [by left| |].
           ++ right. exists iface, prev_i. repeat split; [by left|done..].
           ++ right. exists i, p. repeat split; [by right|done..].
        -- intros [Hacc|(i & p & Hin & Hp & -> & Hs)]; [by left; left|].
           apply elem_of_cons in Hin as [->|Hin].
           ++ left; right. congruence.
           ++ right. exists i, p. by split_and!.
      * split.
        -- intros [Hacc|(i & p & Hin & Hp & -> & Hs)]; [by left|].
           right. exists i, p. repeat split; [by right|done..].
        -- intros [Hacc|(i & p & Hin & Hp & -> & Hs)]; [by left|].
           apply elem_of_cons in Hin as [->|Hin]; [congruence|].
           right. exists i, p. by split_and!.
    + split.
      * intros [Hacc|(i & p & Hin & Hp & -> & Hs)]; [by left|].
        right. exists i, p. repeat split; [by right|done..].
      * intros [Hacc|(i & p & Hin & Hp & -> & Hs)]; [by left|].
        apply elem_of_cons in Hin as [->|Hin]; [congruence|].
        right. exists i, p. by split_and!.
Qed.

(** What a call with an initialised store and positive elapsed time
    returns and leaves. *)
Lemma GetNetworkSpeeds_elapsed S env now st previous currentStats :
  previousNetStats st = Some previous →
  0 < Sub now (lastNetworkRead st) →
  GetNetworkStats S env = Ok currentStats →
  GetNetworkSpeeds S env now st =
    (Ok (sortSlice S bySpeed
           (foldl (speedStep previous (Seconds (Sub now (lastNetworkRead st))) now)
                  [] (Interfaces currentStats))),
     {| previousNetStats := Some (storeAll (Interfaces currentStats) previous);
        lastNetworkRead := now |}).
Proof.
  intros Hprev Hdt Hstats. unfold GetNetworkSpeeds. rewrite Hstats, Hprev.
  by rewrite (ranged_pos_fle_f0 _ _ _ (timeDiff_positive _ _ Hdt)).
Qed.

(** After positive elapsed time, what is in the result are the speeds of
    the interfaces that have a previous reading and significant traffic. *)
Lemma reported_iff S env now st previous currentStats :
  previousNetStats st = Some previous →
  0 < Sub now (lastNetworkRead st) →
  GetNetworkStats S env = Ok currentStats →
  ∃ speeds st',
    GetNetworkSpeeds S env now st = (Ok speeds, st') ∧
    ∀ speed,
      speed ∈ speeds ↔
      ∃ current prev_i,
        current ∈ Interfaces currentStats ∧
        previous !! Name current = Some prev_i ∧
        speed = speedOf prev_i current
                  (Seconds (Sub now (lastNetworkRead st))) now ∧
        significant speed = true.
Proof.
  intros Hprev Hdt Hstats.
  rewrite (GetNetworkSpeeds_elapsed _ _ _ _ _ _ Hprev Hdt Hstats).
  eexists _, _. split; [reflexivity|]. intros speed.
  rewrite (sortSlice_perm S), speedStep_elem. split.
  - intros [Hnil|Hex]; [by apply elem_of_nil in Hnil|exact Hex].
  - intros Hex. by right.
Qed.

(** C8.  After positive elapsed time, the speed of an interface that has
    a previous reading is in the result exactly when its upload or its
    download speed is above 0.1 KB/s; what is in the result is the whole
    speed record, both directions, and nothing else is in the result. *)
Theorem GetNetworkSpeeds_reports_significant (S : SliceSorter) (env : NetEnv)
    (now : Time) (st : NetState) (previous : gmap string NetworkInterface)
    (currentStats : NetworkStats) :
  previousNetStats st = Some previous →
  0 < Sub now (lastNetworkRead st) →
  GetNetworkStats S env = Ok currentStats →
  ∃ speeds st',
    GetNetworkSpeeds S env now st = (Ok speeds, st') ∧
    (∀ current prev_i,
        current ∈ Interfaces currentStats →
        previous !! Name current = Some prev_i →
        let speed :=
          speedOf prev_i current (Seconds (Sub now (lastNetworkRead st))) now in
        speed ∈ speeds ↔
        fgt (UploadKBps speed) f0_1 = true ∨ fgt (DownloadKBps speed) f0_1 = true) ∧
    (∀ speed, speed ∈ speeds →
        ∃ current prev_i,
          current ∈ Interfaces currentStats ∧
          previous !! Name current = Some prev_i ∧
          speed = speedOf prev_i current
                    (Seconds (Sub now (lastNetworkRead st))) now).
Proof.
  intros Hprev Hdt Hstats.
  destruct (reported_iff S env now st previous currentStats Hprev Hdt Hstats)
    as (speeds & st' & Hcall & Hiff).
  exists speeds, st'. split; [exact Hcall|]. split.
  - intros current prev_i Hin Hp speed.
    rewrite Hiff, <- orb_true_iff. fold (significant speed). split.
    + by intros (i & p & _ & _ & -> & Hs).
    + intros Hs. exists current, prev_i. by split_and!.
  - intros speed Hin. apply Hiff in Hin as (i & p & Hi & Hp & Heq & _).
    by exists i, p.
Qed.

(** The scenario of the specification: [eth0] goes from 1000 bytes sent
    and 2000 received to 2000 and 2048 in two seconds.  Upload is above
    the threshold, download is not, and the one speed record is reported
    with both. *)
Lemma GetNetworkSpeeds_reports_significant_witness :
  ∃ currentStats speeds st',
    GetNetworkStats stableSorter (poll 2000000000 [counters "eth0" 2000 2048])
      = Ok currentStats ∧
    GetNetworkSpeeds stableSorter (poll 2000000000 [counters "eth0" 2000 2048])
      2000000000 seeded = (Ok speeds, st') ∧
    (∀ current prev_i,
        current ∈ Interfaces currentStats →
        seededStore !! Name current = Some prev_i →
        let speed := speedOf prev_i current (Seconds (Sub 2000000000 0)) 2000000000 in
        speed ∈ speeds ↔
        fgt (UploadKBps speed) f0_1 = true ∨ fgt (DownloadKBps speed) f0_1 = true).
Proof.
  eexists.
  destruct (GetNetworkSpeeds_reports_significant stableSorter
              (poll 2000000000 [counters "eth0" 2000 2048]) 2000000000
              seeded seededStore _ eq_refl eq_refl eq_refl)
    as (speeds & st' & Hcall & Hiff & _).
  exists speeds, st'. split; [reflexivity|]. split; [exact Hcall|exact Hiff].
Defined.

Example eth0_scenario :
  (GetNetworkSpeeds stableSorter (poll 2000000000 [counters "eth0" 2000 2048])
     2000000000 seeded).1
  = Ok [ {| Interface := "eth0";
            UploadKBps := S754_finite false 8796093022208000 (-54);
            DownloadKBps := S754_finite false 6755399441055744 (-58);
            SpeedTimestamp := 2000000000 |} ] ∧
  fgt (S754_finite false 8796093022208000 (-54)) f0_1 = true ∧
  fgt (S754_finite false 6755399441055744 (-58)) f0_1 = false.
Proof. vm_compute. done. Qed.

(** 10240 bytes in one second are 10.0 KB/s exactly. *)
Example ten_kilobytes_per_second :
  UploadKBps (speedOf (mkInterface (counters "eth0" 0 0) 0)
                      (mkInterface (counters "eth0" 10240 0) 1000000000)
                      (Seconds (Sub 1000000000 0)) 1000000000)
  = float64_of_Z 10.
Proof. reflexivity. Qed.

(** ** Counters that went down *)

Lemma uint64_sub_wrap c p :
  0 ≤ c < p → p < 2 ^ 64 → uint64 (c - p) = c - p + 2 ^ 64.
Proof.
  intros Hc Hp. unfold uint64. symmetry.
  apply (Z.mod_unique _ _ (-1)); lia.
Qed.

(** The speed computed from a byte difference of [k] binary digits. *)
Lemma rate_ranged diff timeDiff k :
  ranged false (-29) 37 timeDiff →
  1 ≤ k → 2 ^ (k - 1) ≤ diff < 2 ^ 64 →
  ranged false (k - 48) 87 (fdiv (fdiv (float64_of_Z diff) timeDiff) f1024).
Proof.
  intros Htd Hk Hdiff.
  assert (Hpos : 0 < diff).
  { assert (0 < 2 ^ (k - 1)) by (apply Z.pow_pos_nonneg; lia). lia. }
  assert (Hd : k ≤ Zdigits2 diff ≤ 64).
  { split.
    - pose proof (Zdigits2_ge diff (k - 1) Hpos ltac:(lia)). lia.
    - apply Zdigits2_le; lia. }
  assert (Hf : ranged false k 65 (float64_of_Z diff)).
  { eapply ranged_weaken; [| |apply float64_of_Z_pos]; lia. }
  pose proof (fdiv_ranged false false _ _ _ _ _ _ Hf Htd
                ltac:(lia) ltac:(lia)) as Hq.
  pose proof (fdiv_ranged false false _ _ _ _ _ _ Hq f1024_ranged
                ltac:(lia) ltac:(lia)) as Hr.
  eapply ranged_weaken; [| |exact Hr]; lia.
Qed.

(** The speed computed from a counter that went down from [p] to [c]. *)
Lemma wrapped_rate c p timeDiff :
  ranged false (-29) 37 timeDiff →
  0 ≤ c < p → p < 2 ^ 64 →
  let rate := fdiv (fdiv (float64_of_Z (uint64 (c - p))) timeDiff) f1024 in
  uint64 (c - p) = c - p + 2 ^ 64 ∧
  0 < c - p + 2 ^ 64 < 2 ^ 64 ∧
  fle rate f0 = false ∧
  (p - c ≤ 2 ^ 63 → fle (pow2 15) rate = true ∧ fgt rate f0_1 = true).
Proof.
  intros Htd Hc Hp rate. subst rate.
  rewrite (uint64_sub_wrap _ _ Hc Hp).
  split; [reflexivity|]. split; [lia|]. split.
  - eapply ranged_pos_fle_f0.
    apply (rate_ranged _ timeDiff 1 Htd); [lia|].
    change (2 ^ (1 - 1)) with 1. lia.
  - intros Hfall.
    assert (Hr : ranged false 16 87
                   (fdiv (fdiv (float64_of_Z (c - p + 2 ^ 64)) timeDiff) f1024)).
    { apply (rate_ranged _ timeDiff 64 Htd); [lia|].
      change (64 - 1) with 63. lia. }
    split; [by apply (ranged_ge_pow2 16 87)|].
    rewrite f0_1_eq. apply (ranged_fgt 16 87); [exact Hr|lia].
Qed.

(** C10, as the code has it.  When a byte counter of an interface, sent
    or received, is below its previous reading, the difference the code
    takes is the [uint64] one, [current - previous + 2^64], a positive
    number below [2^64]; the speed computed from it is a positive number,
    never zero or negative.  When the counter fell by at most [2^63], the
    speed is at least [2^15] KB/s and the interface is reported. *)
Theorem GetNetworkSpeeds_counter_reset (S : SliceSorter) (env : NetEnv)
    (now : Time) (st : NetState) (previous : gmap string NetworkInterface)
    (currentStats : NetworkStats) (current prev_i : NetworkInterface) :
  previousNetStats st = Some previous →
  0 < Sub now (lastNetworkRead st) →
  GetNetworkStats S env = Ok currentStats →
  current ∈ Interfaces currentStats →
  previous !! Name current = Some prev_i →
  let timeDiff := Seconds (Sub now (lastNetworkRead st)) in
  let speed := speedOf prev_i current timeDiff now in
  let reported :=
    ∃ speeds st', GetNetworkSpeeds S env now st = (Ok speeds, st') ∧
                  speed ∈ speeds in
  (0 ≤ BytesSent current < BytesSent prev_i → BytesSent prev_i < 2 ^ 64 →
   let sentDiff := BytesSent current - BytesSent prev_i + 2 ^ 64 in
   uint64 (BytesSent current - BytesSent prev_i) = sentDiff ∧
   0 < sentDiff < 2 ^ 64 ∧
   UploadKBps speed = fdiv (fdiv (float64_of_Z sentDiff) timeDiff) f1024 ∧
   fle (UploadKBps speed) f0 = false ∧
   (BytesSent prev_i - BytesSent current ≤ 2 ^ 63 →
    fle (pow2 15) (UploadKBps speed) = true ∧ reported)) ∧
  (0 ≤ BytesRecv current < BytesRecv prev_i → BytesRecv prev_i < 2 ^ 64 →
   let recvDiff := BytesRecv current - BytesRecv prev_i + 2 ^ 64 in
   uint64 (BytesRecv current - BytesRecv prev_i) = recvDiff ∧
   0 < recvDiff < 2 ^ 64 ∧
   DownloadKBps speed = fdiv (fdiv (float64_of_Z recvDiff) timeDiff) f1024 ∧
   fle (DownloadKBps speed) f0 = false ∧
   (BytesRecv prev_i - BytesRecv current ≤ 2 ^ 63 →
    fle (pow2 15) (DownloadKBps speed) = true ∧ reported)).
Proof.
  intros Hprev Hdt Hstats Hin Hp timeDiff speed reported.
  pose proof (timeDiff_positive _ _ Hdt) as Htd. fold timeDiff in Htd.
  assert (Hrep : significant speed = true → reported).
  { intros Hsig.
    destruct (reported_iff S env now st previous currentStats Hprev Hdt Hstats)
      as (speeds & st' & Hcall & Hiff).
    exists speeds, st'. split; [exact Hcall|].
    apply Hiff. exists current, prev_i. by split_and!. }
  split.
  - intros Hc Hlt sentDiff.
    destruct (wrapped_rate _ _ timeDiff Htd Hc Hlt)
      as (Hwrap & Hdiff & Hpos & Hbig).
    split; [exact Hwrap|]. split; [exact Hdiff|].
    split; [by unfold speed, speedOf; simpl; rewrite Hwrap|].
    split; [exact Hpos|].
    intros Hfall. destruct (Hbig Hfall) as [Hge Hgt].
    split; [exact Hge|]. apply Hrep.
    unfold significant. apply orb_true_iff. by left.
  - intros Hc Hlt recvDiff.
    destruct (wrapped_rate _ _ timeDiff Htd Hc Hlt)
      as (Hwrap & Hdiff & Hpos & Hbig).
    split; [exact Hwrap|]. split; [exact Hdiff|].
    split; [by unfold speed, speedOf; simpl; rewrite Hwrap|].
    split; [exact Hpos|].
    intros Hfall. destruct (Hbig Hfall) as [Hge Hgt].
    split; [exact Hge|]. apply Hrep.
    unfold significant. apply orb_true_iff. by right.
Qed.

(** [eth0] was at 5000 bytes sent and is at 1000 one second later. *)
Definition beforeReset : NetState :=
  {| previousNetStats :=
       Some (storeAll [mkInterface (counters "eth0" 5000 2000) 0] ∅);
     lastNetworkRead := 0 |}.

Definition resetSpeed : NetworkSpeed :=
  speedOf (mkInterface (counters "eth0" 5000 2000) 0)
          (mkInterface (counters "eth0" 1000 2000) 1000000000)
          (Seconds (Sub 1000000000 0)) 1000000000.

Lemma GetNetworkSpeeds_counter_reset_witness :
  uint64 (1000 - 5000) = 1000 - 5000 + 2 ^ 64 ∧
  fle (UploadKBps resetSpeed) f0 = false ∧
  fle (pow2 15) (UploadKBps resetSpeed) = true ∧
  ∃ speeds st',
    GetNetworkSpeeds stableSorter (poll 1000000000 [counters "eth0" 1000 2000])
      1000000000 beforeReset = (Ok speeds, st') ∧
    resetSpeed ∈ speeds.
Proof.
  edestruct (GetNetworkSpeeds_counter_reset stableSorter
               (poll 1000000000 [counters "eth0" 1000 2000]) 1000000000
               beforeReset
               (storeAll [mkInterface (counters "eth0" 5000 2000) 0] ∅)
               _ (mkInterface (counters "eth0" 1000 2000) 1000000000)
               (mkInterface (counters "eth0" 5000 2000) 0)
               eq_refl eq_refl eq_refl)
    as [Hsent _].
  - vm_compute. left.
  - reflexivity.
  - destruct Hsent as (Hwrap & _ & _ & Hpos & Hbig).
    + vm_compute. split; [discriminate|reflexivity].
    + reflexivity.
    + destruct Hbig as [Hge Hin]; [vm_compute; discriminate|].
      split; [exact Hwrap|]. split; [exact Hpos|].
      split; [exact Hge|exact Hin].
Defined.

(** C10, as the specification has it, does not hold for every counter
    that went down: a counter that was at [2^64 - 1] and is at 0 gives a
    difference of one byte, and with nothing received the interface is
    not reported at all. *)
Lemma GetNetworkSpeeds_counter_reset_not_always_reported :
  ¬ (∀ (S : SliceSorter) (env : NetEnv) (now : Time) (st : NetState)
       (previous : gmap string NetworkInterface) (currentStats : NetworkStats)
       (current prev_i : NetworkInterface),
        previousNetStats st = Some previous →
        0 < Sub now (lastNetworkRead st) →
        GetNetworkStats S env = Ok currentStats →
        current ∈ Interfaces currentStats →
        previous !! Name current = Some prev_i →
        0 ≤ BytesSent current < BytesSent prev_i →
        BytesSent prev_i < 2 ^ 64 →
        ∃ speeds st',
          GetNetworkSpeeds S env now st = (Ok speeds, st') ∧
          ∃ speed, speed ∈ speeds ∧ Interface speed = Name current).
Proof.
  intros Hclaim.
  destruct (Hclaim stableSorter (poll 1000000000 [counters "eth0" 0 2000])
              1000000000
              {| previousNetStats :=
                   Some (storeAll
                           [mkInterface (counters "eth0" (2 ^ 64 - 1) 2000) 0] ∅);
                 lastNetworkRead := 0 |}
              _ _ (mkInterface (counters "eth0" 0 2000) 1000000000)
              (mkInterface (counters "eth0" (2 ^ 64 - 1) 2000) 0)
              eq_refl eq_refl eq_refl)
    as (speeds & st' & Hcall & speed & Hin & _).
  - vm_compute. left.
  - reflexivity.
  - vm_compute. split; [discriminate|reflexivity].
  - reflexivity.
  - apply (f_equal fst) in Hcall. vm_compute in Hcall.
    injection Hcall as <-. by apply elem_of_nil in Hin.
Qed.

(** ** Loopback interfaces *)

(** A counter that goes into the totals: not loopback, and with traffic. *)
Definition counted (counter : net.IOCountersStat) : bool :=
  negb (isLoopbackInterface (net.Name counter)) &&
  ((0 <? net.BytesSent counter) || (0 <? net.BytesRecv counter)).

Definition Zsum (l : list Z) : Z := foldr Z.add 0 l.

(** The interfaces built from the counters, in their order. *)
Definition built (stamp : nat → Time) (base : nat)
    (ioCounters : list net.IOCountersStat) : list NetworkInterface :=
  imap (λ i counter, mkInterface counter (stamp (base + i)%nat)) ioCounters.

Lemma tally_interfaces stamp ioCounters t :
  interfaces (foldl (tally stamp) t ioCounters) =
  interfaces t ++ built stamp (length (interfaces t)) ioCounters.
Proof.
  revert t. induction ioCounters as [|c cs IH]; intros t; simpl.
  - by rewrite app_nil_r.
  - rewrite IH. simpl. rewrite <- app_assoc. f_equal. simpl.
    unfold built. simpl. rewrite Nat.add_0_r. f_equal.
    apply imap_ext. intros i x _. simpl. rewrite length_app. simpl.
    do 2 f_equal. lia.
Qed.

Lemma Zsum_cons x l : Zsum (x :: l) = x + Zsum l.
Proof. reflexivity. Qed.

Lemma tally_step stamp t c :
  totalSent (tally stamp t c) =
    (if counted c then uint64 (totalSent t + net.BytesSent c) else totalSent t) ∧
  totalRecv (tally stamp t c) =
    (if counted c then uint64 (totalRecv t + net.BytesRecv c) else totalRecv t) ∧
  activeCount (tally stamp t c) =
    (if counted c then activeCount t + 1 else activeCount t).
Proof. done. Qed.

Lemma tally_totals stamp ioCounters t :
  uint64 (totalSent (foldl (tally stamp) t ioCounters)) =
    uint64 (totalSent t + Zsum (net.BytesSent <$> filter (λ c, counted c) ioCounters)) ∧
  uint64 (totalRecv (foldl (tally stamp) t ioCounters)) =
    uint64 (totalRecv t + Zsum (net.BytesRecv <$> filter (λ c, counted c) ioCounters)) ∧
  activeCount (foldl (tally stamp) t ioCounters) =
    activeCount t + Z.of_nat (length (filter (λ c, counted c) ioCounters)).
Proof.
  revert t. induction ioCounters as [|c cs IH]; intros t; simpl.
  - rewrite !Z.add_0_r. done.
  - destruct (IH (tally stamp t c)) as (IHs & IHr & IHa).
    destruct (tally_step stamp t c) as (Hs & Hr & Ha).
    rewrite IHs, IHr, IHa, Hs, Hr, Ha, filter_cons.
    destruct (counted c) eqn:Hc.
    + rewrite decide_True by done.
      rewrite !fmap_cons, !Zsum_cons, length_cons.
      unfold uint64. rewrite !Zplus_mod_idemp_l.
      repeat split; [f_equal; lia..|lia].
    + rewrite decide_False by exact id. done.
Qed.

Lemma tally_range stamp ioCounters t :
  0 ≤ totalSent t < 2 ^ 64 → 0 ≤ totalRecv t < 2 ^ 64 →
  0 ≤ totalSent (foldl (tally stamp) t ioCounters) < 2 ^ 64 ∧
  0 ≤ totalRecv (foldl (tally stamp) t ioCounters) < 2 ^ 64.
Proof.
  revert t. induction ioCounters as [|c cs IH]; intros t Hs Hr; simpl; [done|].
  destruct (tally_step stamp t c) as (Hts & Htr & _).
  apply IH; [rewrite Hts|rewrite Htr]; destruct (counted c); try done;
    unfold uint64; apply Z.mod_pos_bound; lia.
Qed.

Lemma active_filter (current : list NetworkInterface) acc :
  foldl (λ active iface,
           if negb (isLoopbackInterface (Name iface)) && HasTraffic iface
           then active ++ [iface] else active) acc current
  = acc ++ filter (λ iface, negb (isLoopbackInterface (Name iface))
                            && HasTraffic iface) current.
Proof.
  revert acc. induction current as [|iface current IH]; intros acc; simpl.
  - by rewrite app_nil_r.
  - rewrite IH, filter_cons.
    destruct (negb (isLoopbackInterface (Name iface)) && HasTraffic iface) eqn:Hc.
    + rewrite decide_True by done. by rewrite <- app_assoc.
    + rewrite decide_False by exact id. done.
Qed.

(** What [GetTopNetworkInterfaces] returns has no loopback interface and
    no interface without traffic in it. *)
Lemma GetTopNetworkInterfaces_elem S current limit top iface :
  GetTopNetworkInterfaces S current limit = Some top → iface ∈ top →
  iface ∈ current ∧ isLoopbackInterface (Name iface) = false ∧
  HasTraffic iface = true.
Proof.
  unfold GetTopNetworkInterfaces. rewrite active_filter. simpl.
  set (sorted := sortSlice S byTraffic _).
  intros Htop Hin.
  assert (Hs : iface ∈ sorted).
  { destruct (Z.of_nat (length sorted) <? limit); [by simplify_eq|].
    unfold slice_to in Htop. destruct (limit <? 0); [done|]. simplify_eq.
    apply elem_of_take in Hin as (i & Hi & _).
    by eapply list_elem_of_lookup_2. }
  unfold sorted in Hs. rewrite (sortSlice_perm S) in Hs.
  apply list_elem_of_filter in Hs as [Hc Hi]. split; [done|].
  apply Is_true_true, andb_true_iff in Hc as [Hlo Ht].
  by apply negb_true_iff in Hlo.
Qed.

(** A poll that reads the counters succeeds, with these totals and these
    interfaces. *)
Lemma GetNetworkStats_Ok S env ioCounters :
  env_IOCounters env = Ok ioCounters →
  ∃ stats,
    GetNetworkStats S env = Ok stats ∧
    TotalSent stats =
      uint64 (Zsum (net.BytesSent <$> filter (λ c, counted c) ioCounters)) ∧
    TotalRecv stats =
      uint64 (Zsum (net.BytesRecv <$> filter (λ c, counted c) ioCounters)) ∧
    ActiveIfaces stats = Z.of_nat (length (filter (λ c, counted c) ioCounters)) ∧
    Interfaces stats ≡ₚ built (env_LastUpdate env) 0 ioCounters.
Proof.
  intros Hio. unfold GetNetworkStats. rewrite Hio.
  eexists. split; [reflexivity|]. simpl.
  set (t0 := {| interfaces := []; totalSent := 0; totalRecv := 0;
                activeCount := 0 |}).
  destruct (tally_totals (env_LastUpdate env) ioCounters t0) as (Hs & Hr & Ha).
  destruct (tally_range (env_LastUpdate env) ioCounters t0) as (Hsr & Hrr);
    [done..|].
  unfold uint64 in Hs, Hr. rewrite Z.mod_small in Hs, Hr by done.
  split; [exact Hs|]. split; [exact Hr|]. split; [exact Ha|].
  by rewrite (sortSlice_perm S), tally_interfaces.
Qed.

(** The same poll with the loopback counters taken out. *)
Definition withoutLoopback (env : NetEnv) : NetEnv :=
  {| env_Now := env_Now env;
     env_IOCounters :=
       match env_IOCounters env with
       | Ok ioCounters =>
           Ok (filter (λ c, negb (isLoopbackInterface (net.Name c))) ioCounters)
       | Err msg => Err msg
       end;
     env_LastUpdate := env_LastUpdate env;
     env_Connections := env_Connections env |}.

Lemma counted_without_loopback (ioCounters : list net.IOCountersStat) :
  filter (λ c, counted c)
         (filter (λ c, negb (isLoopbackInterface (net.Name c))) ioCounters)
  = filter (λ c, counted c) ioCounters.
Proof.
  rewrite list_filter_filter. apply list_filter_iff. intros c.
  unfold counted. destruct (isLoopbackInterface (net.Name c)); simpl; tauto.
Qed.

(** C6, as the code has it.  A poll that reads the counters succeeds; its
    totals are the sums, modulo [2^64], over the counters that are not
    loopback and have traffic, so they are the totals of the same poll
    without its loopback counters; every counter, loopback or not, has its
    interface in the list [Interfaces] of the poll; and the list that
    [GetTopNetworkInterfaces] makes of it for the display has no loopback
    interface in it. *)
Theorem loopback_in_totals_and_listings (S : SliceSorter) (env : NetEnv)
    (ioCounters : list net.IOCountersStat) :
  env_IOCounters env = Ok ioCounters →
  ∃ stats,
    GetNetworkStats S env = Ok stats ∧
    TotalSent stats =
      uint64 (Zsum (net.BytesSent <$> filter (λ c, counted c) ioCounters)) ∧
    TotalRecv stats =
      uint64 (Zsum (net.BytesRecv <$> filter (λ c, counted c) ioCounters)) ∧
    ActiveIfaces stats = Z.of_nat (length (filter (λ c, counted c) ioCounters)) ∧
    (∃ stats', GetNetworkStats S (withoutLoopback env) = Ok stats' ∧
               TotalSent stats' = TotalSent stats ∧
               TotalRecv stats' = TotalRecv stats ∧
               ActiveIfaces stats' = ActiveIfaces stats) ∧
    (∀ counter, counter ∈ ioCounters →
                ∃ now, mkInterface counter now ∈ Interfaces stats) ∧
    (∀ limit top iface,
        GetTopNetworkInterfaces S (Interfaces stats) limit = Some top →
        iface ∈ top → isLoopbackInterface (Name iface) = false).
Proof.
  intros Hio.
  destruct (GetNetworkStats_Ok S env ioCounters Hio)
    as (stats & Hstats & Hs & Hr & Ha & Hperm).
  exists stats. split; [exact Hstats|].
  split; [exact Hs|]. split; [exact Hr|]. split; [exact Ha|].
  split; [|split].
  - destruct (GetNetworkStats_Ok S (withoutLoopback env)
                (filter (λ c, negb (isLoopbackInterface (net.Name c))) ioCounters))
      as (stats' & Hstats' & Hs' & Hr' & Ha' & _).
    { unfold withoutLoopback. simpl. by rewrite Hio. }
    rewrite counted_without_loopback in Hs', Hr', Ha'.
    exists stats'. split; [exact Hstats'|]. by rewrite Hs, Hr, Ha.
  - intros counter Hin. apply list_elem_of_lookup in Hin as [i Hi].
    exists (env_LastUpdate env i). rewrite Hperm.
    apply list_elem_of_lookup. exists i.
    unfold built. by rewrite list_lookup_imap, Hi.
  - intros limit top iface Htop Hin.
    by destruct (GetTopNetworkInterfaces_elem _ _ _ _ _ Htop Hin) as (_ & ? & _).
Qed.

(** A poll that reads the loopback interface and [eth0], both with
    traffic. *)
Definition withLoopback : NetEnv :=
  poll 0 [counters "lo" 700 700; counters "eth0" 1000 2000].

Lemma loopback_in_totals_and_listings_witness :
  ∃ stats,
    GetNetworkStats stableSorter withLoopback = Ok stats ∧
    TotalSent stats = 1000 ∧ TotalRecv stats = 2000 ∧ ActiveIfaces stats = 1 ∧
    (∃ now, mkInterface (counters "lo" 700 700) now ∈ Interfaces stats) ∧
    (∀ limit top iface,
        GetTopNetworkInterfaces stableSorter (Interfaces stats) limit = Some top →
        iface ∈ top → isLoopbackInterface (Name iface) = false).
Proof.
  destruct (loopback_in_totals_and_listings stableSorter withLoopback
              [counters "lo" 700 700; counters "eth0" 1000 2000] eq_refl)
    as (stats & Hstats & Hs & Hr & Ha & _ & Hall & Htop).
  exists stats. split; [exact Hstats|].
  split; [exact Hs|]. split; [exact Hr|]. split; [exact Ha|].
  split; [|exact Htop]. apply Hall. left.
Defined.

(** C6, as the specification has it, does not hold for the listing made
    for the display: a loopback interface with traffic is in [Interfaces]
    but not in what [GetTopNetworkInterfaces] returns. *)
Lemma loopback_not_in_display_listing :
  ¬ (∀ (S : SliceSorter) (env : NetEnv) (stats : NetworkStats)
       (ioCounters : list net.IOCountersStat) (counter : net.IOCountersStat)
       (top : list NetworkInterface),
        env_IOCounters env = Ok ioCounters →
        GetNetworkStats S env = Ok stats →
        counter ∈ ioCounters →
        isLoopbackInterface (net.Name counter) = true →
        GetTopNetworkInterfaces S (Interfaces stats) 8 = Some top →
        ∃ iface, iface ∈ top ∧ Name iface = net.Name counter).
Proof.
  intros Hclaim.
  edestruct (Hclaim stableSorter withLoopback) as (iface & Hin & Hname).
  - reflexivity.
  - reflexivity.
  - left.
  - reflexivity.
  - reflexivity.
  - vm_compute in Hin. apply list_elem_of_singleton in Hin. by subst iface.
Qed.

(** ** A poll that fails *)

(** X5.  When the counters cannot be read, [GetNetworkStats] returns the
    error with the message ["failed to get network IO counters: "] before
    it, and [GetNetworkSpeeds] passes that error on as it is and leaves
    the store and the time of the last read untouched. *)
Theorem GetNetworkSpeeds_failed_poll (S : SliceSorter) (env : NetEnv)
    (now : Time) (st : NetState) (msg : string) :
  env_IOCounters env = Err msg →
  GetNetworkStats S env = Err ("failed to get network IO counters: " +:+ msg) ∧
  GetNetworkSpeeds S env now st =
    (Err ("failed to get network IO counters: " +:+ msg), st).
Proof.
  intros Hio.
  assert (Hstats : GetNetworkStats S env =
                     Err ("failed to get network IO counters: " +:+ msg)).
  { unfold GetNetworkStats. by rewrite Hio. }
  split; [exact Hstats|]. unfold GetNetworkSpeeds. by rewrite Hstats.
Qed.

(** A poll that is refused. *)
Definition noCounters : NetEnv :=
  {| env_Now := 5; env_IOCounters := Err "permission denied";
     env_LastUpdate := λ _, 5; env_Connections := Ok [] |}.

Lemma GetNetworkSpeeds_failed_poll_witness :
  GetNetworkStats stableSorter noCounters
    = Err "failed to get network IO counters: permission denied" ∧
  GetNetworkSpeeds stableSorter noCounters 5 initialNetState
    = (Err "failed to get network IO counters: permission denied",
       initialNetState).
Proof.
  apply (GetNetworkSpeeds_failed_poll stableSorter noCounters 5 initialNetState
           "permission denied").
  reflexivity.
Defined.

(** ** The order of the interfaces *)

(** The total traffic the two interface sorts compare: a [uint64] sum. *)
Definition traffic (iface : NetworkInterface) : Z :=
  uint64 (BytesSent iface + BytesRecv iface).

(** Most traffic first. *)
Definition MostTrafficFirst (l : list NetworkInterface) : Prop :=
  StronglySorted (λ a b, traffic b ≤ traffic a) l.

Lemma byTraffic_StrictWeakOn l : StrictWeakOn byTraffic l.
Proof.
  unfold byTraffic. repeat split.
  - intros x _. apply Z.ltb_irrefl.
  - intros x y z _ _ _ Hxy Hyz. apply Z.ltb_lt in Hxy, Hyz. apply Z.ltb_lt. lia.
  - intros x y z _ _ _ Hxy Hyz. apply Z.ltb_ge in Hxy, Hyz. apply Z.ltb_ge. lia.
Qed.

Lemma sorted_byTraffic S l : MostTrafficFirst (sortSlice S byTraffic l).
Proof.
  pose proof (sortSlice_sorted S _ byTraffic l (byTraffic_StrictWeakOn l)) as Hs.
  unfold SortedBy in Hs. unfold MostTrafficFirst.
  eapply ProcessesSpec.StronglySorted_weaken; [|exact Hs].
  intros x y _ _ Hxy. simpl in Hxy. unfold byTraffic in Hxy.
  apply Z.ltb_ge in Hxy. exact Hxy.
Qed.

Lemma built_elem stamp base ioCounters iface :
  iface ∈ built stamp base ioCounters →
  ∃ counter now, counter ∈ ioCounters ∧ iface = mkInterface counter now.
Proof.
  unfold built. intros Hin.
  apply list_elem_of_lookup in Hin as [i Hi].
  rewrite list_lookup_imap in Hi.
  destruct (ioCounters !! i) as [counter|] eqn:Hc; [|done].
  simpl in Hi. injection Hi as <-.
  exists counter, (stamp (base + i)%nat). split; [|done].
  by eapply list_elem_of_lookup_2.
Qed.

Lemma length_built stamp base ioCounters :
  length (built stamp base ioCounters) = length ioCounters.
Proof. unfold built. apply length_imap. Qed.

(** X6.  A poll that reads the counters returns one interface for each
    counter, most traffic first, where the traffic of an interface is the
    [uint64] sum of its two byte counters.  An interface is up exactly
    when it has traffic, that is when one of its byte counters is above
    zero; its [Speed] is never filled in.  [ActiveIfaces] is at most the
    number of interfaces, and the time stamp is the time of the call. *)
Theorem GetNetworkStats_interfaces (S : SliceSorter) (env : NetEnv)
    (ioCounters : list net.IOCountersStat) :
  env_IOCounters env = Ok ioCounters →
  ∃ stats,
    GetNetworkStats S env = Ok stats ∧
    length (Interfaces stats) = length ioCounters ∧
    MostTrafficFirst (Interfaces stats) ∧
    (∀ iface, iface ∈ Interfaces stats →
       IsUp iface = HasTraffic iface ∧
       (HasTraffic iface = true ↔ 0 < BytesSent iface ∨ 0 < BytesRecv iface) ∧
       Speed iface = 0) ∧
    0 ≤ ActiveIfaces stats ≤ Z.of_nat (length (Interfaces stats)) ∧
    Timestamp stats = env_Now env.
Proof.
  intros Hio.
  destruct (GetNetworkStats_Ok S env ioCounters Hio)
    as (stats & Hstats & _ & _ & Ha & Hperm).
  exists stats. split; [exact Hstats|].
  assert (Hlen : length (Interfaces stats) = length ioCounters)
    by by rewrite Hperm, length_built.
  split; [exact Hlen|].
  assert (Hact : 0 ≤ ActiveIfaces stats ≤ Z.of_nat (length (Interfaces stats))).
  { rewrite Hlen, Ha.
    pose proof (length_filter (λ c, counted c) ioCounters). lia. }
  unfold GetNetworkStats in Hstats. rewrite Hio in Hstats.
  injection Hstats as <-. cbn [Interfaces Timestamp] in *.
  split; [apply sorted_byTraffic|]. split; [|split; [exact Hact|done]].
  intros iface Hin. rewrite Hperm in Hin.
  apply built_elem in Hin as (counter & t & _ & ->). simpl.
  split; [done|]. split; [|done].
  rewrite orb_true_iff, !Z.ltb_lt. done.
Qed.

Lemma GetNetworkStats_interfaces_witness :
  ∃ stats,
    GetNetworkStats stableSorter withLoopback = Ok stats ∧
    length (Interfaces stats) = 2%nat ∧
    MostTrafficFirst (Interfaces stats) ∧
    (∀ iface, iface ∈ Interfaces stats →
       IsUp iface = HasTraffic iface ∧
       (HasTraffic iface = true ↔ 0 < BytesSent iface ∨ 0 < BytesRecv iface) ∧
       Speed iface = 0) ∧
    0 ≤ ActiveIfaces stats ≤ Z.of_nat (length (Interfaces stats)) ∧
    Timestamp stats = 0.
Proof.
  apply (GetNetworkStats_interfaces stableSorter withLoopback
           [counters "lo" 700 700; counters "eth0" 1000 2000]).
  reflexivity.
Defined.

(** ** Connections *)

(** A connection that [getConnectionCount] counts. *)
Definition established (conn : net.ConnectionStat) : bool :=
  String.eqb (net.Status conn) "ESTABLISHED".

Lemma getConnectionCount_count connections acc :
  foldl (λ established conn,
           if String.eqb (net.Status conn) "ESTABLISHED"
           then established + 1 else established) acc connections
  = acc + Z.of_nat (length (filter (λ c, established c) connections)).
Proof.
  revert acc. induction connections as [|c cs IH]; intros acc; simpl; [lia|].
  rewrite IH, filter_cons.
  change (String.eqb (net.Status c) "ESTABLISHED") with (established c).
  destruct (established c).
  - rewrite decide_True by done. rewrite length_cons. lia.
  - rewrite decide_False by exact id. done.
Qed.

(** X7.  [Connections] is the number of connections whose status is
    ["ESTABLISHED"].  When the connections cannot be listed the error is
    dropped: the poll still succeeds, with [Connections] at zero. *)
Theorem GetNetworkStats_Connections (S : SliceSorter) (env : NetEnv)
    (ioCounters : list net.IOCountersStat) :
  env_IOCounters env = Ok ioCounters →
  ∃ stats,
    GetNetworkStats S env = Ok stats ∧
    (∀ connections, env_Connections env = Ok connections →
       Connections stats =
         Z.of_nat (length (filter (λ c, established c) connections)) ∧
       0 ≤ Connections stats ≤ Z.of_nat (length connections)) ∧
    (∀ msg, env_Connections env = Err msg → Connections stats = 0).
Proof.
  intros Hio. unfold GetNetworkStats. rewrite Hio.
  eexists. split; [reflexivity|]. cbn [Connections]. split.
  - intros connections ->. unfold getConnectionCount.
    rewrite getConnectionCount_count.
    pose proof (length_filter (λ c, established c) connections). lia.
  - by intros msg ->.
Qed.

(** Three connections, two of them established. *)
Definition threeConnections : NetEnv :=
  {| env_Now := 0; env_IOCounters := Ok [counters "eth0" 1000 2000];
     env_LastUpdate := λ _, 0;
     env_Connections := Ok [ {| net.Status := "ESTABLISHED" |};
                             {| net.Status := "LISTEN" |};
                             {| net.Status := "ESTABLISHED" |} ] |}.

Lemma GetNetworkStats_Connections_witness :
  ∃ stats,
    GetNetworkStats stableSorter threeConnections = Ok stats ∧
    Connections stats = 2.
Proof.
  destruct (GetNetworkStats_Connections stableSorter threeConnections
              [counters "eth0" 1000 2000] eq_refl)
    as (stats & Hstats & Hok & _).
  exists stats. split; [exact Hstats|].
  destruct (Hok _ eq_refl) as [-> _]. reflexivity.
Defined.

(** ** The interfaces for the display *)

(** An interface that [GetTopNetworkInterfaces] keeps. *)
Definition active (iface : NetworkInterface) : bool :=
  negb (isLoopbackInterface (Name iface)) && HasTraffic iface.

(** [GetTopNetworkInterfaces] sorts the interfaces it keeps and cuts the
    sorted list at the limit. *)
Lemma GetTopNetworkInterfaces_active S interfaces limit :
  GetTopNetworkInterfaces S interfaces limit =
    let sorted := sortSlice S byTraffic (filter (λ iface, active iface) interfaces) in
    if Z.of_nat (length sorted) <? limit then Some sorted
    else slice_to sorted limit.
Proof. unfold GetTopNetworkInterfaces. by rewrite active_filter. Qed.

(** X8.  [GetTopNetworkInterfaces] panics exactly when the limit is
    negative.  For any other limit it returns [limit] of the interfaces
    that are not loopback and have traffic (all of them if there are
    fewer), most traffic first, and none of those it leaves out has more
    traffic than one it returns. *)
Theorem GetTopNetworkInterfaces_top (S : SliceSorter)
    (interfaces : list NetworkInterface) (limit : Z) :
  (GetTopNetworkInterfaces S interfaces limit = None ↔ limit < 0) ∧
  (0 ≤ limit →
   ∃ top rest,
     GetTopNetworkInterfaces S interfaces limit = Some top ∧
     top ++ rest ≡ₚ filter (λ iface, active iface) interfaces ∧
     length top =
       (Z.to_nat limit `min` length (filter (λ iface, active iface) interfaces))%nat ∧
     MostTrafficFirst top ∧
     ∀ a b, a ∈ top → b ∈ rest → traffic b ≤ traffic a).
Proof.
  rewrite GetTopNetworkInterfaces_active. cbn zeta.
  pose proof (sortSlice_perm S _ byTraffic
                (filter (λ iface, active iface) interfaces)) as Hperm.
  pose proof (sorted_byTraffic S (filter (λ iface, active iface) interfaces))
    as Hsorted.
  set (sorted := sortSlice S byTraffic _) in *.
  assert (Hlen : length sorted = length (filter (λ iface, active iface) interfaces))
    by by rewrite Hperm.
  split.
  - destruct (Z.ltb_spec (Z.of_nat (length sorted)) limit) as [Hlt|Hge].
    + split; [done|lia].
    + unfold slice_to. destruct (Z.ltb_spec limit 0); split; done || lia.
  - intros Hlimit.
    destruct (Z.ltb_spec (Z.of_nat (length sorted)) limit) as [Hlt|Hge].
    + exists sorted, []. split; [done|]. rewrite app_nil_r.
      split; [done|]. split; [lia|]. split; [done|].
      intros a b _ Hb. by apply elem_of_nil in Hb.
    + rewrite slice_to_Some by done.
      exists (take (Z.to_nat limit) sorted), (drop (Z.to_nat limit) sorted).
      split; [done|]. rewrite take_drop. split; [done|].
      split; [rewrite length_take; lia|].
      unfold MostTrafficFirst in *.
      rewrite <- (take_drop (Z.to_nat limit) sorted) in Hsorted.
      split; [by apply StronglySorted_app_1_l in Hsorted|].
      intros a b Ha Hb.
      apply (StronglySorted_app_1_elem_of _ _ _ a b Hsorted Ha Hb).
Qed.

Lemma GetTopNetworkInterfaces_top_witness :
  GetTopNetworkInterfaces stableSorter [] (-1) = None ∧
  ∃ top (rest : list NetworkInterface),
    GetTopNetworkInterfaces stableSorter
      [mkInterface (counters "lo" 700 700) 0;
       mkInterface (counters "eth0" 1000 2000) 0;
       mkInterface (counters "wlan0" 4000 0) 0;
       mkInterface (counters "tun0" 0 0) 0] 1 = Some top ∧
    top = [mkInterface (counters "wlan0" 4000 0) 0] ∧
    ∀ a b, a ∈ top → b ∈ rest → traffic b ≤ traffic a.
Proof.
  split.
  - apply (GetTopNetworkInterfaces_top stableSorter [] (-1)). lia.
  - destruct (GetTopNetworkInterfaces_top stableSorter
                [mkInterface (counters "lo" 700 700) 0;
                 mkInterface (counters "eth0" 1000 2000) 0;
                 mkInterface (counters "wlan0" 4000 0) 0;
                 mkInterface (counters "tun0" 0 0) 0] 1)
      as [_ Htop].
    destruct Htop as (top & rest & Hcall & _ & _ & _ & Hrest); [lia|].
    exists top, rest. split; [exact Hcall|]. split; [|exact Hrest].
    vm_compute in Hcall. by injection Hcall as <-.
Defined.

(** ** The rows of the interface table *)

Lemma length_filter_imap {A B : Type} (P : B → bool) (Q : A → bool)
    (g : nat → A → B) (l : list A) :
  (∀ i x, P (g i x) = Q x) →
  length (filter (λ y, P y) (imap g l)) = length (filter (λ x, Q x) l).
Proof.
  revert g. induction l as [|x l IH]; intros g Hg; [done|].
  rewrite imap_cons, !filter_cons, Hg.
  destruct (Q x).
  - rewrite !decide_True by done. rewrite !length_cons. f_equal.
    apply IH. intros i y. apply Hg.
  - rewrite !decide_False by exact id. apply IH. intros i y. apply Hg.
Qed.

(** X9.  The interface table and the summary above it agree: of the
    interfaces of a poll, [GetTopNetworkInterfaces] returns as many as
    [ActiveIfaces] counts, or [limit] if that is less. *)
Theorem GetTopNetworkInterfaces_rows (S : SliceSorter) (env : NetEnv)
    (ioCounters : list net.IOCountersStat) (limit : Z) :
  env_IOCounters env = Ok ioCounters →
  0 ≤ limit →
  ∃ stats top,
    GetNetworkStats S env = Ok stats ∧
    GetTopNetworkInterfaces S (Interfaces stats) limit = Some top ∧
    Z.of_nat (length top) = Z.min limit (ActiveIfaces stats).
Proof.
  intros Hio Hlimit.
  destruct (GetNetworkStats_Ok S env ioCounters Hio)
    as (stats & Hstats & _ & _ & Ha & Hperm).
  exists stats. rewrite GetTopNetworkInterfaces_active. cbn zeta.
  set (sorted := sortSlice S byTraffic _).
  assert (Hlen : Z.of_nat (length sorted) = ActiveIfaces stats).
  { unfold sorted. rewrite (sortSlice_perm S), Hperm, Ha. unfold built.
    by rewrite (length_filter_imap active counted). }
  destruct (Z.ltb_spec (Z.of_nat (length sorted)) limit) as [Hlt|Hge].
  - exists sorted. split; [exact Hstats|]. split; [done|]. lia.
  - rewrite slice_to_Some by done. eexists.
    split; [exact Hstats|]. split; [done|]. rewrite length_take. lia.
Qed.

Lemma GetTopNetworkInterfaces_rows_witness :
  ∃ stats top,
    GetNetworkStats stableSorter withLoopback = Ok stats ∧
    GetTopNetworkInterfaces stableSorter (Interfaces stats) 8 = Some top ∧
    Z.of_nat (length top) = Z.min 8 (ActiveIfaces stats).
Proof.
  apply (GetTopNetworkInterfaces_rows stableSorter withLoopback
           [counters "lo" 700 700; counters "eth0" 1000 2000] 8).
  - reflexivity.
  - lia.
Defined.

(** ** The order and the sign of the speeds *)

(** The total speed the speed sort compares. *)
Definition totalSpeed (speed : NetworkSpeed) : float64 :=
  fadd (UploadKBps speed) (DownloadKBps speed).

(** A speed computed from a [uint64] difference is zero or a positive
    number. *)
Lemma rate_cases x timeDiff :
  ranged false (-29) 37 timeDiff →
  let rate := fdiv (fdiv (float64_of_Z (uint64 x)) timeDiff) f1024 in
  (uint64 x = 0 ∧ rate = S754_zero false) ∨
  (0 < uint64 x ∧ ranged false (-47) 87 rate).
Proof.
  intros Htd rate. subst rate.
  assert (Hx : 0 ≤ uint64 x < 2 ^ 64) by (apply Z.mod_pos_bound; lia).
  destruct (Z.eq_dec (uint64 x) 0) as [->|Hne].
  - left. split; [done|].
    destruct timeDiff as [| | |s m e]; try done.
    destruct Htd as (-> & _). reflexivity.
  - right. split; [lia|].
    apply (rate_ranged _ timeDiff 1 Htd); [lia|].
    change (2 ^ (1 - 1)) with 1. lia.
Qed.

Lemma ranged_not_nan s lo hi f : ranged s lo hi f → is_nan f = false.
Proof. by destruct f. Qed.

Lemma ranged_fle_f0 lo hi f : ranged false lo hi f → fle f0 f = true.
Proof. by destruct f as [| | |[] ? ?]; simpl; try intros (? & _). Qed.

(** What [speedOf] computes after positive elapsed time. *)
Lemma speedOf_cases prev_i current timeDiff now :
  ranged false (-29) 37 timeDiff →
  let speed := speedOf prev_i current timeDiff now in
  fle f0 (UploadKBps speed) = true ∧ fle f0 (DownloadKBps speed) = true ∧
  is_nan (totalSpeed speed) = false ∧
  (uint64 (BytesSent current - BytesSent prev_i) = 0 →
   uint64 (BytesRecv current - BytesRecv prev_i) = 0 →
   significant speed = false).
Proof.
  intros Htd speed. subst speed. unfold totalSpeed, significant.
  change (UploadKBps (speedOf prev_i current timeDiff now))
    with (fdiv (fdiv (float64_of_Z (uint64 (BytesSent current - BytesSent prev_i)))
                     timeDiff) f1024).
  change (DownloadKBps (speedOf prev_i current timeDiff now))
    with (fdiv (fdiv (float64_of_Z (uint64 (BytesRecv current - BytesRecv prev_i)))
                     timeDiff) f1024).
  destruct (rate_cases (BytesSent current - BytesSent prev_i) timeDiff Htd)
    as [[Hs0 ->]|[Hs Hu]];
  destruct (rate_cases (BytesRecv current - BytesRecv prev_i) timeDiff Htd)
    as [[Hr0 ->]|[Hr Hd]].
  - by repeat split.
  - split; [done|]. split; [by eapply ranged_fle_f0|]. split; [|lia].
    destruct (fdiv _ f1024) as [| | |s m e]; try done.
  - split; [by eapply ranged_fle_f0|]. split; [done|]. split; [|lia].
    destruct (fdiv _ f1024) as [| | |s m e]; try done.
  - split; [by eapply ranged_fle_f0|]. split; [by eapply ranged_fle_f0|].
    split; [|lia].
    eapply ranged_not_nan. apply (fadd_ranged false _ _ _ _ _ _ Hu Hd); lia.
Qed.

(** X10.  After positive elapsed time the speeds come out highest total
    first, where the total is the [float64] sum of upload and download;
    every speed returned is a number that is not negative, in both
    directions, and carries the time of the call. *)
Theorem GetNetworkSpeeds_fastest_first (S : SliceSorter) (env : NetEnv)
    (now : Time) (st : NetState) (previous : gmap string NetworkInterface)
    (currentStats : NetworkStats) :
  previousNetStats st = Some previous →
  0 < Sub now (lastNetworkRead st) →
  GetNetworkStats S env = Ok currentStats →
  ∃ speeds st',
    GetNetworkSpeeds S env now st = (Ok speeds, st') ∧
    StronglySorted (λ a b, fle (totalSpeed b) (totalSpeed a) = true) speeds ∧
    ∀ speed, speed ∈ speeds →
      fle f0 (UploadKBps speed) = true ∧ fle f0 (DownloadKBps speed) = true ∧
      SpeedTimestamp speed = now.
Proof.
  intros Hprev Hdt Hstats.
  rewrite (GetNetworkSpeeds_elapsed _ _ _ _ _ _ Hprev Hdt Hstats).
  pose proof (timeDiff_positive _ _ Hdt) as Htd.
  set (timeDiff := Seconds (Sub now (lastNetworkRead st))) in *.
  set (speeds := foldl (speedStep previous timeDiff now) [] (Interfaces currentStats)).
  assert (Hall : ∀ speed, speed ∈ speeds →
            fle f0 (UploadKBps speed) = true ∧ fle f0 (DownloadKBps speed) = true ∧
            SpeedTimestamp speed = now ∧ is_nan (totalSpeed speed) = false).
  { intros speed Hin. apply speedStep_elem in Hin as [Hin|Hin].
    - by apply elem_of_nil in Hin.
    - destruct Hin as (iface & prev_i & _ & _ & -> & _).
      destruct (speedOf_cases prev_i iface timeDiff now Htd) as (? & ? & ? & _).
      done. }
  eexists _, _. split; [reflexivity|]. split.
  - assert (Hswo : StrictWeakOn bySpeed speeds).
    { apply (fgt_key_StrictWeakOn totalSpeed). apply Forall_forall.
      intros speed Hin. by apply Hall. }
    pose proof (sortSlice_sorted S _ bySpeed speeds Hswo) as Hs.
    unfold SortedBy in Hs.
    eapply ProcessesSpec.StronglySorted_weaken; [|exact Hs].
    intros x y Hx Hy Hxy. simpl in Hxy.
    rewrite (sortSlice_perm S) in Hx, Hy.
    apply not_fgt_fle; [by apply Hall..|exact Hxy].
  - intros speed Hin. rewrite (sortSlice_perm S) in Hin.
    destruct (Hall speed Hin) as (? & ? & ? & _). done.
Qed.

Lemma GetNetworkSpeeds_fastest_first_witness :
  ∃ speeds st',
    GetNetworkSpeeds stableSorter
      (poll 2000000000 [counters "eth0" 2000 2048; counters "wlan0" 900000 500])
      2000000000 seeded = (Ok speeds, st') ∧
    StronglySorted (λ a b, fle (totalSpeed b) (totalSpeed a) = true) speeds ∧
    Interface <$> speeds = ["wlan0"; "eth0"]%string.
Proof.
  destruct (GetNetworkSpeeds_fastest_first stableSorter
              (poll 2000000000
                 [counters "eth0" 2000 2048; counters "wlan0" 900000 500])
              2000000000 seeded seededStore _ eq_refl eq_refl eq_refl)
    as (speeds & st' & Hcall & Hsorted & _).
  exists speeds, st'. split; [exact Hcall|]. split; [exact Hsorted|].
  apply (f_equal fst) in Hcall. vm_compute in Hcall. by injection Hcall as <-.
Defined.

(** ** Counters that did not move *)

(** X11.  Every speed returned belongs to an interface of the poll with
    a previous reading, one of whose byte counters is not what it was.
    When no counter has moved nothing is returned, and the time of the
    last read is still set to the time of the call. *)
Theorem GetNetworkSpeeds_idle (S : SliceSorter) (env : NetEnv)
    (now : Time) (st : NetState) (previous : gmap string NetworkInterface)
    (currentStats : NetworkStats) :
  previousNetStats st = Some previous →
  0 < Sub now (lastNetworkRead st) →
  GetNetworkStats S env = Ok currentStats →
  ∃ speeds st',
    GetNetworkSpeeds S env now st = (Ok speeds, st') ∧
    (∀ speed, speed ∈ speeds →
       ∃ current prev_i,
         current ∈ Interfaces currentStats ∧
         previous !! Name current = Some prev_i ∧
         Interface speed = Name current ∧
         (uint64 (BytesSent current - BytesSent prev_i) ≠ 0 ∨
          uint64 (BytesRecv current - BytesRecv prev_i) ≠ 0)) ∧
    ((∀ current prev_i,
         current ∈ Interfaces currentStats →
         previous !! Name current = Some prev_i →
         BytesSent current = BytesSent prev_i ∧
         BytesRecv current = BytesRecv prev_i) →
     speeds = []) ∧
    lastNetworkRead st' = now.
Proof.
  intros Hprev Hdt Hstats.
  destruct (reported_iff S env now st previous currentStats Hprev Hdt Hstats)
    as (speeds & st' & Hcall & Hiff).
  pose proof (timeDiff_positive _ _ Hdt) as Htd.
  exists speeds, st'. split; [exact Hcall|].
  assert (Hmoved : ∀ speed, speed ∈ speeds →
            ∃ current prev_i,
              current ∈ Interfaces currentStats ∧
              previous !! Name current = Some prev_i ∧
              Interface speed = Name current ∧
              (uint64 (BytesSent current - BytesSent prev_i) ≠ 0 ∨
               uint64 (BytesRecv current - BytesRecv prev_i) ≠ 0)).
  { intros speed Hin. apply Hiff in Hin as (current & prev_i & Hc & Hp & -> & Hsig).
    exists current, prev_i. split; [exact Hc|]. split; [exact Hp|].
    split; [reflexivity|].
    destruct (speedOf_cases prev_i current _ now Htd) as (_ & _ & _ & Hidle).
    destruct (Z.eq_dec (uint64 (BytesSent current - BytesSent prev_i)) 0) as [Hs|Hs];
      [|by left].
    destruct (Z.eq_dec (uint64 (BytesRecv current - BytesRecv prev_i)) 0) as [Hr|Hr];
      [|by right].
    rewrite (Hidle Hs Hr) in Hsig. discriminate Hsig. }
  split; [exact Hmoved|]. split.
  - intros Hsame. destruct speeds as [|speed speeds']; [done|].
    destruct (Hmoved speed) as (current & prev_i & Hc & Hp & _ & Hne); [by left|].
    destruct (Hsame current prev_i Hc Hp) as [Hs Hr].
    rewrite Hs, Hr, !Z.sub_diag in Hne. by destruct Hne.
  - rewrite (GetNetworkSpeeds_elapsed _ _ _ _ _ _ Hprev Hdt Hstats) in Hcall.
    by injection Hcall as _ <-.
Qed.

Lemma GetNetworkSpeeds_idle_witness :
  ∃ st',
    GetNetworkSpeeds stableSorter
      (poll 2000000000 [counters "eth0" 1000 2000; counters "wlan0" 500 500])
      2000000000 seeded = (Ok [], st') ∧
    lastNetworkRead st' = 2000000000.
Proof.
  destruct (GetNetworkSpeeds_idle stableSorter
              (poll 2000000000
                 [counters "eth0" 1000 2000; counters "wlan0" 500 500])
              2000000000 seeded seededStore _ eq_refl eq_refl eq_refl)
    as (speeds & st' & Hcall & _ & Hidle & Hlast).
  exists st'. split; [|exact Hlast].
  rewrite Hcall, Hidle; [done|].
  intros current prev_i Hin Hp. vm_compute in Hin.
  apply elem_of_cons in Hin as [->|Hin].
  - vm_compute in Hp. injection Hp as <-. split; reflexivity.
  - apply list_elem_of_singleton in Hin as ->.
    vm_compute in Hp. injection Hp as <-. split; reflexivity.
Defined.

(** ** Two calls in a row *)

(** X12.  The first call of a run returns nothing; the call after it,
    later by the clock, returns exactly the significant speeds of the
    interfaces it polls that the first call has polled too, each computed
    against the counters of the first call and the time between the two
    calls. *)
Theorem GetNetworkSpeeds_second_call (S : SliceSorter) (env1 env2 : NetEnv)
    (now1 now2 : Time) (stats1 stats2 : NetworkStats) :
  GetNetworkStats S env1 = Ok stats1 →
  GetNetworkStats S env2 = Ok stats2 →
  0 < Sub now2 now1 →
  ∃ st1 speeds st2,
    GetNetworkSpeeds S env1 now1 initialNetState = (Ok [], st1) ∧
    GetNetworkSpeeds S env2 now2 st1 = (Ok speeds, st2) ∧
    ∀ speed,
      speed ∈ speeds ↔
      ∃ current prev_i,
        current ∈ Interfaces stats2 ∧
        lastNamed (Name current) (Interfaces stats1) = Some prev_i ∧
        speed = speedOf prev_i current (Seconds (Sub now2 now1)) now2 ∧
        significant speed = true.
Proof.
  intros Hstats1 Hstats2 Hdt.
  assert (Hfirst : GetNetworkSpeeds S env1 now1 initialNetState =
            (Ok [], {| previousNetStats := Some (storeAll (Interfaces stats1) ∅);
                       lastNetworkRead := now1 |})).
  { unfold GetNetworkSpeeds. by rewrite Hstats1. }
  eexists. rewrite Hfirst.
  destruct (reported_iff S env2 now2
              {| previousNetStats := Some (storeAll (Interfaces stats1) ∅);
                 lastNetworkRead := now1 |}
              (storeAll (Interfaces stats1) ∅) stats2 eq_refl Hdt Hstats2)
    as (speeds & st2 & Hcall & Hiff).
  exists speeds, st2. split; [reflexivity|]. split; [exact Hcall|].
  intros speed. rewrite Hiff. cbn [lastNetworkRead].
  split; intros (current & prev_i & Hc & Hp & Hs & Hsig);
    exists current, prev_i; (split; [exact Hc|]);
    (split; [|split; [exact Hs|exact Hsig]]).
  - rewrite storeAll_lookup, lookup_empty in Hp.
    by destruct (lastNamed (Name current) (Interfaces stats1)).
  - rewrite storeAll_lookup, Hp. reflexivity.
Qed.

Lemma GetNetworkSpeeds_second_call_witness :
  ∃ st1 speeds st2,
    GetNetworkSpeeds stableSorter
      (poll 0 [counters "eth0" 1000 2000; counters "wlan0" 500 500])
      0 initialNetState = (Ok [], st1) ∧
    GetNetworkSpeeds stableSorter
      (poll 2000000000 [counters "eth0" 2000 2048]) 2000000000 st1
      = (Ok speeds, st2) ∧
    Interface <$> speeds = ["eth0"%string].
Proof.
  destruct (GetNetworkSpeeds_second_call stableSorter
              (poll 0 [counters "eth0" 1000 2000; counters "wlan0" 500 500])
              (poll 2000000000 [counters "eth0" 2000 2048])
              0 2000000000 _ _ eq_refl eq_refl eq_refl)
    as (st1 & speeds & st2 & Hfirst & Hsecond & _).
  exists st1, speeds, st2. split; [exact Hfirst|]. split; [exact Hsecond|].
  injection Hfirst as <-.
  apply (f_equal fst) in Hsecond. vm_compute in Hsecond.
  by injection Hsecond as <-.
Defined.

End NetworkSpec.

(* ===================================================================== *)
(** * The session and the event loop ([main.go])                         *)
(* ===================================================================== *)

Module MainSpec.
Import Go Main.

(** ** Effects leave the tickers alone *)

Lemma tickers_emit e rt : tickers (emit e rt) = tickers rt.
Proof. reflexivity. Qed.

Lemma tickers_displayInterface a rt : tickers (displayInterface a rt) = tickers rt.
Proof. reflexivity. Qed.

Lemma tickers_cleanup a rt : tickers (cleanup a rt) = tickers rt.
Proof. unfold cleanup. by destruct (logFile a). Qed.

Lemma tickers_toggleLogging file a rt :
  tickers (toggleLogging file a rt).2 = tickers rt ∧
  refreshRate (toggleLogging file a rt).1 = refreshRate a.
Proof.
  unfold toggleLogging.
  destruct (logToFile a); [by destruct (logFile a)|by destruct file].
Qed.

(** [Stop] keeps every period. *)
Lemma Stop_period ticker rt i t :
  tickers rt !! i = Some t →
  ∃ t', tickers (Stop ticker rt) !! i = Some t' ∧ period t' = period t.
Proof.
  intros Hi. unfold Stop. simpl.
  destruct (decide (ticker = i)) as [->|Hne].
  - rewrite list_lookup_alter_eq, Hi. simpl. eauto.
  - rewrite list_lookup_alter_ne by done. eauto.
Qed.

(** A new ticker leaves the others where and as they were. *)
Lemma NewTicker_Some d rt :
  0 < d →
  NewTicker d rt =
    Some (length (tickers rt),
          {| tickers := tickers rt ++ [{| period := d; stopped := false |}];
             effects := effects rt |}).
Proof. intros Hd. unfold NewTicker. by destruct (Z.leb_spec d 0); [lia|]. Qed.

(** ** One key *)

(** The refresh rate is a whole number of seconds, from one to ten.
    (Whole seconds matter: from a rate of one and a half seconds, ['+']
    would go to half a second.) *)
Definition InRange (a : App) : Prop :=
  ∃ k, refreshRate a = k * Second ∧ 1 ≤ k ≤ 10.

(** What a rate key does when there is room: the rate moves by a second,
    a ticker with the new rate is created and stopped again. *)
Lemma rate_key_changes a rt d :
  0 < d →
  ∃ rt', (NewTicker d rt ≫= λ '(ticker, rt0),
            Some (false, with_refreshRate d a, Stop ticker rt0))
         = Some (false, with_refreshRate d a, rt') ∧
         ∀ i t, tickers rt !! i = Some t →
                ∃ t', tickers rt' !! i = Some t' ∧ period t' = period t.
Proof.
  intros Hd. rewrite (NewTicker_Some d rt Hd). simpl.
  eexists. split; [reflexivity|]. intros i t Hi.
  apply Stop_period. simpl. by apply lookup_app_l_Some.
Qed.

Lemma int64_small x : - 2 ^ 63 ≤ x < 2 ^ 63 → int64 x = x.
Proof. intros Hx. unfold int64. rewrite Z.mod_small; lia. Qed.

Ltac same_rate_same_tickers Hr :=
  solve [eexists _, _, _; split; [reflexivity|]; split; [exact Hr|];
         intros i t Hi; exists t; split; [exact Hi|reflexivity]].

(** A key leaves the rate within its bounds and every ticker with the
    period it had. *)
Lemma handleKeyPress_keeps file a key rt :
  InRange a →
  ∃ quit a' rt',
    handleKeyPress file a key rt = Some (quit, a', rt') ∧
    InRange a' ∧
    ∀ i t, tickers rt !! i = Some t →
           ∃ t', tickers rt' !! i = Some t' ∧ period t' = period t.
Proof.
  unfold InRange, Second. intros Hr. unfold handleKeyPress.
  assert (Hr' := Hr). destruct Hr' as (k & Hk & Hk1).
  repeat (destruct (is_key key _); [same_rate_same_tickers Hr|]).
  destruct (is_key key _).
  { destruct (tickers_toggleLogging file a rt) as [Ht Hrate].
    destruct (toggleLogging file a rt) as [a0 rt0]. simpl in Ht, Hrate.
    eexists _, _, _. split; [reflexivity|]. rewrite Hrate, Ht.
    split; [exact Hr|]. intros i t Hi. by exists t. }
  repeat (destruct (is_key key _); [same_rate_same_tickers Hr|]).
  destruct (is_key key _).
  { unfold Second. destruct (Z.ltb_spec 1000000000 (refreshRate a));
      [|same_rate_same_tickers Hr].
    rewrite int64_small by lia.
    destruct (rate_key_changes a rt (refreshRate a - 1000000000))
      as (rt' & Hcall & Hkeep); [lia|].
    eexists _, _, _. split; [exact Hcall|]. simpl.
    split; [exists (k - 1); lia|exact Hkeep]. }
  destruct (is_key key _); [|same_rate_same_tickers Hr].
  unfold Second. rewrite (int64_small (10 * 1000000000)) by lia.
  destruct (Z.ltb_spec (refreshRate a) (10 * 1000000000));
    [|same_rate_same_tickers Hr].
  rewrite int64_small by lia.
  destruct (rate_key_changes a rt (refreshRate a + 1000000000))
    as (rt' & Hcall & Hkeep); [lia|].
  eexists _, _, _. split; [exact Hcall|]. simpl.
  split; [exists (k + 1); lia|exact Hkeep].
Qed.

(** ** The loop *)

(** What holds of [main] at every round: the rate is within its bounds,
    and the ticker [main] listens to has the period it was created with. *)
Definition LoopInv (l : Loop) : Prop :=
  InRange (Main.app l) ∧ tickPeriod l = Some (3 * Second).

Lemma tickPeriod_Some l d :
  tickPeriod l = Some d ↔ ∃ t, tickers (rt l) !! ticker l = Some t ∧ period t = d.
Proof.
  unfold tickPeriod. destruct (tickers (rt l) !! ticker l) as [t|]; simpl.
  - split; [intros [= <-]; eauto|]. by intros (t' & [= <-] & <-).
  - split; [done|]. by intros (t' & ? & _).
Qed.

Lemma start_LoopInv : ∃ l, start = Some l ∧ LoopInv l.
Proof.
  eexists. split; [reflexivity|]. split; [|reflexivity].
  exists 3. split; [reflexivity|lia].
Qed.

Lemma step_LoopInv l e : LoopInv l → ∃ l', step l e = Some l' ∧ LoopInv l'.
Proof.
  intros [Hr Hp]. apply tickPeriod_Some in Hp as (t & Ht & Hpt).
  unfold step. destruct (running l); [|by exists l; split; [|split; [|apply tickPeriod_Some; eauto]]].
  destruct e as [|key file|].
  - eexists. split; [reflexivity|]. split; [exact Hr|].
    apply tickPeriod_Some. simpl.
    destruct (Stop_period (ticker l) (cleanup (Main.app l) (rt l)) (ticker l) t)
      as (t' & Ht' & Hpt'); [by rewrite tickers_cleanup|].
    exists t'. split; [exact Ht'|congruence].
  - destruct (handleKeyPress_keeps file (Main.app l) key (rt l) Hr)
      as (quit & a' & rt' & -> & Hr' & Hkeep). simpl.
    destruct (Hkeep _ _ Ht) as (t1 & Ht1 & Hpt1).
    destruct quit.
    + eexists. split; [reflexivity|]. split; [exact Hr'|].
      apply tickPeriod_Some. simpl.
      destruct (Stop_period (ticker l) (cleanup a' rt') (ticker l) t1)
        as (t' & Ht' & Hpt'); [by rewrite tickers_cleanup|].
      exists t'. split; [exact Ht'|congruence].
    + eexists. split; [reflexivity|]. split; [exact Hr'|].
      apply tickPeriod_Some. simpl. exists t1. split; [exact Ht1|congruence].
  - destruct (negb (paused (Main.app l)) && negb (showHelp (Main.app l))).
    + eexists. split; [reflexivity|]. split; [exact Hr|].
      apply tickPeriod_Some. simpl. eauto.
    + exists l. split; [reflexivity|]. split; [exact Hr|].
      apply tickPeriod_Some. eauto.
Qed.

Lemma run_snoc events e : run (events ++ [e]) = run events ≫= λ l, step l e.
Proof.
  unfold run. destruct start as [l0|]; simpl; [|done].
  by rewrite foldl_snoc.
Qed.

Lemma run_LoopInv events : ∃ l, run events = Some l ∧ LoopInv l.
Proof.
  induction events as [|e events IH] using rev_ind.
  - destruct start_LoopInv as (l & Hs & Hinv). exists l. split; [|done].
    unfold run. by rewrite Hs.
  - destruct IH as (l & Hrun & Hinv).
    destruct (step_LoopInv l e Hinv) as (l' & Hstep & Hinv').
    exists l'. split; [|done]. by rewrite run_snoc, Hrun.
Qed.

(** C7.  Whatever events arrive, [main] keeps running without a panic
    and the refresh rate stays between one and ten seconds.  At the
    bounds the rate keys do nothing: ['+'] leaves a rate of one second,
    ['-'] leaves a rate of ten seconds. *)
Theorem refreshRate_within_bounds (events : list Event) :
  (∃ l, run events = Some l ∧
        Second ≤ refreshRate (Main.app l) ≤ 10 * Second) ∧
  (∀ file a rt, refreshRate a = Second →
                handleKeyPress file a (rune_of "+") rt = Some (false, a, rt)) ∧
  (∀ file a rt, refreshRate a = 10 * Second →
                handleKeyPress file a (rune_of "-") rt = Some (false, a, rt)).
Proof.
  split; [|split].
  - destruct (run_LoopInv events) as (l & Hrun & (k & Hk & Hk1) & _).
    exists l. split; [exact Hrun|]. rewrite Hk. unfold Second. lia.
  - intros file a rt Hrate. unfold handleKeyPress. simpl. by rewrite Hrate.
  - intros file a rt Hrate. unfold handleKeyPress. simpl. by rewrite Hrate.
Qed.

(** Seven presses of ['-'] from the initial three seconds reach ten
    seconds, and an eighth stays there; two presses of ['+'] reach one
    second, and a third stays there. *)
Lemma refreshRate_within_bounds_witness :
  (∃ l, run (replicate 8 (Key (rune_of "-") (Err "none"))) = Some l ∧
        refreshRate (Main.app l) = 10 * Second) ∧
  (∃ l, run (replicate 3 (Key (rune_of "+") (Err "none"))) = Some l ∧
        refreshRate (Main.app l) = Second) ∧
  handleKeyPress (Err "none") (with_refreshRate Second initialApp) (rune_of "+")
                 {| tickers := []; effects := [] |}
    = Some (false, with_refreshRate Second initialApp,
            {| tickers := []; effects := [] |}) ∧
  handleKeyPress (Err "none") (with_refreshRate (10 * Second) initialApp)
                 (rune_of "-") {| tickers := []; effects := [] |}
    = Some (false, with_refreshRate (10 * Second) initialApp,
            {| tickers := []; effects := [] |}).
Proof.
  destruct (refreshRate_within_bounds
              (replicate 8 (Key (rune_of "-") (Err "none"))))
    as ((l1 & Hrun1 & _) & Hplus & Hminus).
  destruct (refreshRate_within_bounds
              (replicate 3 (Key (rune_of "+") (Err "none"))))
    as ((l2 & Hrun2 & _) & _ & _).
  split; [|split; [|split]].
  - exists l1. split; [exact Hrun1|].
    vm_compute in Hrun1. by injection Hrun1 as <-.
  - exists l2. split; [exact Hrun2|].
    vm_compute in Hrun2. by injection Hrun2 as <-.
  - by apply Hplus.
  - by apply Hminus.
Defined.

(** C2 fails on the code.  The ticker [main] listens to keeps the period
    it was created with, three seconds, whatever events arrive: the
    ticker that a rate key creates is another one, and it is stopped
    before [handleKeyPress] returns.  After one ['+'] the rate is two
    seconds and ticks still come every three. *)
Theorem rate_change_leaves_ticker_period (events : list Event) :
  (∃ l, run events = Some l ∧ tickPeriod l = Some (3 * Second)) ∧
  (∃ l, run [Key (rune_of "+") (Err "none")] = Some l ∧
        refreshRate (Main.app l) = 2 * Second ∧
        tickPeriod l = Some (3 * Second) ∧
        tickers (rt l) = [ {| period := 3 * Second; stopped := false |};
                           {| period := 2 * Second; stopped := true |} ]).
Proof.
  split.
  - destruct (run_LoopInv events) as (l & Hrun & _ & Hp). by exists l.
  - eexists. split; [reflexivity|]. by vm_compute.
Qed.


(** ** Keys *)

(** The keys [handleKeyPress] has a case for. *)
Definition boundKeys : list ascii :=
  ["q"; "Q"; "h"; "H"; "?"; "1"; "2"; "3"; "4"; "5"; "p"; "P"; "c"; "C";
   "l"; "L"; "e"; "E"; "r"; "R"; "+"; "-"]%char.

Lemma is_key_elem key cs : is_key key cs = true → key ∈ rune_of <$> cs.
Proof.
  unfold is_key. induction cs as [|c cs IH]; simpl; [done|].
  intros [Hc|Hcs]%orb_true_iff.
  - apply Z.eqb_eq in Hc as ->. left.
  - right. by apply IH.
Qed.

(** Case analysis on a key: one goal for each bound key, one for the rest. *)
Ltac by_key key :=
  let Hb := fresh "Hbound" in
  destruct (is_key key boundKeys) eqn:Hb;
  [ apply is_key_elem in Hb; cbn [fmap list_fmap boundKeys] in Hb;
    repeat (apply elem_of_cons in Hb as [->|Hb]);
    [..|by apply elem_of_nil in Hb]
  | ].

(** An unbound key fails every test of [handleKeyPress]. *)
Lemma is_key_unbound key :
  is_key key boundKeys = false →
  is_key key ["q"; "Q"]%char = false ∧ is_key key ["h"; "H"; "?"]%char = false ∧
  is_key key ["1"]%char = false ∧ is_key key ["2"]%char = false ∧
  is_key key ["3"]%char = false ∧ is_key key ["4"]%char = false ∧
  is_key key ["5"]%char = false ∧ is_key key ["p"; "P"]%char = false ∧
  is_key key ["c"; "C"]%char = false ∧ is_key key ["l"; "L"]%char = false ∧
  is_key key ["e"; "E"]%char = false ∧ is_key key ["r"; "R"]%char = false ∧
  is_key key ["+"]%char = false ∧ is_key key ["-"]%char = false.
Proof.
  unfold is_key, boundKeys. cbn [existsb].
  intros H. repeat (apply orb_false_iff in H as [? H]).
  repeat split; repeat (apply orb_false_iff; split); done.
Qed.

(** X13.  A key that [handleKeyPress] has no case for does nothing at
    all: the state stays as it is, nothing is drawn, and the session goes
    on.  (The rune 0, which is what a closed input channel delivers, is
    such a key.) *)
Theorem handleKeyPress_unbound (file : Result File) (a : App) (key : rune)
    (rt : Runtime) :
  is_key key boundKeys = false →
  handleKeyPress file a key rt = Some (false, a, rt).
Proof.
  intros Hkey. unfold handleKeyPress.
  destruct (is_key_unbound key Hkey)
    as (-> & -> & -> & -> & -> & -> & -> & -> & -> & -> & -> & -> & -> & ->).
  reflexivity.
Qed.

Lemma handleKeyPress_unbound_witness :
  handleKeyPress (Err "none") initialApp 0 {| tickers := []; effects := [] |}
    = Some (false, initialApp, {| tickers := []; effects := [] |}) ∧
  handleKeyPress (Err "none") initialApp (rune_of "x")
                 {| tickers := []; effects := [] |}
    = Some (false, initialApp, {| tickers := []; effects := [] |}).
Proof.
  split; apply handleKeyPress_unbound; reflexivity.
Defined.

(** ** What one key does *)

(** Logging is on exactly when a log file is open. *)
Definition LogConsistent (a : App) : Prop :=
  logToFile a = true ↔ is_Some (logFile a).

Lemma Stop_last d rt :
  Stop (length (tickers rt))
       {| tickers := tickers rt ++ [{| period := d; stopped := false |}];
          effects := effects rt |}
  = {| tickers := tickers rt ++ [{| period := d; stopped := true |}];
       effects := effects rt |}.
Proof.
  unfold Stop. cbn [tickers effects]. f_equal.
  rewrite <- (Nat.add_0_r (length (tickers rt))). by rewrite alter_app_r.
Qed.

(** A rate key with room to move: the rate changes, and the runtime gains
    one ticker, stopped. *)
Lemma rate_key_ticker a rt d :
  0 < d →
  (NewTicker d rt ≫= λ '(ticker, rt0),
     Some (false, with_refreshRate d a, Stop ticker rt0))
  = Some (false, with_refreshRate d a,
          {| tickers := tickers rt ++ [{| period := d; stopped := true |}];
             effects := effects rt |}).
Proof. intros Hd. rewrite (NewTicker_Some d rt Hd). simpl. by rewrite Stop_last. Qed.

(** What one key does to the state and to the tickers. *)
Lemma handleKeyPress_summary file a key rt :
  InRange a →
  ∃ a' rt' new,
    handleKeyPress file a key rt = Some (is_key key ["q"; "Q"]%char, a', rt') ∧
    tickers rt' = tickers rt ++ new ∧
    Forall (λ t, stopped t = true) new ∧
    InRange a' ∧
    colorEnabled a' = colorEnabled a ∧
    exitRequested a' = exitRequested a ∧
    paused a' = xorb (paused a) (is_key key ["p"; "P"]%char) ∧
    showHelp a' = xorb (showHelp a) (is_key key ["h"; "H"; "?"]%char) ∧
    compactMode a' = xorb (compactMode a) (is_key key ["c"; "C"]%char) ∧
    (LogConsistent a → LogConsistent a') ∧
    (is_key key ["q"; "Q"]%char = true → a' = a ∧ rt' = rt).
Proof.
  intros Hr.
  assert (Hsame : ∀ b : bool, xorb b false = b) by by intros [].
  assert (Hflip : ∀ b : bool, xorb b true = negb b) by by intros [].
  by_key key.
  all: try (unfold handleKeyPress;
            destruct (is_key_unbound key Hbound)
              as (-> & -> & -> & -> & -> & -> & -> & -> & -> & -> & -> & -> & -> & ->);
            exists a, rt, []; rewrite app_nil_r, !Hsame;
            split_and!; first [done | exact id]).
  all: unfold handleKeyPress; simpl.
  all: try (eexists _, _, []; split; [reflexivity|];
            rewrite app_nil_r, ?Hsame, ?Hflip;
            split_and!; first [done | exact Hr | exact id]).
  1, 2: (unfold toggleLogging; destruct (logToFile a) eqn:Hlog;
         [destruct (logFile a) eqn:Hfile|destruct file];
         eexists _, _, []; (split; [reflexivity|]);
         rewrite app_nil_r, ?Hsame;
         split_and!; try first [done | exact Hr | exact id];
         unfold LogConsistent; cbn; intros _; split;
         first [done | by intros [? ?] | by eauto]).
  - destruct Hr as (k & Hk & Hk1). unfold Second in *.
    destruct (Z.ltb_spec 1000000000 (refreshRate a)).
    + rewrite int64_small by lia. rewrite rate_key_ticker by lia.
      eexists _, _, [_]. split; [reflexivity|]. rewrite !Hsame.
      split_and!; try first [done | exact id]; [by repeat constructor|].
      exists (k - 1). unfold Second. cbn. lia.
    + exists a, rt, []. rewrite app_nil_r, !Hsame.
      split_and!; try first [done | exact id].
      exists k. unfold Second. done.
  - destruct Hr as (k & Hk & Hk1). unfold Second in *.
    rewrite (int64_small (10 * 1000000000)) by lia.
    destruct (Z.ltb_spec (refreshRate a) (10 * 1000000000)).
    + rewrite int64_small by lia. rewrite rate_key_ticker by lia.
      eexists _, _, [_]. split; [reflexivity|]. rewrite !Hsame.
      split_and!; try first [done | exact id]; [by repeat constructor|].
      exists (k + 1). unfold Second. cbn. lia.
    + exists a, rt, []. rewrite app_nil_r, !Hsame.
      split_and!; try first [done | exact id].
      exists k. unfold Second. done.
Qed.

(** ** The session as a whole *)

(** The events that end the session: a signal, or the key [q] or [Q]. *)
Definition isQuit (e : Event) : bool :=
  match e with
  | Signal => true
  | Key key _ => is_key key ["q"; "Q"]%char
  | Tick => false
  end.

(** The event is a press of one of the keys [cs]. *)
Definition pressed (cs : list ascii) (e : Event) : bool :=
  match e with Key key _ => is_key key cs | _ => false end.

(** The number of presses of one of the keys [cs] among the events. *)
Definition presses (cs : list ascii) (events : list Event) : nat :=
  length (filter (λ e, pressed cs e) events).

(** What [cleanup] does about the log file. *)
Definition closing (f : option File) : list Effect :=
  match f with Some f => [CloseFile f] | None => [] end.

(** What holds of [main] at every round. *)
Definition SessionInv (l : Loop) : Prop :=
  InRange (Main.app l) ∧
  colorEnabled (Main.app l) = true ∧
  exitRequested (Main.app l) = false ∧
  LogConsistent (Main.app l) ∧
  ticker l = 0%nat ∧
  ∃ rest,
    tickers (rt l) =
      {| period := 3 * Second; stopped := negb (running l) |} :: rest ∧
    Forall (λ t, stopped t = true) rest.

Lemma start_SessionInv : ∃ l, start = Some l ∧ SessionInv l ∧ running l = true ∧
                              Main.app l = initialApp.
Proof.
  eexists. split; [reflexivity|]. split; [|done].
  split; [exists 3; split; [reflexivity|lia]|].
  split; [done|]. split; [done|]. split; [|split; [done|]].
  - split; [done|]. by intros [? ?].
  - exists []. split; [reflexivity|constructor].
Qed.

Lemma effects_cleanup a rt :
  effects (cleanup a rt) = effects rt ++ closing (logFile a) ++ [ClearScreen; Goodbye].
Proof.
  unfold cleanup, closing. destruct (logFile a); cbn; by rewrite <- ?app_assoc.
Qed.

Lemma Stop_first t rest es :
  Stop 0 {| tickers := t :: rest; effects := es |}
  = {| tickers := {| period := period t; stopped := true |} :: rest;
       effects := es |}.
Proof. reflexivity. Qed.

Lemma leave_SessionInv l a' rt' rest :
  InRange a' → colorEnabled a' = true → exitRequested a' = false →
  LogConsistent a' → ticker l = 0%nat →
  tickers rt' = {| period := 3 * Second; stopped := false |} :: rest →
  Forall (λ t, stopped t = true) rest →
  SessionInv (leave {| Main.app := a'; rt := rt'; ticker := ticker l;
                       running := true |} (cleanup a' rt')).
Proof.
  intros Hr Hc He Hl Ht Hts Hrest. unfold leave. cbn [Main.app ticker].
  split; [exact Hr|]. split; [exact Hc|]. split; [exact He|].
  split; [exact Hl|]. split; [exact Ht|].
  exists rest. split; [|exact Hrest]. cbn [rt running negb].
  rewrite Ht. unfold Stop. rewrite tickers_cleanup, Hts. reflexivity.
Qed.

(** One round of the loop. *)
Lemma step_SessionInv l e :
  SessionInv l →
  ∃ l', step l e = Some l' ∧ SessionInv l' ∧
        running l' = running l && negb (isQuit e) ∧
        (running l = false → l' = l) ∧
        (running l = true →
         paused (Main.app l') =
           xorb (paused (Main.app l)) (pressed ["p"; "P"]%char e) ∧
         showHelp (Main.app l') =
           xorb (showHelp (Main.app l)) (pressed ["h"; "H"; "?"]%char e) ∧
         compactMode (Main.app l') =
           xorb (compactMode (Main.app l)) (pressed ["c"; "C"]%char e)) ∧
        (running l = true → isQuit e = true →
         Main.app l' = Main.app l ∧
         effects (rt l') =
           effects (rt l) ++ closing (logFile (Main.app l)) ++ [ClearScreen; Goodbye]).
Proof.
  intros Hinv. assert (Hinv' := Hinv).
  destruct Hinv' as (Hr & Hc & He & Hl & Ht & rest & Hts & Hrest).
  assert (Hsame : ∀ b : bool, xorb b false = b) by by intros [].
  unfold step. destruct (running l) eqn:Hrun.
  2: { exists l. split; [done|]. split; [exact Hinv|].
       split; [by rewrite Hrun|]. by split_and!. }
  cbn [negb] in Hts. destruct e as [|key file|]; cbn [pressed].
  - eexists. split; [reflexivity|]. split.
    + replace l with {| Main.app := Main.app l; rt := rt l; ticker := ticker l;
                        running := true |} at 1 by (destruct l; cbn in *; by subst).
      by eapply leave_SessionInv.
    + split; [done|]. split; [done|]. rewrite !Hsame. split; [done|].
      intros _ _. split; [done|]. cbn [leave rt].
      unfold Stop. cbn [effects]. apply effects_cleanup.
  - destruct (handleKeyPress_summary file (Main.app l) key (rt l) Hr)
      as (a' & rt' & new & -> & Hnew & Hstopped & Hr' & Hc' & He' & Hp & Hh & Hm
          & Hl' & Hq).
    cbn [mbind option_bind]. cbn [isQuit].
    destruct (is_key key ["q"; "Q"]%char) eqn:Hquit.
    + destruct (Hq eq_refl) as [-> ->].
      eexists. split; [reflexivity|]. split.
      * by eapply leave_SessionInv.
      * split; [done|]. split; [done|].
        split; [intros _; split_and!; assumption|].
        intros _ _. split; [done|]. cbn [leave rt].
        unfold Stop. cbn [effects]. apply effects_cleanup.
    + eexists. split; [reflexivity|]. split.
      * unfold SessionInv. cbn [Main.app rt ticker running negb].
        split; [exact Hr'|]. split; [by rewrite Hc'|]. split; [by rewrite He'|].
        split; [by apply Hl'|]. split; [exact Ht|].
        exists (rest ++ new).
        rewrite Hnew, Hts. split; [done|]. by apply Forall_app.
      * split; [done|]. split; [done|].
        split; [intros _; split_and!; assumption|done].
  - destruct (negb (paused (Main.app l)) && negb (showHelp (Main.app l))).
    + eexists. split; [reflexivity|]. split.
      * split; [exact Hr|]. split; [exact Hc|]. split; [exact He|].
        split; [exact Hl|]. split; [exact Ht|]. exists rest. by split.
      * split; [done|]. split; [done|]. rewrite !Hsame. by split.
    + exists l. split; [done|]. split; [exact Hinv|].
      split; [by rewrite Hrun|]. split; [done|]. rewrite !Hsame. by split.
Qed.

Lemma presses_snoc cs events e :
  Nat.odd (presses cs (events ++ [e])) = xorb (Nat.odd (presses cs events)) (pressed cs e).
Proof.
  unfold presses. rewrite filter_app, length_app, filter_cons, filter_nil.
  destruct (pressed cs e).
  - rewrite decide_True by done. cbn [length].
    rewrite Nat.add_1_r, Nat.odd_succ, <- Nat.negb_odd. by destruct (Nat.odd _).
  - rewrite decide_False by exact id. cbn [length].
    rewrite Nat.add_0_r. by destruct (Nat.odd _).
Qed.

(** The session after any sequence of events. *)
Lemma run_session events :
  ∃ l, run events = Some l ∧ SessionInv l ∧
       running l = negb (existsb isQuit events) ∧
       (existsb isQuit events = false →
        paused (Main.app l) = Nat.odd (presses ["p"; "P"]%char events) ∧
        showHelp (Main.app l) = Nat.odd (presses ["h"; "H"; "?"]%char events) ∧
        compactMode (Main.app l) = Nat.odd (presses ["c"; "C"]%char events)) ∧
       (running l = false →
        ∃ before, effects (rt l) =
                    before ++ closing (logFile (Main.app l)) ++ [ClearScreen; Goodbye]).
Proof.
  induction events as [|e events IH] using rev_ind.
  - destruct start_SessionInv as (l & Hs & Hinv & Hrun & Happ).
    exists l. split; [unfold run; by rewrite Hs|]. split; [exact Hinv|].
    split; [exact Hrun|]. split; [by rewrite Happ|]. by rewrite Hrun.
  - destruct IH as (l & Hrunl & Hinv & Hrun & Htoggles & Hexit).
    destruct (step_SessionInv l e Hinv)
      as (l' & Hstep & Hinv' & Hrun' & Hstay & Hflip & Hquit).
    exists l'. split; [by rewrite run_snoc, Hrunl|]. split; [exact Hinv'|].
    rewrite existsb_app. cbn [existsb]. rewrite orb_false_r.
    split; [by rewrite Hrun', Hrun, negb_orb|]. split.
    + intros [Hnone He]%orb_false_iff.
      rewrite Hnone in Hrun. destruct (Htoggles Hnone) as (Hp & Hh & Hc).
      destruct (Hflip Hrun) as (-> & -> & ->).
      by rewrite !presses_snoc, Hp, Hh, Hc.
    + intros Hstopped. destruct (running l) eqn:Hl.
      * destruct (isQuit e) eqn:He; [|by rewrite Hrun' in Hstopped].
        destruct (Hquit eq_refl eq_refl) as [-> ->]. by exists (effects (rt l)).
      * rewrite (Hstay eq_refl). by apply Hexit.
Qed.

(** X14.  Whatever events arrive: colours stay enabled and
    [exitRequested] stays false (nothing in the program sets either), and
    logging is on exactly when a log file is open. *)
Theorem session_state_invariants (events : list Event) :
  ∃ l, run events = Some l ∧
       colorEnabled (Main.app l) = true ∧
       exitRequested (Main.app l) = false ∧
       (logToFile (Main.app l) = true ↔ is_Some (logFile (Main.app l))).
Proof.
  destruct (run_session events) as (l & Hrun & (_ & Hc & He & Hl & _) & _).
  by exists l.
Qed.

(** X15.  [main] has returned exactly when a signal or one of the keys
    [q] and [Q] was among the events; no other key ends the session.
    When it has returned, the last things it did were to close the log
    file, if one was open, to clear the screen and to say goodbye. *)
Theorem session_ends_on_quit (events : list Event) :
  ∃ l, run events = Some l ∧
       (running l = false ↔ ∃ e, e ∈ events ∧ isQuit e = true) ∧
       (running l = false →
        ∃ before,
          effects (rt l) =
            before ++ closing (logFile (Main.app l)) ++ [ClearScreen; Goodbye]).
Proof.
  destruct (run_session events) as (l & Hrun & _ & Hrunning & _ & Hexit).
  exists l. split; [exact Hrun|]. split; [|exact Hexit].
  rewrite Hrunning, negb_false_iff, existsb_exists.
  split; intros (e & He & Hq); exists e; split; try done;
    by apply list_elem_of_In.
Qed.

(** X16.  Of the tickers the program creates, the first is the one of
    [main], with a period of three seconds; it runs as long as the
    session does and is stopped when [main] returns.  Every other ticker,
    created by a rate key, has been stopped again: no ticker is left
    running behind. *)
Theorem session_tickers (events : list Event) :
  ∃ l rest,
    run events = Some l ∧ ticker l = 0%nat ∧
    tickers (rt l) =
      {| period := 3 * Second; stopped := negb (running l) |} :: rest ∧
    Forall (λ t, stopped t = true) rest.
Proof.
  destruct (run_session events)
    as (l & Hrun & (_ & _ & _ & _ & Ht & rest & Hts & Hrest) & _).
  by exists l, rest.
Qed.

(** X17.  As long as nothing has ended the session, each of the three
    switches is on exactly when its keys were pressed an odd number of
    times: [p] and [P] for the pause, [h], [H] and [?] for the help, [c]
    and [C] for the compact mode. *)
Theorem session_switches (events : list Event) :
  Forall (λ e, isQuit e = false) events →
  ∃ l, run events = Some l ∧ running l = true ∧
       paused (Main.app l) = Nat.odd (presses ["p"; "P"]%char events) ∧
       showHelp (Main.app l) = Nat.odd (presses ["h"; "H"; "?"]%char events) ∧
       compactMode (Main.app l) = Nat.odd (presses ["c"; "C"]%char events).
Proof.
  intros Hnone.
  assert (Hq : existsb isQuit events = false).
  { apply not_true_is_false. intros (e & He & Hqe)%existsb_exists.
    rewrite Forall_forall in Hnone. apply list_elem_of_In in He.
    by rewrite (Hnone e He) in Hqe. }
  destruct (run_session events) as (l & Hrun & _ & Hrunning & Htoggles & _).
  exists l. split; [exact Hrun|]. split; [by rewrite Hrunning, Hq|].
  by apply Htoggles.
Qed.

Lemma session_switches_witness :
  ∃ l, run [Key (rune_of "p") (Err "none"); Tick; Key (rune_of "c") (Err "none");
            Key (rune_of "P") (Err "none"); Key (rune_of "?") (Err "none")]
         = Some l ∧
       running l = true ∧ paused (Main.app l) = false ∧
       showHelp (Main.app l) = true ∧ compactMode (Main.app l) = true.
Proof.
  apply (session_switches
           [Key (rune_of "p") (Err "none"); Tick; Key (rune_of "c") (Err "none");
            Key (rune_of "P") (Err "none"); Key (rune_of "?") (Err "none")]).
  repeat constructor.
Defined.

Lemma session_ends_on_quit_witness :
  ∃ l, run [Key (rune_of "l") (Ok "logs/sysmon.log"); Tick;
            Key (rune_of "q") (Err "none"); Key (rune_of "2") (Err "none")]
         = Some l ∧
       running l = false ∧
       ∃ before, effects (rt l) =
                   before ++ [CloseFile "logs/sysmon.log"; ClearScreen; Goodbye].
Proof.
  destruct (session_ends_on_quit
              [Key (rune_of "l") (Ok "logs/sysmon.log"); Tick;
               Key (rune_of "q") (Err "none"); Key (rune_of "2") (Err "none")])
    as (l & Hrun & Hiff & Hexit).
  exists l. split; [exact Hrun|].
  assert (Hstopped : running l = false).
  { apply Hiff. exists (Key (rune_of "q") (Err "none")).
    split; [|reflexivity]. do 2 right. left. }
  split; [exact Hstopped|].
  destruct (Hexit Hstopped) as (before & Heff). exists before.
  rewrite Heff. vm_compute in Hrun. by injection Hrun as <-.
Defined.

(** ** The view *)

(** The view a key selects, if it selects one. *)
Definition viewKey (e : Event) : option ViewType :=
  match e with
  | Key key _ =>
      if is_key key ["1"]%char then Some ViewOverview
      else if is_key key ["2"]%char then Some ViewProcesses
      else if is_key key ["3"]%char then Some ViewNetwork
      else if is_key key ["4"]%char then Some ViewDisks
      else if is_key key ["5"]%char then Some ViewSystem
      else None
  | _ => None
  end.

Lemma handleKeyPress_view file a key rt quit a' rt' :
  handleKeyPress file a key rt = Some (quit, a', rt') →
  currentView a' = default (currentView a) (viewKey (Key key file)).
Proof.
  by_key key.
  all: try (unfold handleKeyPress, viewKey;
            destruct (is_key_unbound key Hbound)
              as (-> & -> & -> & -> & -> & -> & -> & -> & -> & -> & -> & -> & -> & ->);
            by intros [= <- <- <-]).
  all: unfold handleKeyPress; simpl.
  all: try by intros [= <- <- <-].
  1, 2: unfold toggleLogging;
        destruct (logToFile a); [destruct (logFile a)|destruct file];
        by intros [= <- <- <-].
  - destruct (Second <? refreshRate a); [|by intros [= <- <- <-]].
    destruct (NewTicker _ rt) as [[ticker rt0]|]; [|done].
    by intros [= <- <- <-].
  - destruct (refreshRate a <? int64 (10 * Second)); [|by intros [= <- <- <-]].
    destruct (NewTicker _ rt) as [[ticker rt0]|]; [|done].
    by intros [= <- <- <-].
Qed.

(** One round of the loop changes the view only on a view key. *)
Lemma step_view l e l' :
  step l e = Some l' → running l = true →
  currentView (Main.app l') = default (currentView (Main.app l)) (viewKey e).
Proof.
  unfold step. intros Hstep Hrun. rewrite Hrun in Hstep.
  destruct e as [|key file|].
  - by injection Hstep as <-.
  - destruct (handleKeyPress file (Main.app l) key (rt l))
      as [[[quit a'] rt']|] eqn:Hkey; [|done].
    apply handleKeyPress_view in Hkey. cbn in Hstep.
    destruct quit; by injection Hstep as <-.
  - destruct (negb (paused (Main.app l)) && negb (showHelp (Main.app l)));
      by injection Hstep as <-.
Qed.

Lemma last_omap_snoc {A B} (f : A → option B) (xs : list A) (x : A) (d : B) :
  default d (last (omap f (xs ++ [x]))) = default (default d (last (omap f xs))) (f x).
Proof.
  rewrite omap_app. simpl. destruct (f x) as [y|]; simpl.
  - by rewrite last_snoc.
  - by rewrite app_nil_r.
Qed.

(** X25.  As long as nothing has ended the session, the view on the
    screen is the one of the last view key pressed ([1] to [5]), and the
    overview when none was: no other key, and no tick, changes the
    view. *)
Theorem session_view (events : list Event) :
  Forall (λ e, isQuit e = false) events →
  ∃ l, run events = Some l ∧
       currentView (Main.app l) = default ViewOverview (last (omap viewKey events)).
Proof.
  induction events as [|e events IH] using rev_ind.
  - intros _. destruct start_SessionInv as (l & Hs & _ & _ & Happ).
    exists l. split; [unfold run; by rewrite Hs|]. by rewrite Happ.
  - intros [Hnone He]%Forall_app.
    destruct (IH Hnone) as (l & Hrunl & Hview).
    destruct (run_session events) as (l0 & Hrun0 & Hinv & Hrunning & _).
    rewrite Hrunl in Hrun0. injection Hrun0 as <-.
    assert (Hq : existsb isQuit events = false).
    { apply not_true_is_false. intros (x & Hx & Hqx)%existsb_exists.
      rewrite Forall_forall in Hnone. apply list_elem_of_In in Hx.
      by rewrite (Hnone x Hx) in Hqx. }
    rewrite Hq in Hrunning.
    destruct (step_SessionInv l e Hinv) as (l' & Hstep & _).
    exists l'. split; [by rewrite run_snoc, Hrunl|].
    rewrite last_omap_snoc, <- Hview. by apply step_view.
Qed.

Lemma session_view_witness :
  ∃ l, run [Key (rune_of "3") (Err "none"); Key (rune_of "p") (Err "none"); Tick;
            Key (rune_of "2") (Err "none"); Key (rune_of "r") (Err "none")]
         = Some l ∧
       currentView (Main.app l) = ViewProcesses.
Proof.
  apply (session_view
           [Key (rune_of "3") (Err "none"); Key (rune_of "p") (Err "none"); Tick;
            Key (rune_of "2") (Err "none"); Key (rune_of "r") (Err "none")]).
  repeat constructor.
Defined.

(** ** Logging *)

(** X18.  With logging off: when the log file cannot be created,
    [toggleLogging] leaves the state as it is and draws nothing; when it
    can, logging is on with that file, after a redraw.  Toggling once
    more closes the file, redraws, and gives back the state from before,
    without asking for a file. *)
Theorem toggleLogging_round_trip (file : Result File) (f : File) (a : App)
    (rt : Runtime) :
  logToFile a = false → logFile a = None →
  (∀ msg, toggleLogging (Err msg) a rt = (a, emit LogOpenError rt)) ∧
  ∃ a1 rt1,
    toggleLogging (Ok f) a rt = (a1, rt1) ∧
    logToFile a1 = true ∧ logFile a1 = Some f ∧
    effects rt1 = effects rt ++ [ClearScreen; Display a1] ∧
    toggleLogging file a1 rt1 =
      (a, emit (Display a) (emit ClearScreen (emit (CloseFile f) rt1))).
Proof.
  intros Hoff Hnone. unfold toggleLogging. rewrite Hoff. split; [done|].
  eexists _, _. split; [reflexivity|]. cbn.
  split; [done|]. split; [done|]. split; [by rewrite <- app_assoc|].
  destruct a; cbn in *; by subst.
Qed.

Lemma toggleLogging_round_trip_witness :
  toggleLogging (Err "read-only file system") initialApp
                {| tickers := []; effects := [] |}
    = (initialApp, {| tickers := []; effects := [LogOpenError] |}) ∧
  ∃ a1 rt1,
    toggleLogging (Ok "logs/sysmon.log") initialApp
                  {| tickers := []; effects := [] |} = (a1, rt1) ∧
    (toggleLogging (Err "not asked") a1 rt1).1 = initialApp.
Proof.
  destruct (toggleLogging_round_trip (Err "not asked") "logs/sysmon.log"
              initialApp {| tickers := []; effects := [] |} eq_refl eq_refl)
    as (Hfail & a1 & rt1 & Hon & _ & _ & _ & Hoff).
  split; [apply Hfail|]. exists a1, rt1. split; [exact Hon|]. by rewrite Hoff.
Defined.

(** ** Cutting a string to a column *)

Lemma length_substring_le (n : nat) (s : string) :
  (n ≤ String.length s)%nat → String.length (String.substring 0 n s) = n.
Proof. intros Hn. rewrite ProcessesSpec.length_substring_0. lia. Qed.

(** X19.  [truncateString] returns a string that fits [maxLen] bytes: the
    string itself when it fits, else its first [maxLen - 3] bytes and
    three dots, [maxLen] bytes in all.  It panics exactly when the string
    does not fit and [maxLen] is below three. *)
Theorem truncateString_fits (s : string) (maxLen : Z) :
  (truncateString s maxLen = None ↔
   maxLen < Z.of_nat (String.length s) ∧ maxLen < 3) ∧
  (Z.of_nat (String.length s) ≤ maxLen → truncateString s maxLen = Some s) ∧
  (3 ≤ maxLen < Z.of_nat (String.length s) →
   truncateString s maxLen =
     Some (String.substring 0 (Z.to_nat (maxLen - 3)) s +:+ "...") ∧
   String.length (String.substring 0 (Z.to_nat (maxLen - 3)) s +:+ "...")
     = Z.to_nat maxLen).
Proof.
  unfold truncateString, string_to.
  destruct (Z.leb_spec (Z.of_nat (String.length s)) maxLen) as [Hfit|Hlong].
  - split; [split; [done|lia]|]. split; [done|lia].
  - destruct (Z.ltb_spec (maxLen - 3) 0) as [Hneg|Hpos]; cbn [orb].
    + split; [split; [lia|done]|]. split; lia.
    + destruct (Z.ltb_spec (Z.of_nat (String.length s)) (maxLen - 3)); [lia|].
      cbn. split; [split; [done|lia]|]. split; [lia|].
      intros _. split; [done|].
      rewrite ProcessesSpec.length_append, length_substring_le by lia.
      cbn. lia.
Qed.

Lemma truncateString_fits_witness :
  truncateString "chromium-browser" 2 = None ∧
  truncateString "bash" 12 = Some "bash"%string ∧
  truncateString "chromium-browser" 12 = Some "chromium-..."%string.
Proof.
  destruct (truncateString_fits "chromium-browser" 2) as (Hpanic & _ & _).
  destruct (truncateString_fits "bash" 12) as (_ & Hfit & _).
  destruct (truncateString_fits "chromium-browser" 12) as (_ & _ & Hcut).
  split; [apply Hpanic; cbn; lia|]. split; [apply Hfit; cbn; lia|].
  destruct Hcut as [-> _]; [cbn; lia|reflexivity].
Defined.

End MainSpec.

(* ===================================================================== *)
(** * The system statistics and the formatting ([internal/stats.go])    *)
(* ===================================================================== *)

Module StatsSpec.
Import Go GoFacts FloatFacts Stats.

(** The call succeeded. *)
Definition isOk {A : Type} (r : Result A) : Prop :=
  match r with Ok _ => True | Err _ => False end.

(** ** When the collection succeeds *)

(** X20.  [GetSystemStats] succeeds exactly when the three CPU reads, the
    memory read, the list of partitions and the host read all succeed.
    The usage of a partition is no part of this: a partition that cannot
    be read never fails the collection. *)
Theorem GetSystemStats_Ok_iff (env : SysEnv) :
  isOk (GetSystemStats env) ↔
  isOk (sys_Percent env) ∧ isOk (sys_Counts env) ∧ isOk (sys_Info env) ∧
  isOk (sys_VirtualMemory env) ∧ isOk (sys_Partitions env) ∧
  isOk (sys_HostInfo env).
Proof.
  unfold GetSystemStats, getCPUInfo, getMemoryInfo, getDiskInfo, getHostInfo.
  destruct (sys_Percent env), (sys_Counts env), (sys_Info env),
    (sys_VirtualMemory env), (sys_Partitions env), (sys_HostInfo env);
    simpl; tauto.
Qed.

(** ** Which error a failed collection returns *)

(** X21.  A failed collection returns the error of the first read that
    failed, in the order CPU usage, CPU count, CPU model, memory,
    partitions, host, behind a message that names the part: a later
    failure is never reported while an earlier read has failed. *)
Theorem GetSystemStats_first_error (env : SysEnv) (err : string) :
  (sys_Percent env = Err err →
   GetSystemStats env = Err ("failed to get CPU info: " +:+ err)) ∧
  (isOk (sys_Percent env) → sys_Counts env = Err err →
   GetSystemStats env = Err ("failed to get CPU info: " +:+ err)) ∧
  (isOk (sys_Percent env) → isOk (sys_Counts env) → sys_Info env = Err err →
   GetSystemStats env = Err ("failed to get CPU info: " +:+ err)) ∧
  (isOk (getCPUInfo env) → sys_VirtualMemory env = Err err →
   GetSystemStats env = Err ("failed to get memory info: " +:+ err)) ∧
  (isOk (getCPUInfo env) → isOk (sys_VirtualMemory env) →
   sys_Partitions env = Err err →
   GetSystemStats env = Err ("failed to get disk info: " +:+ err)) ∧
  (isOk (getCPUInfo env) → isOk (sys_VirtualMemory env) →
   isOk (sys_Partitions env) → sys_HostInfo env = Err err →
   GetSystemStats env = Err ("failed to get host info: " +:+ err)).
Proof.
  unfold GetSystemStats, getCPUInfo, getMemoryInfo, getDiskInfo, getHostInfo.
  destruct (sys_Percent env), (sys_Counts env), (sys_Info env),
    (sys_VirtualMemory env), (sys_Partitions env), (sys_HostInfo env);
    simpl; repeat split; (done || congruence).
Qed.

(** Every read fails: the error is that of the first one. *)
Definition nothingReadable : SysEnv :=
  {| sys_Now := 0;
     sys_Percent := Err "no cpu times";
     sys_Counts := Err "no cpu count";
     sys_Info := Err "no cpu info";
     sys_VirtualMemory := Err "no meminfo";
     sys_Partitions := Err "no mounts";
     sys_Usage := λ _ _, Err "no statfs";
     sys_HostInfo := Err "no host" |}.

Lemma GetSystemStats_first_error_witness :
  GetSystemStats nothingReadable = Err "failed to get CPU info: no cpu times".
Proof.
  destruct (GetSystemStats_first_error nothingReadable "no cpu times")
    as [Hpercent _].
  by apply Hpercent.
Defined.

(** ** The disks *)

(** The partitions whose usage can be read, from the i-th on. *)
Fixpoint accessible (usage : nat → string → Result disk.UsageStat) (i : nat)
    (partitions : list disk.PartitionStat) : list DiskInfo :=
  match partitions with
  | [] => []
  | p :: partitions =>
      match usage i (disk.Mountpoint p) with
      | Ok u => mkDiskInfo p u :: accessible usage (S i) partitions
      | Err _ => accessible usage (S i) partitions
      end
  end.

Lemma diskStep_accessible usage i partitions diskInfos :
  foldl (diskStep usage) diskInfos (imap (λ j p, ((i + j)%nat, p)) partitions)
  = diskInfos ++ accessible usage i partitions.
Proof.
  revert i diskInfos.
  induction partitions as [|p ps IH]; intros i diskInfos.
  - simpl. by rewrite app_nil_r.
  - rewrite imap_cons. cbn [foldl].
    rewrite (imap_ext _ (λ j p, ((S i + j)%nat, p)))
      by (intros j x _; simpl; f_equal; lia).
    rewrite IH. unfold diskStep. cbn [fst snd accessible].
    rewrite Nat.add_0_r.
    destruct (usage i (disk.Mountpoint p)) as [u|]; [|done].
    by rewrite <- app_assoc.
Qed.

Lemma accessible_elem usage i partitions d :
  d ∈ accessible usage i partitions ↔
  ∃ j p u, partitions !! j = Some p ∧
           usage (i + j)%nat (disk.Mountpoint p) = Ok u ∧ d = mkDiskInfo p u.
Proof.
  revert i. induction partitions as [|p ps IH]; intros i; simpl.
  - split; [by intros ?%elem_of_nil|]. by intros (j & ? & ? & ? & _).
  - split.
    + destruct (usage i (disk.Mountpoint p)) as [u|] eqn:Hu.
      * intros [->|Hin]%elem_of_cons.
        -- exists 0%nat, p, u. by rewrite Nat.add_0_r.
        -- apply IH in Hin as (j & q & v & Hj & Hv & ->).
           exists (S j), q, v. split; [done|]. split; [|done].
           by rewrite Nat.add_succ_r.
      * intros Hin. apply IH in Hin as (j & q & v & Hj & Hv & ->).
        exists (S j), q, v. split; [done|]. split; [|done].
        by rewrite Nat.add_succ_r.
    + intros ([|j] & q & v & Hj & Hv & ->).
      * simpl in Hj. injection Hj as ->. rewrite Nat.add_0_r in Hv.
        rewrite Hv. by left.
      * simpl in Hj. rewrite Nat.add_succ_r in Hv.
        assert (Hin : mkDiskInfo q v ∈ accessible usage (S i) ps).
        { apply IH. by exists j, q, v. }
        destruct (usage i (disk.Mountpoint p)); [by right|done].
Qed.

Lemma accessible_sublist usage i partitions :
  Mountpoint <$> accessible usage i partitions
    `sublist_of` disk.Mountpoint <$> partitions.
Proof.
  revert i. induction partitions as [|p ps IH]; intros i; simpl; [done|].
  destruct (usage i (disk.Mountpoint p)); simpl.
  - by apply sublist_skip.
  - by apply sublist_cons.
Qed.

Lemma accessible_all usage i partitions :
  (∀ j p, partitions !! j = Some p →
          isOk (usage (i + j)%nat (disk.Mountpoint p))) →
  length (accessible usage i partitions) = length partitions.
Proof.
  revert i. induction partitions as [|p ps IH]; intros i Hall; simpl; [done|].
  pose proof (Hall 0%nat p eq_refl) as H0. rewrite Nat.add_0_r in H0.
  destruct (usage i (disk.Mountpoint p)); [|done]. simpl. f_equal.
  apply IH. intros j q Hj. specialize (Hall (S j) q Hj).
  by rewrite Nat.add_succ_r in Hall.
Qed.

(** X22.  When the partitions can be listed [getDiskInfo] succeeds, with
    one entry for each partition whose usage can be read and no other
    entry, in the order of the partitions; the partitions that cannot be
    read are skipped.  With every partition readable there is an entry
    for each; with none readable the list is empty, and still no error. *)
Theorem getDiskInfo_accessible (env : SysEnv)
    (partitions : list disk.PartitionStat) :
  sys_Partitions env = Ok partitions →
  ∃ diskInfos,
    getDiskInfo env = Ok diskInfos ∧
    (∀ d, d ∈ diskInfos ↔
          ∃ i p u, partitions !! i = Some p ∧
                   sys_Usage env i (disk.Mountpoint p) = Ok u ∧
                   d = mkDiskInfo p u) ∧
    Mountpoint <$> diskInfos `sublist_of` disk.Mountpoint <$> partitions ∧
    ((∀ i p, partitions !! i = Some p →
             isOk (sys_Usage env i (disk.Mountpoint p))) →
     length diskInfos = length partitions) ∧
    ((∀ i p, partitions !! i = Some p →
             ¬ isOk (sys_Usage env i (disk.Mountpoint p))) →
     diskInfos = []).
Proof.
  intros Hparts. unfold getDiskInfo. rewrite Hparts.
  eexists. split; [reflexivity|].
  change (imap pair partitions)
    with (imap (λ j p, ((0 + j)%nat, p)) partitions).
  rewrite (diskStep_accessible (sys_Usage env) 0 partitions []). cbn [app].
  split; [apply accessible_elem|]. split; [apply accessible_sublist|]. split.
  - intros Hall. by apply accessible_all.
  - intros Hnone.
    destruct (accessible (sys_Usage env) 0 partitions) as [|d ds] eqn:Hacc; [done|].
    assert (Hd : d ∈ accessible (sys_Usage env) 0 partitions)
      by (rewrite Hacc; left).
    apply accessible_elem in Hd as (j & p & u & Hj & Hu & _).
    destruct (Hnone j p Hj). simpl in Hu. by rewrite Hu.
Qed.

(** Three partitions. *)
Definition rootfs : disk.PartitionStat :=
  {| disk.Device := "/dev/sda1"; disk.Mountpoint := "/"; disk.Fstype := "ext4" |}.
Definition cdrom : disk.PartitionStat :=
  {| disk.Device := "/dev/sr0"; disk.Mountpoint := "/media/cdrom";
     disk.Fstype := "iso9660" |}.
Definition home : disk.PartitionStat :=
  {| disk.Device := "/dev/sda2"; disk.Mountpoint := "/home"; disk.Fstype := "ext4" |}.

Definition halfFull : disk.UsageStat :=
  {| disk.Total := 1000; disk.Used := 500; disk.Free := 500;
     disk.UsedPercent := float64_of_Z 50 |}.

(** The second partition cannot be read. *)
Definition threePartitions : SysEnv :=
  {| sys_Now := 0;
     sys_Percent := Ok [];
     sys_Counts := Ok 4;
     sys_Info := Ok [];
     sys_VirtualMemory :=
       Ok {| mem.Total := 8; mem.Available := 4; mem.Used := 4;
             mem.UsedPercent := float64_of_Z 50; mem.Free := 4;
             mem.Buffers := 0; mem.Cached := 0 |};
     sys_Partitions := Ok [rootfs; cdrom; home];
     sys_Usage := λ i _, if (i =? 1)%nat then Err "no medium" else Ok halfFull;
     sys_HostInfo :=
       Ok {| host.Hostname := "box"; host.OS := "linux";
             host.Platform := "debian"; host.KernelVersion := "6.1";
             host.Uptime := 3600 |} |}.

Lemma getDiskInfo_accessible_witness :
  ∃ diskInfos,
    getDiskInfo threePartitions = Ok diskInfos ∧
    Mountpoint <$> diskInfos = ["/"; "/home"]%string ∧
    Mountpoint <$> diskInfos `sublist_of` ["/"; "/media/cdrom"; "/home"]%string.
Proof.
  destruct (getDiskInfo_accessible threePartitions [rootfs; cdrom; home] eq_refl)
    as (diskInfos & Hcall & _ & Hsub & _).
  exists diskInfos. split; [exact Hcall|]. split; [|exact Hsub].
  vm_compute in Hcall. by injection Hcall as <-.
Defined.

Lemma GetSystemStats_Ok_iff_witness : isOk (GetSystemStats threePartitions).
Proof. by apply GetSystemStats_Ok_iff. Defined.

(** ** Byte counts *)

(** The loop of [FormatBytes] on a number of [j + 1] digits to the base
    1024. *)
Lemma scale_rounds (j : nat) :
  ∀ rounds n div exp,
    (j ≤ rounds)%nat →
    1024 ^ Z.of_nat j ≤ n < 1024 ^ (Z.of_nat j + 1) →
    0 < div → div * 1024 ^ Z.of_nat j < 2 ^ 63 →
    scale rounds n div exp = Some (div * 1024 ^ Z.of_nat j, exp + Z.of_nat j).
Proof.
  induction j as [|j IH]; intros rounds n div exp Hrounds Hn Hdiv Hfit.
  - change (1024 ^ Z.of_nat 0) with 1 in *.
    change (1024 ^ (Z.of_nat 0 + 1)) with 1024 in Hn.
    destruct rounds; simpl;
      (destruct (Z.ltb_spec n 1024); [|lia]); do 2 f_equal; lia.
  - destruct rounds as [|rounds]; [lia|].
    rewrite Nat2Z.inj_succ in *.
    rewrite Z.pow_succ_r in * by lia.
    replace (Z.succ (Z.of_nat j) + 1) with (Z.succ (Z.of_nat j + 1)) in Hn by lia.
    rewrite Z.pow_succ_r in Hn by lia.
    assert (Hp : 0 < 1024 ^ Z.of_nat j) by (apply Z.pow_pos_nonneg; lia).
    simpl. destruct (Z.ltb_spec n 1024); [nia|].
    rewrite MainSpec.int64_small by nia.
    rewrite IH; [do 2 f_equal; lia|lia| |lia|nia].
    split.
    + apply Z.div_le_lower_bound; lia.
    + apply Z.div_lt_upper_bound; lia.
Qed.

(** X23.  [FormatBytes] returns for every [uint64]: the index into
    ["KMGTPE"] is never out of range.  A count below 1024 is printed as
    it is, in bytes; a count from [1024^(k+1)] up to [1024^(k+2)] is
    divided, as a [float64], by [1024^(k+1)] and printed with the k-th of
    the letters K, M, G, T, P, E.  [FormatNetworkBytes] is the same
    function. *)
Theorem FormatBytes_unit (bytes : Z) :
  0 ≤ bytes < 2 ^ 64 →
  is_Some (FormatBytes bytes) ∧
  (bytes < 1024 → FormatBytes bytes = Some (fmt.Sprintf "%d B" [fmt.Int bytes])) ∧
  (∀ k : nat,
     1024 ^ (Z.of_nat k + 1) ≤ bytes < 1024 ^ (Z.of_nat k + 2) →
     ∃ c, index "KMGTPE" (Z.of_nat k) = Some c ∧
          FormatBytes bytes =
            Some (fmt.Sprintf "%.1f %cB"
                    [fmt.Float (fdiv (float64_of_Z bytes)
                                     (float64_of_Z (1024 ^ (Z.of_nat k + 1))));
                     fmt.Char c])) ∧
  Network.FormatNetworkBytes bytes = FormatBytes bytes.
Proof.
  intros Hbytes.
  assert (Hscaled : ∀ k : nat,
            1024 ^ (Z.of_nat k + 1) ≤ bytes < 1024 ^ (Z.of_nat k + 2) →
            ∃ c, index "KMGTPE" (Z.of_nat k) = Some c ∧
                 FormatBytes bytes =
                   Some (fmt.Sprintf "%.1f %cB"
                           [fmt.Float (fdiv (float64_of_Z bytes)
                                            (float64_of_Z (1024 ^ (Z.of_nat k + 1))));
                            fmt.Char c])).
  { intros k Hk.
    assert (Hk5 : (k ≤ 5)%nat).
    { destruct (Nat.le_gt_cases k 5) as [|Hgt]; [done|].
      assert (1024 ^ 7 ≤ 1024 ^ (Z.of_nat k + 1))
        by (apply Z.pow_le_mono_r; lia).
      change (1024 ^ 7) with 1180591620717411303424 in *.
      change (2 ^ 64) with 18446744073709551616 in *. lia. }
    assert (Hp : 0 < 1024 ^ Z.of_nat k) by (apply Z.pow_pos_nonneg; lia).
    assert (Hk1 : 1024 ^ (Z.of_nat k + 1) = 1024 * 1024 ^ Z.of_nat k)
      by (rewrite Z.pow_add_r by lia; lia).
    assert (Hk2 : 1024 ^ (Z.of_nat k + 2) = 1024 * 1024 ^ (Z.of_nat k + 1))
      by (replace (Z.of_nat k + 2) with (Z.succ (Z.of_nat k + 1)) by lia;
          rewrite Z.pow_succ_r by lia; lia).
    unfold FormatBytes. cbn zeta.
    destruct (Z.ltb_spec bytes 1024); [nia|].
    rewrite (scale_rounds k 64 (bytes / 1024) 1024 0).
    - cbn [mbind option_bind]. rewrite Z.add_0_l, <- Hk1.
      assert (Hc : is_Some (index "KMGTPE" (Z.of_nat k))).
      { do 6 (destruct k as [|k]; [by eexists|]). lia. }
      destruct Hc as [c Hc]. exists c. by rewrite Hc.
    - lia.
    - split.
      + apply Z.div_le_lower_bound; lia.
      + apply Z.div_lt_upper_bound; lia.
    - lia.
    - assert (1024 ^ Z.of_nat k ≤ 1024 ^ 5) by (apply Z.pow_le_mono_r; lia).
      change (1024 ^ 5) with 1125899906842624 in *.
      change (2 ^ 63) with 9223372036854775808. lia. }
  split; [|split; [|split; [exact Hscaled|reflexivity]]].
  - destruct (Z.lt_ge_cases bytes 1024) as [Hsmall|Hlarge].
    + unfold FormatBytes. cbn zeta.
      destruct (Z.ltb_spec bytes 1024); [by eexists|lia].
    + assert (Hk : ∃ k : nat, 1024 ^ (Z.of_nat k + 1) ≤ bytes < 1024 ^ (Z.of_nat k + 2)).
      { change (2 ^ 64) with 18446744073709551616 in *.
        destruct (Z.lt_ge_cases bytes (1024 ^ 2)); [by exists 0%nat|].
        destruct (Z.lt_ge_cases bytes (1024 ^ 3)); [by exists 1%nat|].
        destruct (Z.lt_ge_cases bytes (1024 ^ 4)); [by exists 2%nat|].
        destruct (Z.lt_ge_cases bytes (1024 ^ 5)); [by exists 3%nat|].
        destruct (Z.lt_ge_cases bytes (1024 ^ 6)); [by exists 4%nat|].
        exists 5%nat. split; [done|].
        change (1024 ^ (Z.of_nat 5 + 2)) with 1180591620717411303424. lia. }
      destruct Hk as [k Hk]. destruct (Hscaled k Hk) as (c & _ & ->). by eexists.
  - intros Hsmall. unfold FormatBytes. cbn zeta.
    by destruct (Z.ltb_spec bytes 1024); [|lia].
Qed.

Lemma FormatBytes_unit_witness :
  FormatBytes 512 = Some (fmt.Sprintf "%d B" [fmt.Int 512]) ∧
  FormatBytes 1610612736 =
    Some (fmt.Sprintf "%.1f %cB"
            [fmt.Float (fdiv (float64_of_Z 1610612736) (float64_of_Z (1024 ^ 3)));
             fmt.Char "G"]) ∧
  is_Some (FormatBytes (2 ^ 64 - 1)).
Proof.
  destruct (FormatBytes_unit 512) as (_ & Hsmall & _); [lia|].
  destruct (FormatBytes_unit 1610612736) as (_ & _ & Hscaled & _); [lia|].
  destruct (FormatBytes_unit (2 ^ 64 - 1)) as (Hsome & _); [lia|].
  split; [apply Hsmall; lia|]. split; [|exact Hsome].
  destruct (Hscaled 2%nat) as (c & Hc & ->); [cbn; lia|].
  cbn in Hc. by injection Hc as <-.
Defined.

(** ** Uptime *)

(** X24.  For an uptime of up to 9223372036 seconds (the longest a
    [Duration] can hold, 292 years) [FormatUptime] prints the whole days,
    the hours of the day and the minutes of the hour, all rounded down,
    exactly; the floating-point hours and minutes it goes through lose
    nothing.  Days are left out when there are none, and hours too when
    the uptime is below an hour; the seconds are never printed. *)
Theorem FormatUptime_fields (seconds : Z) :
  0 ≤ seconds ≤ 9223372036 →
  (86400 ≤ seconds →
   FormatUptime seconds =
     Some (fmt.Sprintf "%dd %dh %dm"
             [fmt.Int (seconds / 86400); fmt.Int (seconds / 3600 mod 24);
              fmt.Int (seconds / 60 mod 60)])) ∧
  (3600 ≤ seconds < 86400 →
   FormatUptime seconds =
     Some (fmt.Sprintf "%dh %dm"
             [fmt.Int (seconds / 3600); fmt.Int (seconds / 60 mod 60)])) ∧
  (seconds < 3600 →
   FormatUptime seconds = Some (fmt.Sprintf "%dm" [fmt.Int (seconds / 60)])).
Proof.
  intros Hs. unfold FormatUptime.
  rewrite (MainSpec.int64_small seconds) by lia.
  rewrite MainSpec.int64_small by (unfold Second; lia).
  rewrite Hours_whole_seconds, Minutes_whole_seconds by lia.
  cbn [mbind option_bind]. unfold quot, rem.
  assert (Hh : 0 ≤ seconds / 3600) by (apply Z.div_pos; lia).
  assert (Hm : 0 ≤ seconds / 60) by (apply Z.div_pos; lia).
  rewrite Z.quot_div_nonneg, !Z.rem_mod_nonneg by lia.
  rewrite Z.div_div by lia. change (3600 * 24) with 86400.
  split; [|split].
  - intros Hday.
    assert (1 ≤ seconds / 86400) by (apply Z.div_le_lower_bound; lia).
    by destruct (Z.ltb_spec 0 (seconds / 86400)); [|lia].
  - intros [Hhour Hday].
    assert (Hd0 : seconds / 86400 = 0) by (apply Z.div_small; lia).
    assert (Hh1 : 1 ≤ seconds / 3600 < 24).
    { split; [apply Z.div_le_lower_bound; lia|apply Z.div_lt_upper_bound; lia]. }
    rewrite Hd0, (Z.mod_small (seconds / 3600)) by lia. cbn.
    by destruct (Z.ltb_spec 0 (seconds / 3600)); [|lia].
  - intros Hmin.
    assert (Hd0 : seconds / 86400 = 0) by (apply Z.div_small; lia).
    assert (Hh0 : seconds / 3600 = 0) by (apply Z.div_small; lia).
    assert (Hm1 : seconds / 60 < 60) by (apply Z.div_lt_upper_bound; lia).
    rewrite Hd0, Hh0, (Z.mod_small (seconds / 60)) by lia. done.
Qed.

Lemma FormatUptime_fields_witness :
  FormatUptime 273906 =
    Some (fmt.Sprintf "%dd %dh %dm" [fmt.Int 3; fmt.Int 4; fmt.Int 5]) ∧
  FormatUptime 7259 = Some (fmt.Sprintf "%dh %dm" [fmt.Int 2; fmt.Int 0]) ∧
  FormatUptime 59 = Some (fmt.Sprintf "%dm" [fmt.Int 0]).
Proof.
  destruct (FormatUptime_fields 273906) as (Hdays & _ & _); [lia|].
  destruct (FormatUptime_fields 7259) as (_ & Hhours & _); [lia|].
  destruct (FormatUptime_fields 59) as (_ & _ & Hminutes); [lia|].
  split; [apply Hdays; lia|]. split; [apply Hhours; lia|apply Hminutes; lia].
Defined.
End StatsSpec.
